(** * Attribution engine, shadow-branch migration and checkpoint identity

    A shallow embedding of the attribution code of the CLI
    ([strategy/manual_commit_attribution.go]), of the shadow-branch
    migration ([strategy/manual_commit_migration.go]) and of the pieces
    of the session store and of the checkpoint identifiers that the
    specification describes.

    Conventions.
    - Go [string] is a byte sequence: [string] of the Standard Library,
      one [ascii] per byte.
    - Go [int] is modelled by [Z].  Every integer of the attribution code
      is a line count or a sum of line counts over the touched files;
      where a property depends on the 64 bits of [int], the range is a
      hypothesis of the theorem or the wrap-around is written out
      ([wrap64]).
    - Go [float64] is the binary64 format of the Standard Library
      ([SpecFloat]): conversions, divisions and multiplications round to
      nearest, ties to even.
    - Go maps are [gmap]s; a pointer that may be [nil] is an [option]. *)

From Stdlib Require Import ZArith QArith Qabs Qpower Ascii String List Lia Lqa.
From Stdlib Require Import SpecFloat.
From stdpp Require Import base option list gmap strings fin_maps.

Local Open Scope string_scope.
Local Open Scope Z_scope.

(** ** Strings: the part of Go's [strings] package that the code uses *)

Module GoStrings.

Definition newline : ascii := "010"%char.
Definition nul : ascii := "000"%char.

(** [strings.Count(s, "\n")]: the separator is a single byte, so
    occurrences cannot overlap. *)
Fixpoint Count_nl (s : string) : Z :=
  match s with
  | EmptyString => 0
  | String c s' => (if Ascii.eqb c newline then 1 else 0) + Count_nl s'
  end.

(** [strings.HasSuffix(s, "\n")]. *)
Fixpoint HasSuffix_nl (s : string) : bool :=
  match s with
  | EmptyString => false
  | String c EmptyString => Ascii.eqb c newline
  | String _ s' => HasSuffix_nl s'
  end.

(** [strings.Contains(s, "\x00")]. *)
Fixpoint Contains_nul (s : string) : bool :=
  match s with
  | EmptyString => false
  | String c s' => Ascii.eqb c nul || Contains_nul s'
  end.

(** [s[:n]] for a string of at least [n] bytes. *)
Definition prefix (n : nat) (s : string) : string := String.substring 0 n s.

(** [s[n:]] for a string of at least [n] bytes. *)
Fixpoint drop (n : nat) (s : string) : string :=
  match n, s with
  | O, _ => s
  | S _, EmptyString => EmptyString
  | S n', String _ s' => drop n' s'
  end.

(** [a == b] on strings. *)
Definition eqs (a b : string) : bool := bool_decide (a = b).

End GoStrings.

(** ** Binary64 ([float64])

    The IEEE 754 double-precision format as the Standard Library
    specifies it ([SpecFloat]): 53 bits of precision, exponents below
    1024, rounding to nearest with ties to even. *)

Module Float64.

Definition prec : Z := 53.
Definition emax : Z := 1024.

Definition float64 : Type := spec_float.

(** [float64(n)] for an integer [n]. *)
Definition of_int (n : Z) : float64 := binary_normalize prec emax n 0 false.

(** [x / y] and [x * y]. *)
Definition div (x y : float64) : float64 := SFdiv prec emax x y.
Definition mul (x y : float64) : float64 := SFmul prec emax x y.

(** [+0], the zero value of a [float64] variable. *)
Definition zero : float64 := S754_zero false.

(** A number: neither an infinity nor a NaN. *)
Definition is_finite (x : float64) : bool :=
  match x with
  | S754_zero _ | S754_finite _ _ _ => true
  | _ => false
  end.

(** The rational number that a finite float stands for:
    mantissa times two to the exponent. *)
Definition value (x : float64) : Q :=
  match x with
  | S754_finite s m e =>
      if s then (- (inject_Z (Zpos m) * 2 ^ e))%Q
      else (inject_Z (Zpos m) * 2 ^ e)%Q
  | _ => 0%Q
  end.

(** [+0] or a positive number. *)
Definition nonneg_finite (x : float64) : Prop :=
  x = S754_zero false \/ exists m e, x = S754_finite false m e.

(** What a mantissa [m] and a location [l] say of the quotient [X / D]
    that they stand for: it is [m], or lies in the lower half, at the
    middle or in the upper half of the interval from [m] to [m + 1]. *)
Definition inbetween (X D m : Z) (l : location) : Prop :=
  match l with
  | loc_Exact => X = m * D
  | loc_Inexact Lt => m * D < X /\ 2 * X < (2 * m + 1) * D
  | loc_Inexact Eq => 2 * X = (2 * m + 1) * D
  | loc_Inexact Gt => (2 * m + 1) * D < 2 * X /\ X < (m + 1) * D
  end.

End Float64.

(** ** Line counting and line diffs ([manual_commit_attribution.go]) *)

Module Attribution.
Import GoStrings.

(** [countLinesStr]: an empty string has 0 lines, a string without
    newlines has 1 line. *)
Definition countLinesStr (content : string) : Z :=
  if eqs content "" then 0
  else
    let lines := Count_nl content in
    if negb (HasSuffix_nl content) then lines + 1 else lines.

(** [countLinesInText]: the same count on a segment of a diff. *)
Definition countLinesInText (text : string) : Z :=
  if eqs text "" then 0
  else
    let lines := Count_nl text in
    if negb (HasSuffix_nl text) && (0 <? Z.of_nat (String.length text))
    then lines + 1 else lines.

(** [diffmatchpatch.Operation] and [diffmatchpatch.Diff]. *)
Inductive Operation : Type := DiffDelete | DiffInsert | DiffEqual.

Record Diff : Type := mkDiff { DType : Operation; Text : string }.

(** The body of the loop of [diffLines] over the segments. *)
Definition countDiff (acc : Z * Z * Z) (d : Diff) : Z * Z * Z :=
  let '(unchanged, added, removed) := acc in
  let lines := countLinesInText (Text d) in
  match DType d with
  | DiffEqual => (unchanged + lines, added, removed)
  | DiffInsert => (unchanged, added + lines, removed)
  | DiffDelete => (unchanged, added, removed + lines)
  end.

(** *** Lines, as the line mode of the diff library cuts them

    A line keeps its terminating newline; only the last line of a text
    may lack one. *)
Fixpoint splitLines (s : string) : list string :=
  match s with
  | EmptyString => []
  | String c s' =>
      if Ascii.eqb c newline then String c EmptyString :: splitLines s'
      else match splitLines s' with
           | [] => [String c EmptyString]
           | l :: ls => String c l :: ls
           end
  end.

Fixpoint joinLines (ls : list string) : string :=
  match ls with
  | [] => EmptyString
  | l :: ls' => l +:+ joinLines ls'
  end.

(** A line that ends with its newline, and a last line without one. *)
Definition terminated (l : string) : Prop :=
  l <> "" /\ Count_nl l = 1 /\ HasSuffix_nl l = true.

Definition unterminated (l : string) : Prop :=
  l <> "" /\ Count_nl l = 0 /\ HasSuffix_nl l = false.

(** Only the last line of a text may lack its newline. *)
Fixpoint lined (ls : list string) : Prop :=
  match ls with
  | [] => True
  | l :: ls' =>
      match ls' with
      | [] => terminated l \/ unterminated l
      | _ :: _ => terminated l /\ lined ls'
      end
  end.

(** An edit script in line mode: every segment is a run of whole lines;
    the [DiffEqual] and [DiffDelete] runs make up the old lines, the
    [DiffEqual] and [DiffInsert] runs the new ones. *)
Inductive edit_script : list string -> list string -> list Diff -> Prop :=
| es_done : edit_script [] [] []
| es_equal ls old new ds :
    edit_script old new ds ->
    edit_script (ls ++ old) (ls ++ new) (mkDiff DiffEqual (joinLines ls) :: ds)
| es_insert ls old new ds :
    edit_script old new ds ->
    edit_script old (ls ++ new) (mkDiff DiffInsert (joinLines ls) :: ds)
| es_delete ls old new ds :
    edit_script old new ds ->
    edit_script (ls ++ old) new (mkDiff DiffDelete (joinLines ls) :: ds).

(** The contract of the line-mode pipeline of the diff library
    ([DiffLinesToChars], [DiffMain] on the encoded texts,
    [DiffCharsToLines]). *)
Definition line_mode_diff (dmp : string -> string -> list Diff) : Prop :=
  forall a b, edit_script (splitLines a) (splitLines b) (dmp a b).

(** *** Trees of the object store *)

(** [object.File]: [Contents] is [None] when reading the blob fails. *)
Record File : Type := mkFile { Contents : option string }.

(** [getFileContent]: the empty string for a [nil] tree, a missing or
    unreadable file, or a binary one. A tree maps full paths to files;
    [tree.File(path)] fails when the path is not in the tree. *)
Definition getFileContent (tree : option (gmap string File)) (path : string) : string :=
  match tree with
  | None => ""
  | Some t =>
      match t !! path with
      | None => ""
      | Some file =>
          match Contents file with
          | None => ""
          | Some content => if Contains_nul content then "" else content
          end
      end
  end.

(** [checkpoint.InitialAttribution]. [CalculatedAt] is the clock
    reading of [time.Now()]. *)
Record InitialAttribution : Type := mkInitialAttribution {
  CalculatedAt : Z;
  AgentLines : Z;
  HumanAdded : Z;
  HumanModified : Z;
  HumanRemoved : Z;
  TotalCommitted : Z;
  AgentPercentage : Float64.float64
}.

(** The five running totals of [CalculateAttribution]. *)
Record Totals : Type := mkTotals {
  totalAgentAdded : Z;
  totalHumanAdded : Z;
  totalHumanModified : Z;
  totalHumanRemoved : Z;
  totalCommitAdded : Z
}.

Definition noTotals : Totals := mkTotals 0 0 0 0 0.

Section WithDiffLibrary.

(** [dmpLineDiff a b] stands for the three calls
    [DiffLinesToChars], [DiffMain(text1, text2, false)] and
    [DiffCharsToLines] of [diffLines]. *)
Variable dmpLineDiff : string -> string -> list Diff.

(** [diffLines]: (unchanged, added, removed). *)
Definition diffLines (checkpointContent committedContent : string) : Z * Z * Z :=
  if eqs checkpointContent committedContent then
    (countLinesStr committedContent, 0, 0)
  else if eqs checkpointContent "" then
    (0, countLinesStr committedContent, 0)
  else if eqs committedContent "" then
    (0, 0, countLinesStr checkpointContent)
  else
    fold_left countDiff (dmpLineDiff checkpointContent committedContent) (0, 0, 0).

(** One iteration of the loop over [filesTouched]. *)
Definition attributeFile (baseTree checkpointTree committedTree : option (gmap string File))
    (acc : Totals) (filePath : string) : Totals :=
  let baseContent := getFileContent baseTree filePath in
  let checkpointContent := getFileContent checkpointTree filePath in
  let committedContent := getFileContent committedTree filePath in
  if eqs baseContent committedContent then acc
  else
    let '(_, commitAdded, commitRemoved) := diffLines baseContent committedContent in
    let '(_, humanAdded, humanRemoved) := diffLines checkpointContent committedContent in
    let agentAdded := commitAdded - humanAdded in
    let agentAdded := if agentAdded <? 0 then 0 else agentAdded in
    let humanModified := Z.min humanAdded humanRemoved in
    let pureHumanAdded := humanAdded - humanModified in
    let pureHumanRemoved := humanRemoved - humanModified in
    let agentRemovedFromBase := countLinesStr baseContent - countLinesStr checkpointContent in
    let agentRemovedFromBase := if agentRemovedFromBase <? 0 then 0 else agentRemovedFromBase in
    let actualHumanRemoved := commitRemoved - agentRemovedFromBase in
    let actualHumanRemoved := if actualHumanRemoved <? 0 then 0 else actualHumanRemoved in
    let actualHumanRemoved :=
      if pureHumanRemoved <? actualHumanRemoved then pureHumanRemoved else actualHumanRemoved in
    {| totalAgentAdded := totalAgentAdded acc + agentAdded;
       totalHumanAdded := totalHumanAdded acc + pureHumanAdded;
       totalHumanModified := totalHumanModified acc + humanModified;
       totalHumanRemoved := totalHumanRemoved acc + actualHumanRemoved;
       totalCommitAdded := totalCommitAdded acc + commitAdded |}.

(** [CalculateAttribution]; [None] is the [nil] result. *)
Definition CalculateAttribution (now : Z)
    (baseTree checkpointTree committedTree : option (gmap string File))
    (filesTouched : list string) : option InitialAttribution :=
  if Nat.eqb (length filesTouched) 0 then None
  else
    let t := fold_left (attributeFile baseTree checkpointTree committedTree)
                       filesTouched noTotals in
    let totalInCommit := totalCommitAdded t in
    let totalInCommit := if totalInCommit =? 0 then totalAgentAdded t else totalInCommit in
    let agentPercentage :=
      if 0 <? totalInCommit
      then Float64.mul
             (Float64.div (Float64.of_int (totalAgentAdded t)) (Float64.of_int totalInCommit))
             (Float64.of_int 100)
      else Float64.zero in
    Some {| CalculatedAt := now;
            AgentLines := totalAgentAdded t;
            HumanAdded := totalHumanAdded t;
            HumanModified := totalHumanModified t;
            HumanRemoved := totalHumanRemoved t;
            TotalCommitted := totalInCommit;
            AgentPercentage := agentPercentage |}.

End WithDiffLibrary.

End Attribution.

(** ** The per-file contributions, in the words of the specification

    The second definition of the attribution of one file, written from
    the formulas of the specification; the theorems compare it with the
    loop of [CalculateAttribution]. *)

Module AttributionSpec.
Import GoStrings Attribution.

Definition clamp (x lo hi : Z) : Z := Z.max lo (Z.min x hi).

Definition linesIn (content : string) : Z := countLinesStr content.

Definition sumZ (l : list Z) : Z := foldr Z.add 0 l.

Record Contribution : Type := mkContribution {
  agentAdded : Z;
  pureHumanAdded : Z;
  humanModified : Z;
  actualHumanRemoved : Z;
  commitAdded : Z
}.

(** The running totals after one more contribution. *)
Definition addContribution (acc : Totals) (c : Contribution) : Totals :=
  {| totalAgentAdded := totalAgentAdded acc + agentAdded c;
     totalHumanAdded := totalHumanAdded acc + pureHumanAdded c;
     totalHumanModified := totalHumanModified acc + humanModified c;
     totalHumanRemoved := totalHumanRemoved acc + actualHumanRemoved c;
     totalCommitAdded := totalCommitAdded acc + commitAdded c |}.

Section WithDiffLibrary.

Variable dmpLineDiff : string -> string -> list Diff.

Definition contribution (base checkpoint committed : string) : Contribution :=
  let '(_, commitAdded, commitRemoved) := diffLines dmpLineDiff base committed in
  let '(_, humanAdded, humanRemoved) := diffLines dmpLineDiff checkpoint committed in
  let humanModified := Z.min humanAdded humanRemoved in
  let pureHumanRemoved := humanRemoved - humanModified in
  let agentRemovedFromBase := Z.max 0 (linesIn base - linesIn checkpoint) in
  {| agentAdded := Z.max 0 (commitAdded - humanAdded);
     pureHumanAdded := humanAdded - humanModified;
     humanModified := humanModified;
     actualHumanRemoved := clamp (commitRemoved - agentRemovedFromBase) 0 pureHumanRemoved;
     commitAdded := commitAdded |}.

Section OnTrees.

Variables baseTree checkpointTree committedTree : option (gmap string File).

Definition contributionOf (filePath : string) : Contribution :=
  contribution (getFileContent baseTree filePath)
               (getFileContent checkpointTree filePath)
               (getFileContent committedTree filePath).

(** A touched file counts when its base and committed contents differ. *)
Definition changed (filePath : string) : bool :=
  negb (eqs (getFileContent baseTree filePath) (getFileContent committedTree filePath)).

(** The sum of one component over the touched files that changed. *)
Definition aggregate (component : Contribution -> Z) (filesTouched : list string) : Z :=
  sumZ (map (fun f => component (contributionOf f)) (filter (fun f => changed f = true) filesTouched)).

(** [totalInCommit]: the added lines of the commit, or the agent's
    lines when the commit adds none. *)
Definition totalInCommit (filesTouched : list string) : Z :=
  if aggregate commitAdded filesTouched =? 0
  then aggregate agentAdded filesTouched
  else aggregate commitAdded filesTouched.

End OnTrees.

End WithDiffLibrary.

(** A minimal line-mode diff (a longest common subsequence of lines),
    which is what the library computes within its time limit. *)
Definition keptLines (ds : list Diff) : nat :=
  length (List.filter (fun d => match DType d with DiffEqual => true | _ => false end) ds).

Fixpoint lcsDiff (la : list string) : list string -> list Diff :=
  fix inner (lb : list string) : list Diff :=
    match la, lb with
    | [], [] => []
    | [], _ :: _ => [mkDiff DiffInsert (joinLines lb)]
    | _ :: _, [] => [mkDiff DiffDelete (joinLines la)]
    | x :: la', y :: lb' =>
        if eqs x y then mkDiff DiffEqual (joinLines [x]) :: lcsDiff la' lb'
        else
          let viaDelete := mkDiff DiffDelete (joinLines [x]) :: lcsDiff la' lb in
          let viaInsert := mkDiff DiffInsert (joinLines [y]) :: inner lb' in
          if Nat.ltb (keptLines viaInsert) (keptLines viaDelete) then viaDelete else viaInsert
    end.

Definition lcsLineDiff (a b : string) : list Diff :=
  lcsDiff (splitLines a) (splitLines b).

(** The texts of the unit tests of the line counts and of the diff. *)
Definition nl : string := String newline EmptyString.

Definition text_x : string := "x".
Definition text_a_b_nl : string := "a" +:+ nl +:+ "b" +:+ nl.
Definition text_a_b : string := "a" +:+ nl +:+ "b".

Definition testThreeLines : string :=
  "line1" +:+ nl +:+ "line2" +:+ nl +:+ "line3" +:+ nl.

Definition testMixedChanges : string :=
  "line1" +:+ nl +:+ "modified" +:+ nl +:+ "line3" +:+ nl +:+ "new line" +:+ nl.

Definition lines (ls : list string) : string := joinLines (map (fun l => l +:+ nl) ls).

Definition testEightLines : string :=
  lines ["line1"; "line2"; "line3"; "line4"; "line5"; "line6"; "line7"; "line8"].

Definition testTenLines : string :=
  lines ["line1"; "line2"; "line3"; "line4"; "line5"; "line6"; "line7"; "line8";
         "new1"; "new2"].

Definition testOriginal : string := lines ["original1"; "original2"; "original3"].

Definition testModified : string :=
  lines ["modified1"; "modified2"; "original3"; "new line"].

(** A tree holds no content for a path: the tree is [nil] or the file
    is missing from it. *)
Definition absent (tree : option (gmap string File)) (path : string) : Prop :=
  match tree with
  | None => True
  | Some t => t !! path = None
  end.

(** One touched file: three lines at the base, the agent rewrites one
    and appends one, the user appends one more before committing. *)
Definition sampleFile : string := "file.txt".

Definition sampleBaseTree : option (gmap string File) :=
  Some {[ sampleFile := mkFile (Some testThreeLines) ]}.

Definition sampleCheckpointTree : option (gmap string File) :=
  Some {[ sampleFile := mkFile (Some testMixedChanges) ]}.

Definition sampleCommittedTree : option (gmap string File) :=
  Some {[ sampleFile := mkFile (Some (testMixedChanges +:+ "by hand" +:+ nl)) ]}.

(** Two touched files, both new in the commit: the agent wrote the
    eleven lines of the first, which the user left alone, and the user
    wrote the nine lines of the second after the last checkpoint. No
    comparison reaches the diff library: the contents are equal or one
    of them is empty. *)
Definition agentFile : string := "agent.go".
Definition humanFile : string := "human.go".

Definition elevenLines : string :=
  lines ["a1"; "a2"; "a3"; "a4"; "a5"; "a6"; "a7"; "a8"; "a9"; "a10"; "a11"].

Definition nineLines : string :=
  lines ["h1"; "h2"; "h3"; "h4"; "h5"; "h6"; "h7"; "h8"; "h9"].

Definition splitBaseTree : option (gmap string File) := Some ∅.

Definition splitCheckpointTree : option (gmap string File) :=
  Some {[ agentFile := mkFile (Some elevenLines) ]}.

Definition splitCommittedTree : option (gmap string File) :=
  Some {[ agentFile := mkFile (Some elevenLines); humanFile := mkFile (Some nineLines) ]}.

End AttributionSpec.

(** ** Integers: Go's [int] on a 64-bit platform *)

Module GoInt.

(** The integer that 64 bits hold, in two's complement, of an exact
    result: what [+] and [+=] leave of a sum. *)
Definition wrap64 (z : Z) : Z := (z + 2 ^ 63) mod 2 ^ 64 - 2 ^ 63.

End GoInt.

(** ** Accumulated attribution (the per-file pool heuristic) *)

Module Accumulated.

(** [PromptAttribution]: the user's edits captured before one agent turn. *)
Record PromptAttribution : Type := mkPromptAttribution {
  UserLinesAdded : Z;
  UserLinesRemoved : Z;
  UserAddedPerFile : gmap string Z
}.

(** [m[k]] on a Go map of integers: 0 for a missing key. *)
Definition at_key (m : gmap string Z) (k : string) : Z := default 0 (m !! k).

(** [estimateUserSelfModifications]: when the user removes lines of a
    file, the lines they added themselves to it are taken first. *)
Definition estimateUserSelfModifications
    (accumulatedUserAddedPerFile postCheckpointUserRemovedPerFile : gmap string Z) : Z :=
  map_fold (fun filePath removed selfModified =>
              let userAddedToFile := at_key accumulatedUserAddedPerFile filePath in
              selfModified + Z.min removed userAddedToFile)
           0 postCheckpointUserRemovedPerFile.

(** [estimateUserSelfModifications] with the 64 bits of [int] written
    out: every [+=] of the loop wraps. *)
Definition estimateUserSelfModificationsInt64
    (accumulatedUserAddedPerFile postCheckpointUserRemovedPerFile : gmap string Z) : Z :=
  map_fold (fun filePath removed selfModified =>
              let userAddedToFile := at_key accumulatedUserAddedPerFile filePath in
              GoInt.wrap64 (selfModified + Z.min removed userAddedToFile))
           0 postCheckpointUserRemovedPerFile.

(** The sum of the counts of a per-file map. *)
Definition totalOf (m : gmap string Z) : Z := map_fold (fun _ count acc => acc + count) 0 m.

(** The diff from the last shadow snapshot to the commit. *)
Record PostCheckpointDiff : Type := mkPostCheckpointDiff {
  postCheckpointUserAdded : Z;
  postCheckpointUserRemoved : Z;
  postCheckpointUserRemovedPerFile : gmap string Z
}.

Record AccumulatedAttribution : Type := mkAccumulatedAttribution {
  selfModified : Z;
  humanModifiedAgentLines : Z;
  agentLinesInCommit : Z;
  totalCommitted : Z;
  agentPercentage : Q
}.

(** Step 1: the sums over every [PromptAttribution] and the merge of
    the per-file maps, summed per file. *)
Definition accumulatedUserAdded (pas : list PromptAttribution) : Z :=
  foldr (fun pa acc => UserLinesAdded pa + acc) 0 pas.

Definition accumulatedUserRemoved (pas : list PromptAttribution) : Z :=
  foldr (fun pa acc => UserLinesRemoved pa + acc) 0 pas.

Definition accumulatedUserAddedPerFile (pas : list PromptAttribution) : gmap string Z :=
  foldr (fun pa acc => union_with (fun x y => Some (x + y)) (UserAddedPerFile pa) acc) ∅ pas.

(** Modelled from the spec: [CalculateAttributionWithAccumulated] is not
    among the sources. Steps 1 to 5 of the accumulated final attribution
    of the specification, with the quantities that the specification
    leaves open taken from the worked example of the attribution notes:
    the agent's lines are the lines added from base to shadow less the
    accumulated user additions, the modified lines are the minimum of
    the user's total additions and total removals, and the committed
    total is the agent's lines plus the user's additions that are not
    modifications. [baseToShadowAdded] is the number of lines added
    between the base and the last shadow snapshot. *)
Definition CalculateAttributionWithAccumulated (baseToShadowAdded : Z)
    (allPromptAttributions : list PromptAttribution)
    (postCheckpointDiff : PostCheckpointDiff) : AccumulatedAttribution :=
  let userAdded := accumulatedUserAdded allPromptAttributions in
  let userRemoved := accumulatedUserRemoved allPromptAttributions in
  let userAddedPerFile := accumulatedUserAddedPerFile allPromptAttributions in
  let totalAgentAdded := Z.max 0 (baseToShadowAdded - userAdded) in
  let totalUserAdded := userAdded + postCheckpointUserAdded postCheckpointDiff in
  let totalUserRemoved := userRemoved + postCheckpointUserRemoved postCheckpointDiff in
  let totalHumanModified := Z.min totalUserAdded totalUserRemoved in
  let totalSelfModified :=
    estimateUserSelfModifications userAddedPerFile
      (postCheckpointUserRemovedPerFile postCheckpointDiff) in
  let humanModifiedAgent := Z.max 0 (totalHumanModified - totalSelfModified) in
  let agentLines := Z.max 0 (totalAgentAdded - humanModifiedAgent) in
  let total := totalAgentAdded + (totalUserAdded - totalHumanModified) in
  {| selfModified := totalSelfModified;
     humanModifiedAgentLines := humanModifiedAgent;
     agentLinesInCommit := agentLines;
     totalCommitted := total;
     agentPercentage :=
       if 0 <? total then (inject_Z agentLines / inject_Z total * 100)%Q else 0%Q |}.

(** The scenario of the specification: the agent adds 10 lines to
    [main.go], the user adds 5 (one prompt capture), then removes 3 of
    their own lines and adds 3 different ones. *)
Definition scenarioFile : string := "main.go".

Definition scenarioPrompts : list PromptAttribution :=
  [mkPromptAttribution 5 0 {[ scenarioFile := 5 ]}].

Definition scenarioPostCheckpoint : PostCheckpointDiff :=
  mkPostCheckpointDiff 3 3 {[ scenarioFile := 3 ]}.

Definition scenario : AccumulatedAttribution :=
  CalculateAttributionWithAccumulated 15 scenarioPrompts scenarioPostCheckpoint.

End Accumulated.

(** ** Session records *)

Module Session.

(** Modelled from the spec: the declaration of [SessionState] is not
    among the sources. One record per active session, with the fields of
    the data model of the specification; the migration reads
    [BaseCommit] and [WorktreeID], the gate [CheckpointCount] and
    [ConcurrentWarningShown]. *)
Record SessionState : Type := mkSessionState {
  SessionID : string;
  WorktreeID : string;
  BaseCommit : string;
  CheckpointCount : Z;
  ConcurrentWarningShown : bool;
  PromptAttributions : list Accumulated.PromptAttribution
}.

Definition withBaseCommit (state : SessionState) (commit : string) : SessionState :=
  {| SessionID := SessionID state;
     WorktreeID := WorktreeID state;
     BaseCommit := commit;
     CheckpointCount := CheckpointCount state;
     ConcurrentWarningShown := ConcurrentWarningShown state;
     PromptAttributions := PromptAttributions state |}.

End Session.

(** ** Shadow-branch migration ([manual_commit_migration.go]) *)

Module Migration.
Import GoStrings Session.

(** The repository as the migration sees it: the hash of HEAD ([None]
    when [repo.Head()] fails), the references of the storer (name to
    hash), and the names on which the storer refuses a write or a
    removal. *)
Record Repository : Type := mkRepository {
  head : option string;
  refs : gmap string string;
  setDenied : gset string;
  removeDenied : gset string
}.

Definition withRefs (repo : Repository) (r : gmap string string) : Repository :=
  {| head := head repo; refs := r;
     setDenied := setDenied repo; removeDenied := removeDenied repo |}.

(** [repo.Head()], then [head.Hash().String()]. *)
Definition Head (repo : Repository) : option string := head repo.

(** [repo.Reference(name, true)], then [ref.Hash()]. *)
Definition Reference (repo : Repository) (name : string) : option string :=
  refs repo !! name.

(** [repo.Storer.SetReference(plumbing.NewHashReference(name, hash))]. *)
Definition SetReference (repo : Repository) (name hash : string) : option Repository :=
  if decide (name ∈ setDenied repo) then None
  else Some (withRefs repo (<[name := hash]> (refs repo))).

(** [repo.Storer.RemoveReference(name)]. *)
Definition RemoveReference (repo : Repository) (name : string) : option Repository :=
  if decide (name ∈ removeDenied repo) then None
  else Some (withRefs repo (delete name (refs repo))).

(** [plumbing.NewBranchReferenceName]. *)
Definition NewBranchReferenceName (name : string) : string := "refs/heads/" +:+ name.

Inductive MigrationError : Type :=
| FailedToGetHEAD
| FailedToCreateShadowBranch (newShadowBranch : string).

(** The lines written to the standard error stream. *)
Inductive Message : Type :=
| UpdatedBaseCommit (shortHead : string)
| WarnRemoveFailed (oldShadowBranch : string)
| MovedShadowBranch (oldShadowBranch newShadowBranch : string).

(** What a call leaves behind: the two results, the repository, the
    session state behind the pointer and the messages. *)
Record Outcome : Type := mkOutcome {
  migrated : bool;
  err : option MigrationError;
  repoAfter : Repository;
  stateAfter : option SessionState;
  stderr : list Message
}.

Section WithNaming.

(** [checkpoint.ShadowBranchNameForCommit] is declared outside the
    sources at hand: a parameter. *)
Variable ShadowBranchNameForCommit : string -> string -> string.

Definition migrateShadowBranchIfNeeded (repo : Repository)
    (state : option SessionState) : Outcome :=
  match state with
  | None => mkOutcome false None repo None []
  | Some st =>
      if eqs (BaseCommit st) "" then mkOutcome false None repo (Some st) []
      else
        match Head repo with
        | None => mkOutcome false (Some FailedToGetHEAD) repo (Some st) []
        | Some currentHead =>
            if eqs (BaseCommit st) currentHead then mkOutcome false None repo (Some st) []
            else
              let oldShadowBranch := ShadowBranchNameForCommit (BaseCommit st) (WorktreeID st) in
              let newShadowBranch := ShadowBranchNameForCommit currentHead (WorktreeID st) in
              let oldRefName := NewBranchReferenceName oldShadowBranch in
              match Reference repo oldRefName with
              | None =>
                  mkOutcome true None repo (Some (withBaseCommit st currentHead))
                            [UpdatedBaseCommit (prefix 7 currentHead)]
              | Some oldHash =>
                  let newRefName := NewBranchReferenceName newShadowBranch in
                  match SetReference repo newRefName oldHash with
                  | None =>
                      mkOutcome false (Some (FailedToCreateShadowBranch newShadowBranch))
                                repo (Some st) []
                  | Some repo1 =>
                      let '(repo2, warning) :=
                        match RemoveReference repo1 oldRefName with
                        | None => (repo1, [WarnRemoveFailed oldShadowBranch])
                        | Some r => (r, [])
                        end in
                      mkOutcome true None repo2 (Some (withBaseCommit st currentHead))
                                (warning ++ [MovedShadowBranch oldShadowBranch newShadowBranch])
                  end
              end
        end
  end.

(** Two calls in a row on the same session, HEAD untouched in between. *)
Definition migrateTwice (repo : Repository) (state : option SessionState)
    : Outcome * Outcome :=
  let first := migrateShadowBranchIfNeeded repo state in
  (first, migrateShadowBranchIfNeeded (repoAfter first) (stateAfter first)).

(** The shadow branch of a session state. *)
Definition shadowBranchOf (state : SessionState) : string :=
  ShadowBranchNameForCommit (BaseCommit state) (WorktreeID state).

End WithNaming.

(** A naming in the style of the specification's [NameFor], and a
    repository in which the session of a worktree has one checkpoint
    on the shadow branch of its base and HEAD has since moved. *)
Definition sampleName (baseCommit worktreeID : string) : string :=
  "entire/" +:+ prefix 7 baseCommit +:+ "-" +:+ worktreeID.

Definition oldBase : string := "1111111111111111111111111111111111111111".
Definition newHead : string := "2222222222222222222222222222222222222222".
Definition checkpointCommit : string := "abcdefabcdefabcdefabcdefabcdefabcdefabcd".

Definition sampleState : SessionState :=
  mkSessionState "session-a" "wt" oldBase 1 false [].

Definition sampleRefs : gmap string string :=
  {[ NewBranchReferenceName (sampleName oldBase "wt") := checkpointCommit ]}.

Definition sampleRepo : Repository := mkRepository (Some newHead) sampleRefs ∅ ∅.

(** The same repository with a storer that refuses to write the new
    shadow reference. *)
Definition readOnlyRepo : Repository :=
  mkRepository (Some newHead) sampleRefs
               {[ NewBranchReferenceName (sampleName newHead "wt") ]} ∅.

(** The same repository with a storer that refuses to remove the old
    shadow reference. *)
Definition stickyRepo : Repository :=
  mkRepository (Some newHead) sampleRefs ∅
               {[ NewBranchReferenceName (sampleName oldBase "wt") ]}.

(** The same repository with HEAD on a commit whose hash starts with
    the seven characters of the recorded base: the two shadow branches
    have the same name. *)
Definition lookalikeHead : string := "1111111222222222222222222222222222222222".

Definition lookalikeRepo : Repository := mkRepository (Some lookalikeHead) sampleRefs ∅ ∅.

End Migration.

(** ** Session state store and the concurrency gate *)

Module SessionStore.
Import GoStrings Session.

(** The decision handed back to the hook layer of a prompt submission. *)
Record Response : Type := mkResponse { Continue : bool; StopReason : string }.

(** The hook layer invokes the agent exactly when told to continue. *)
Definition agentInvoked (r : Response) : bool := Continue r.

(** Another live session that shares the context of the candidate. *)
Definition sharesContext (candidateSession candidateWorktree : string)
    (entry : string * SessionState) : bool :=
  negb (eqs (fst entry) candidateSession) && eqs (WorktreeID (snd entry)) candidateWorktree.

Definition hasCheckpoints (entry : string * SessionState) : bool :=
  0 <? CheckpointCount (snd entry).

(** Modelled from the spec: the session state store is not among the
    sources (only the integration tests of the gate are).
    [DetectConcurrentSession] scans the other live session records that
    share context with the candidate; a session conflicts only if its
    [CheckpointCount] is positive. The store maps session identifiers to
    records. *)
Definition DetectConcurrentSession (store : gmap string SessionState)
    (candidateSession candidateWorktree : string) : string * bool :=
  let others :=
    List.filter (sharesContext candidateSession candidateWorktree) (map_to_list store) in
  match List.filter hasCheckpoints others with
  | entry :: _ => (fst entry, true)
  | [] =>
      match others with
      | entry :: _ => (fst entry, false)
      | [] => ("", false)
      end
  end.

Definition newSession (sessionID worktreeID baseCommit : string) (warned : bool)
    : SessionState :=
  mkSessionState sessionID worktreeID baseCommit 0 warned [].

(** Modelled from the spec: the prompt-submit hook is not among the
    sources. The first prompt of a new session (no record yet) is
    blocked when a conflicting session is detected: the refusal carries
    a reason and the new record has [ConcurrentWarningShown] set. Every
    later prompt of the session proceeds. *)
Definition UserPromptSubmit (store : gmap string SessionState)
    (sessionID worktreeID baseCommit : string)
    : Response * gmap string SessionState :=
  match store !! sessionID with
  | Some _ => (mkResponse true "", store)
  | None =>
      let '(active, conflict) := DetectConcurrentSession store sessionID worktreeID in
      if conflict then
        (mkResponse false ("Another session is active: " +:+ active),
         <[sessionID := newSession sessionID worktreeID baseCommit true]> store)
      else
        (mkResponse true "",
         <[sessionID := newSession sessionID worktreeID baseCommit false]> store)
  end.

(** What happens to the store over time: prompts, checkpoints (one more
    checkpoint for a session) and the tear-down of a session. *)
Inductive Event : Type :=
| Prompt (sessionID worktreeID baseCommit : string)
| Checkpoint (sessionID : string)
| TearDown (sessionID : string).

Definition addCheckpoint (state : SessionState) : SessionState :=
  {| SessionID := SessionID state;
     WorktreeID := WorktreeID state;
     BaseCommit := BaseCommit state;
     CheckpointCount := CheckpointCount state + 1;
     ConcurrentWarningShown := ConcurrentWarningShown state;
     PromptAttributions := PromptAttributions state |}.

(** One event; the response is [None] unless the event is a prompt. *)
Definition step (store : gmap string SessionState) (e : Event)
    : option (string * Response) * gmap string SessionState :=
  match e with
  | Prompt sessionID worktreeID baseCommit =>
      let '(r, store') := UserPromptSubmit store sessionID worktreeID baseCommit in
      (Some (sessionID, r), store')
  | Checkpoint sessionID => (None, alter addCheckpoint sessionID store)
  | TearDown sessionID => (None, delete sessionID store)
  end.

(** The responses to the prompts of a run, in order, and the final store. *)
Fixpoint run (store : gmap string SessionState) (events : list Event)
    : list (string * Response) * gmap string SessionState :=
  match events with
  | [] => ([], store)
  | e :: events' =>
      let '(r, store') := step store e in
      let '(rs, final) := run store' events' in
      (match r with Some x => x :: rs | None => rs end, final)
  end.

Definition tearsDown (sessionID : string) (e : Event) : bool :=
  match e with
  | TearDown s => eqs s sessionID
  | _ => false
  end.

(** The warning has been shown to the session. *)
Definition warned (store : gmap string SessionState) (sessionID : string) : Prop :=
  exists state, store !! sessionID = Some state /\ ConcurrentWarningShown state = true.

(** A live session other than the candidate, in the same context, with
    at least one checkpoint. *)
Definition conflicting (store : gmap string SessionState)
    (candidateSession candidateWorktree other : string) : Prop :=
  exists state,
    other <> candidateSession /\ store !! other = Some state
    /\ WorktreeID state = candidateWorktree /\ 0 < CheckpointCount state.

(** The scenario of the integration tests: session A has one checkpoint
    when session B submits its first prompt. *)
Definition storeA (checkpoints : Z) : gmap string SessionState :=
  {[ "session-a" := mkSessionState "session-a" "wt" "base" checkpoints false [] ]}.

End SessionStore.

(** ** Checkpoint identifiers *)

Module CheckpointID.
Import GoStrings.

Inductive Error : Type := InvalidFormatError | EntropySourceError.

Definition EmptyCheckpointID : string := "".

Definition isLowerHex (c : ascii) : bool :=
  let n := N_of_ascii c in
  ((48 <=? n) && (n <=? 57) || (97 <=? n) && (n <=? 102))%N.

Fixpoint allLowerHex (s : string) : bool :=
  match s with
  | EmptyString => true
  | String c s' => isLowerHex c && allLowerHex s'
  end.

(** Modelled from the spec: the identifier package is not among the
    sources (only its tests are). [NewCheckpointID], the [Parse] of the
    specification, fails unless the input is exactly 12 characters drawn
    from [0-9a-f]. *)
Definition NewCheckpointID (s : string) : Error + string :=
  if Nat.eqb (String.length s) 12 && allLowerHex s then inr s
  else inl InvalidFormatError.

Definition Parse (s : string) : Error + string := NewCheckpointID s.

(** Modelled from the spec: [String()] of the identifier package, the
    underlying string of an identifier. *)
Definition String_ (id : string) : string := id.

(** Modelled from the spec: [IsEmpty] of the identifier package, true
    only for the sentinel empty value. *)
Definition IsEmpty (id : string) : bool := eqs id EmptyCheckpointID.

(** Modelled from the spec: [Path] of the identifier package. For
    length at least 3, [s[0:2] + "/" + s[2:]]; for a shorter string,
    the string unchanged. *)
Definition Path (id : string) : string :=
  if Nat.leb 3 (String.length id) then prefix 2 id +:+ "/" +:+ drop 2 id
  else id.

Definition hexDigit (n : N) : ascii :=
  if (n <? 10)%N then ascii_of_N (48 + n) else ascii_of_N (87 + n).

Definition hexByte (b : ascii) : string :=
  let n := N_of_ascii b in
  String (hexDigit (n / 16)) (String (hexDigit (n mod 16)) EmptyString).

Fixpoint hexEncode (bytes : list ascii) : string :=
  match bytes with
  | [] => EmptyString
  | b :: bytes' => hexByte b +:+ hexEncode bytes'
  end.

(** Modelled from the spec: [Generate] of the identifier package. A
    fresh 12-hex-character value from the random source, here the
    lower-case hexadecimal form of the 6 bytes read from it;
    [EntropySourceError] when the source gives nothing ([None]) or too
    little. *)
Definition Generate (entropy : option (list ascii)) : Error + string :=
  match entropy with
  | None => inl EntropySourceError
  | Some bytes =>
      if Nat.eqb (List.length bytes) 6 then inr (hexEncode bytes)
      else inl EntropySourceError
  end.

End CheckpointID.

(** ** Transcripts ([transcript/parse.go]) *)

Module Transcript.
Import GoStrings.

(** The error of a read: [io.EOF] or any other failure. *)
Inductive ReadError : Type := EOF | ReadFailure.

(** [reader.ReadBytes('\n')] on a [bufio.Reader] over a byte slice: the
    bytes up to and including the first newline and what is left to
    read; when the input ends before a newline, the bytes read so far
    and [io.EOF]. A reader over a byte slice fails in no other way. *)
Fixpoint ReadBytes (reader : string) : string * option ReadError * string :=
  match reader with
  | EmptyString => (EmptyString, Some EOF, EmptyString)
  | String c rest =>
      if Ascii.eqb c newline then (String c EmptyString, None, rest)
      else
        let '(line, err, rest') := ReadBytes rest in
        (String c line, err, rest')
  end.

Inductive ParseError : Type := FailedToReadTranscript.

(** [strings.Join(elems, sep)]. *)
Fixpoint Join (elems : list string) (sep : string) : string :=
  match elems with
  | [] => EmptyString
  | [e] => e
  | e :: elems' => e +:+ sep +:+ Join elems' sep
  end.

(** A value decoded by [encoding/json] into an [interface{}]: [nil], a
    [bool], a [float64], a [string], a [[]interface{}] or a
    [map[string]interface{}]. *)
#[warnings="-register-all"] Inductive Value : Type :=
| VNil
| VBool (b : bool)
| VNumber (x : Float64.float64)
| VString (s : string)
| VArray (items : list Value)
| VObject (fields : gmap string Value).

(** [UserMessage]: only its [Content] is read. *)
Record UserMessage : Type := mkUserMessage { Content : Value }.

Section WithDecoders.

(** [Line] and the decoding of one line by [json.Unmarshal] are
    declared outside the sources at hand: parameters. The decoder
    answers [None] when [json.Unmarshal] returns an error. *)
Variable Line : Type.
Variable UnmarshalLine : string -> option Line.

(** The loop of [ParseFromBytes]; [None] when the fuel runs out before
    the loop ends. *)
Fixpoint parseLoop (fuel : nat) (reader : string) (lines : list Line)
    : option (ParseError + list Line) :=
  match fuel with
  | O => None
  | S fuel' =>
      let '(lineBytes, err, reader') := ReadBytes reader in
      match err with
      | Some ReadFailure => Some (inl FailedToReadTranscript)
      | _ =>
          if Nat.eqb (String.length lineBytes) 0 then
            match err with
            | Some EOF => Some (inr lines)
            | _ => parseLoop fuel' reader' lines
            end
          else
            let lines' :=
              match UnmarshalLine lineBytes with
              | Some line => (lines ++ [line])%list
              | None => lines
              end in
            match err with
            | Some EOF => Some (inr lines')
            | _ => parseLoop fuel' reader' lines'
            end
      end
  end.

(** [ParseFromBytes]: every pass of the loop reads at least one byte or
    ends it, so one pass per byte and one more are enough. *)
Definition ParseFromBytes (content : string) : option (ParseError + list Line) :=
  parseLoop (S (String.length content)) content [].

(** The decoding of a raw message into a [UserMessage], the constant
    [ContentTypeText] and [textutil.StripIDEContextTags] are declared
    outside the sources at hand: parameters. *)
Variable UnmarshalUserMessage : string -> option UserMessage.
Variable ContentTypeText : string.
Variable StripIDEContextTags : string -> string.

(** The body of the loop over the items of an array content: the text
    of a text block is appended. *)
Definition collectText (texts : list string) (item : Value) : list string :=
  match item with
  | VObject m =>
      match m !! "type" with
      | Some (VString t) =>
          if eqs t ContentTypeText then
            match m !! "text" with
            | Some (VString text) => (texts ++ [text])%list
            | _ => texts
            end
          else texts
      | _ => texts
      end
  | _ => texts
  end.

(** [ExtractUserContent]. *)
Definition ExtractUserContent (message : string) : string :=
  match UnmarshalUserMessage message with
  | None => ""
  | Some msg =>
      match Content msg with
      | VString str => StripIDEContextTags str
      | VArray arr =>
          let texts := fold_left collectText arr [] in
          if Nat.ltb 0 (length texts)
          then StripIDEContextTags (Join texts (String newline (String newline EmptyString)))
          else ""
      | _ => ""
      end
  end.

(** A text block of an array content: an object whose ["type"] is the
    string [ContentTypeText] and whose ["text"] is a string. *)
Definition textBlock (text : string) : Value :=
  VObject {[ "type" := VString ContentTypeText; "text" := VString text ]}.

Definition isTextBlock (item : Value) : Prop :=
  exists (m : gmap string Value) (text : string),
    item = VObject m
    /\ m !! "type" = Some (VString ContentTypeText)
    /\ m !! "text" = Some (VString text).

End WithDecoders.

Definition blankLines : string := String newline (String newline EmptyString).

(** A tool-use block of an array content. *)
Definition toolUseBlock (name : string) : Value :=
  VObject {[ "type" := VString "tool_use"; "name" := VString name ]}.

(** Sample decoders: a line decodes when it starts with an opening
    brace, to its length; the raw message ["array"] decodes to an array
    content with two text blocks around a tool use, ["texts"] to the
    two text blocks alone, ["string"] to a string content, ["tools"] to
    an array content with a tool use and a bare string, nothing else
    decodes. *)
Definition sampleUnmarshalLine (line : string) : option nat :=
  match line with
  | String "{" _ => Some (String.length line)
  | _ => None
  end.

Definition sampleUnmarshalUserMessage (message : string) : option UserMessage :=
  if eqs message "array" then
    Some (mkUserMessage
            (VArray ([textBlock "text" "first"]
                     ++ toolUseBlock "Write" :: [textBlock "text" "second"])))
  else if eqs message "texts" then
    Some (mkUserMessage (VArray ([textBlock "text" "first"] ++ [textBlock "text" "second"])))
  else if eqs message "string" then
    Some (mkUserMessage (VString ("first" +:+ blankLines +:+ "second")))
  else if eqs message "tools" then
    Some (mkUserMessage (VArray [toolUseBlock "Write"; VString "bare"]))
  else None.

(** Two transcript lines, and a line that does not decode. *)
Definition sampleEntry : string := "{1}" +:+ String newline EmptyString.
Definition sampleNoise : string := "noise" +:+ String newline EmptyString.

End Transcript.

(** * Properties *)

(** ** Strings *)

Section StringFacts.
Import GoStrings.

Lemma eqs_true a b : eqs a b = true <-> a = b.
Proof. unfold eqs. rewrite bool_decide_eq_true. tauto. Qed.

Lemma eqs_false a b : eqs a b = false <-> a <> b.
Proof. unfold eqs. rewrite bool_decide_eq_false. tauto. Qed.

Lemma eqs_refl a : eqs a a = true.
Proof. apply eqs_true. reflexivity. Qed.

Lemma sapp_cons c s t : String c s +:+ t = String c (s +:+ t).
Proof. reflexivity. Qed.

Lemma sapp_nil t : "" +:+ t = t.
Proof. reflexivity. Qed.

Lemma Count_nl_nonneg s : 0 <= Count_nl s.
Proof. induction s as [|c s IH]; simpl; [lia|]. destruct (Ascii.eqb c newline); lia. Qed.

Lemma Count_nl_app s t : Count_nl (s +:+ t) = Count_nl s + Count_nl t.
Proof.
  induction s as [|c s IH]; [reflexivity|].
  rewrite sapp_cons. simpl. rewrite IH. lia.
Qed.

Lemma HasSuffix_nl_cons c s :
  s <> EmptyString -> HasSuffix_nl (String c s) = HasSuffix_nl s.
Proof. destruct s; [congruence|reflexivity]. Qed.

Lemma HasSuffix_nl_app s t :
  t <> EmptyString -> HasSuffix_nl (s +:+ t) = HasSuffix_nl t.
Proof.
  intros Ht. induction s as [|c s IH]; [reflexivity|].
  rewrite sapp_cons, HasSuffix_nl_cons; [exact IH|].
  destruct s; [exact Ht|rewrite sapp_cons; discriminate].
Qed.

Lemma sapp_empty_r s : s +:+ "" = s.
Proof. induction s as [|c s IH]; [reflexivity|]. now rewrite sapp_cons, IH. Qed.

Lemma sapp_eq_empty s t : s +:+ t = "" -> s = "" /\ t = "".
Proof. destruct s; [tauto|rewrite sapp_cons; discriminate]. Qed.

End StringFacts.

(** ** Line counting *)

Section LineFacts.
Import GoStrings Attribution.

Lemma countLinesInText_countLinesStr text : countLinesInText text = countLinesStr text.
Proof.
  unfold countLinesInText, countLinesStr.
  destruct (eqs text "") eqn:E; [reflexivity|].
  apply eqs_false in E. destruct text as [|c t]; [congruence|].
  replace (0 <? Z.of_nat (String.length (String c t))) with true.
  - now rewrite andb_true_r.
  - symmetry. apply Z.ltb_lt. simpl String.length. lia.
Qed.

Lemma countLinesStr_empty : countLinesStr "" = 0.
Proof. reflexivity. Qed.

Lemma countLinesStr_nonneg s : 0 <= countLinesStr s.
Proof.
  unfold countLinesStr. pose proof (Count_nl_nonneg s).
  destruct (eqs s ""), (negb (HasSuffix_nl s)); lia.
Qed.

Lemma countLinesInText_nonneg s : 0 <= countLinesInText s.
Proof. rewrite countLinesInText_countLinesStr. apply countLinesStr_nonneg. Qed.

Lemma lined_cons l ls : terminated l -> lined ls -> lined (l :: ls).
Proof. intros Hl Hls. destruct ls; simpl; [now left|now split]. Qed.

Lemma lined_tail l ls : lined (l :: ls) -> lined ls.
Proof. destruct ls; simpl; [trivial|tauto]. Qed.

Lemma lined_app ls old : lined (ls ++ old) -> lined ls /\ lined old.
Proof.
  induction ls as [|l ls IH]; intros H; [now split|].
  change ((l :: ls) ++ old)%list with (l :: (ls ++ old))%list in H.
  destruct (IH (lined_tail _ _ H)) as [Hls Hold]. split; [|exact Hold].
  destruct ls as [|l' ls'].
  - simpl in H |- *. destruct old; tauto.
  - simpl in H |- *. destruct H as [Hl _]. split; [exact Hl|exact Hls].
Qed.

Lemma terminated_newline : terminated (String newline "").
Proof. repeat split; discriminate. Qed.

Lemma terminated_String c l :
  Ascii.eqb c newline = false -> terminated l -> terminated (String c l).
Proof.
  intros Hc (Hne & Hn & Hs). repeat split; [discriminate| |].
  - simpl. rewrite Hc. lia.
  - now rewrite HasSuffix_nl_cons.
Qed.

Lemma unterminated_String c l :
  Ascii.eqb c newline = false -> unterminated l -> unterminated (String c l).
Proof.
  intros Hc (Hne & Hn & Hs). repeat split; [discriminate| |].
  - simpl. rewrite Hc. lia.
  - now rewrite HasSuffix_nl_cons.
Qed.

Lemma unterminated_single c :
  Ascii.eqb c newline = false -> unterminated (String c "").
Proof.
  intros Hc. repeat split; [discriminate| |]; simpl; rewrite Hc; reflexivity.
Qed.

Lemma splitLines_lined s : lined (splitLines s).
Proof.
  induction s as [|c s IH]; simpl; [exact I|].
  destruct (Ascii.eqb c newline) eqn:Hc.
  - apply Ascii.eqb_eq in Hc. subst c.
    apply lined_cons; [apply terminated_newline|exact IH].
  - destruct (splitLines s) as [|l ls]; simpl.
    + right. now apply unterminated_single.
    + destruct ls as [|l' ls'].
      * simpl in IH. destruct IH as [H|H];
          [left; now apply terminated_String|right; now apply unterminated_String].
      * simpl in IH. destruct IH as [H1 H2]. split; [now apply terminated_String|exact H2].
Qed.

Lemma joinLines_splitLines s : joinLines (splitLines s) = s.
Proof.
  induction s as [|c s IH]; simpl; [reflexivity|].
  destruct (Ascii.eqb c newline).
  - simpl. now rewrite sapp_cons, sapp_nil, IH.
  - destruct (splitLines s) as [|l ls]; simpl in *.
    + now rewrite sapp_cons, sapp_nil, IH.
    + now rewrite sapp_cons, IH.
Qed.

(** The text of a run of lines: its newlines and its end tell the
    number of lines. *)
Lemma joinLines_count ls :
  lined ls -> ls <> [] ->
  joinLines ls <> "" /\
  Count_nl (joinLines ls) + (if HasSuffix_nl (joinLines ls) then 0 else 1)
    = Z.of_nat (length ls).
Proof.
  induction ls as [|l ls IH]; intros Hl Hne; [congruence|].
  destruct ls as [|l' ls'].
  - simpl joinLines. rewrite sapp_empty_r. simpl length.
    destruct Hl as [(H1 & H2 & H3)|(H1 & H2 & H3)]; rewrite H2, H3; split; trivial; lia.
  - destruct Hl as [(H1 & H2 & H3) Hrest].
    destruct (IH Hrest ltac:(discriminate)) as [Hj Hc].
    change (joinLines (l :: l' :: ls')) with (l +:+ joinLines (l' :: ls')).
    split.
    + intros E. apply sapp_eq_empty in E. tauto.
    + rewrite Count_nl_app, HasSuffix_nl_app by exact Hj.
      rewrite H2. change (length (l :: l' :: ls')) with (S (length (l' :: ls'))). lia.
Qed.

Lemma countLinesInText_joinLines ls :
  lined ls -> countLinesInText (joinLines ls) = Z.of_nat (length ls).
Proof.
  intros Hl. destruct ls as [|l ls]; [reflexivity|].
  destruct (joinLines_count (l :: ls) Hl ltac:(discriminate)) as [Hne Hc].
  rewrite countLinesInText_countLinesStr. unfold countLinesStr.
  apply eqs_false in Hne. rewrite Hne.
  destruct (HasSuffix_nl (joinLines (l :: ls))); simpl negb; cbv iota; lia.
Qed.

Lemma countLinesStr_splitLines s : countLinesStr s = Z.of_nat (length (splitLines s)).
Proof.
  rewrite <- countLinesInText_countLinesStr.
  rewrite <- (joinLines_splitLines s) at 1.
  apply countLinesInText_joinLines, splitLines_lined.
Qed.

End LineFacts.

(** ** [diffLines] *)

Section DiffFacts.
Import GoStrings Attribution.

Variable dmpLineDiff : string -> string -> list Diff.

Lemma countDiff_nonneg ds : forall u a r,
  0 <= u -> 0 <= a -> 0 <= r ->
  exists u' a' r', fold_left countDiff ds (u, a, r) = (u', a', r')
                   /\ 0 <= u' /\ 0 <= a' /\ 0 <= r'.
Proof.
  induction ds as [|d ds IH]; intros u a r Hu Ha Hr; simpl.
  - exists u, a, r. auto.
  - pose proof (countLinesInText_nonneg (Text d)).
    destruct (DType d); apply IH; lia.
Qed.

(** Whatever the library answers, the three counts are not negative. *)
Lemma diffLines_nonneg a b :
  exists u ad r, diffLines dmpLineDiff a b = (u, ad, r) /\ 0 <= u /\ 0 <= ad /\ 0 <= r.
Proof.
  unfold diffLines.
  pose proof (countLinesStr_nonneg a). pose proof (countLinesStr_nonneg b).
  destruct (eqs a b); [eexists _, _, _; split; [reflexivity|lia]|].
  destruct (eqs a ""); [eexists _, _, _; split; [reflexivity|lia]|].
  destruct (eqs b ""); [eexists _, _, _; split; [reflexivity|lia]|].
  apply countDiff_nonneg; lia.
Qed.

(** The counts of an edit script: the kept and inserted lines are the
    new lines, the kept and deleted lines the old ones. *)
Lemma edit_script_counts old new ds :
  edit_script old new ds -> lined old -> lined new ->
  forall u a r, exists u' a' r',
    fold_left countDiff ds (u, a, r) = (u', a', r')
    /\ u' + a' = u + a + Z.of_nat (length new)
    /\ u' + r' = u + r + Z.of_nat (length old).
Proof.
  induction 1 as [|ls old new ds _ IH|ls old new ds _ IH|ls old new ds _ IH];
    intros Hold Hnew u a r.
  - exists u, a, r. simpl. repeat split; lia.
  - apply lined_app in Hold as [Hls Hold]. apply lined_app in Hnew as [_ Hnew].
    destruct (IH Hold Hnew (u + Z.of_nat (length ls)) a r) as (u' & a' & r' & E & H1 & H2).
    exists u', a', r'. simpl. rewrite countLinesInText_joinLines by exact Hls.
    rewrite E. rewrite !length_app. repeat split; lia.
  - apply lined_app in Hnew as [Hls Hnew].
    destruct (IH Hold Hnew u (a + Z.of_nat (length ls)) r) as (u' & a' & r' & E & H1 & H2).
    exists u', a', r'. simpl. rewrite countLinesInText_joinLines by exact Hls.
    rewrite E. rewrite !length_app. repeat split; lia.
  - apply lined_app in Hold as [Hls Hold].
    destruct (IH Hold Hnew u a (r + Z.of_nat (length ls))) as (u' & a' & r' & E & H1 & H2).
    exists u', a', r'. simpl. rewrite countLinesInText_joinLines by exact Hls.
    rewrite E. rewrite !length_app. repeat split; lia.
Qed.

End DiffFacts.

Section MinimalDiff.
Import GoStrings Attribution AttributionSpec.

Lemma lcsDiff_edit_script la : forall lb, edit_script la lb (lcsDiff la lb).
Proof.
  induction la as [|x la IHa]; intros lb.
  - destruct lb as [|y lb]; [apply es_done|].
    simpl lcsDiff. rewrite <- (app_nil_r (y :: lb)) at 1.
    apply es_insert, es_done.
  - induction lb as [|y lb IHb].
    + simpl lcsDiff. rewrite <- (app_nil_r (x :: la)) at 1.
      apply es_delete, es_done.
    + simpl lcsDiff. destruct (eqs x y) eqn:E.
      * apply eqs_true in E. subst y. apply (es_equal [x]), IHa.
      * match goal with |- context [if ?c then _ else _] => destruct c end.
        -- apply (es_delete [x]), IHa.
        -- apply (es_insert [y]), IHb.
Qed.

(** The minimal diff honours the contract of the library. *)
Lemma lcsLineDiff_line_mode : line_mode_diff lcsLineDiff.
Proof. intros a b. apply lcsDiff_edit_script. Qed.

End MinimalDiff.

(** ** Diff totality and conservation of lines *)

Section DiffClaims.
Import GoStrings Attribution AttributionSpec.

(** Claim C8. For every string [a] and whatever the diff library
    answers, [diffLines a a] is [(linesIn a, 0, 0)], [diffLines "" a] is
    [(0, linesIn a, 0)] and [diffLines a ""] is [(0, 0, linesIn a)],
    where [linesIn] is [countLinesStr]; and [countLinesStr] gives 0 on
    the empty string, 1 on ["x"], 2 on ["a\nb\n"] and 2 on ["a\nb"]. *)
Theorem diffLines_totality (dmpLineDiff : string -> string -> list Diff) (a : string) :
  diffLines dmpLineDiff a a = (linesIn a, 0, 0)
  /\ diffLines dmpLineDiff "" a = (0, linesIn a, 0)
  /\ diffLines dmpLineDiff a "" = (0, 0, linesIn a)
  /\ countLinesStr "" = 0
  /\ countLinesStr text_x = 1
  /\ countLinesStr text_a_b_nl = 2
  /\ countLinesStr text_a_b = 2.
Proof.
  unfold diffLines, linesIn. repeat split; try reflexivity.
  - now rewrite eqs_refl.
  - destruct (eqs "" a) eqn:E; [|reflexivity].
    apply eqs_true in E. subst a. reflexivity.
  - destruct (eqs a "") eqn:E.
    + apply eqs_true in E. subst a. reflexivity.
    + reflexivity.
Qed.

(** Claim C9. For all strings [a] and [b] on which the diff library
    answers with an edit script in line mode, the triple (unchanged,
    added, removed) of [diffLines a b] conserves the line counts:
    unchanged + added is [countLinesStr b] and unchanged + removed is
    [countLinesStr a]. *)
Theorem diffLines_conserves_lines (dmpLineDiff : string -> string -> list Diff)
    (a b : string) :
  edit_script (splitLines a) (splitLines b) (dmpLineDiff a b) ->
  forall unchanged added removed,
    diffLines dmpLineDiff a b = (unchanged, added, removed) ->
    unchanged + added = countLinesStr b /\ unchanged + removed = countLinesStr a.
Proof.
  intros Hes u ad r. unfold diffLines.
  destruct (eqs a b) eqn:Eab.
  { apply eqs_true in Eab. subst b. intros [= <- <- <-]. lia. }
  destruct (eqs a "") eqn:Ea.
  { apply eqs_true in Ea. subst a. intros [= <- <- <-]. rewrite countLinesStr_empty. lia. }
  destruct (eqs b "") eqn:Eb.
  { apply eqs_true in Eb. subst b. intros [= <- <- <-]. rewrite countLinesStr_empty. lia. }
  intros E.
  destruct (edit_script_counts _ _ _ Hes (splitLines_lined a) (splitLines_lined b) 0 0 0)
    as (u' & a' & r' & E' & H1 & H2).
  rewrite E in E'. injection E' as <- <- <-.
  rewrite !countLinesStr_splitLines. lia.
Qed.

Lemma diffLines_conserves_lines_witness :
  diffLines lcsLineDiff testThreeLines testMixedChanges = (2, 2, 1)
  /\ 2 + 2 = countLinesStr testMixedChanges
  /\ 2 + 1 = countLinesStr testThreeLines.
Proof.
  split; [vm_compute; reflexivity|].
  apply (diffLines_conserves_lines lcsLineDiff testThreeLines testMixedChanges
           (lcsLineDiff_line_mode _ _) 2 2 1).
  vm_compute. reflexivity.
Defined.

End DiffClaims.

(** ** The unit tests of the attribution package *)

Section UnitTests.
Import GoStrings Attribution AttributionSpec.

(** [TestCountLinesStr]. *)
Example TestCountLinesStr :
  countLinesStr "" = 0
  /\ countLinesStr "hello" = 1
  /\ countLinesStr (lines ["hello"]) = 1
  /\ countLinesStr (lines ["hello"; "world"]) = 2
  /\ countLinesStr ("hello" +:+ nl +:+ "world") = 2
  /\ countLinesStr (lines ["a"; "b"; "c"]) = 3.
Proof. vm_compute. repeat split. Qed.

(** [TestDiffLines_NoChanges], [TestDiffLines_AllAdded],
    [TestDiffLines_AllRemoved], [TestDiffLines_MixedChanges] and
    [TestDiffLines_WithoutTrailingNewline], with the minimal diff. *)
Example TestDiffLines :
  diffLines lcsLineDiff testThreeLines testThreeLines = (3, 0, 0)
  /\ diffLines lcsLineDiff "" testThreeLines = (0, 3, 0)
  /\ diffLines lcsLineDiff testThreeLines "" = (0, 0, 3)
  /\ diffLines lcsLineDiff testThreeLines testMixedChanges = (2, 2, 1)
  /\ diffLines lcsLineDiff text_a_b text_a_b = (2, 0, 0).
Proof. vm_compute. repeat split. Qed.

(** The diffs of [TestCalculateAttribution_PercentageCalculation] and of
    [TestCalculateAttribution_ModifiedEstimation]. *)
Example TestCalculateAttribution_diffs :
  diffLines lcsLineDiff testEightLines testTenLines = (8, 2, 0)
  /\ countLinesStr testTenLines = 10
  /\ diffLines lcsLineDiff testOriginal testModified = (1, 3, 2).
Proof. vm_compute. repeat split. Qed.

(** [TestCalculateAttribution_NilTrees] and
    [TestCalculateAttribution_EmptyFilesTouched]. *)
Example TestCalculateAttribution_NilTrees :
  (TotalCommitted <$> CalculateAttribution lcsLineDiff 0 None None None ["file.txt"]) = Some 0
  /\ CalculateAttribution lcsLineDiff 0 None None None [] = None.
Proof. vm_compute. repeat split. Qed.

(** The sample commit: of the 3 lines that the commit adds, the agent
    wrote 2 and the user 1. *)
Example sample_attribution :
  CalculateAttribution lcsLineDiff 0 sampleBaseTree sampleCheckpointTree sampleCommittedTree
    [sampleFile]
  = Some (mkInitialAttribution 0 2 1 0 0 3 (S754_finite false 4691249611844266 (-46))).
Proof. vm_compute. reflexivity. Qed.

End UnitTests.

(** ** Binary64 arithmetic

    What the rounding of [SpecFloat] does to a quotient [X / D] given by
    a mantissa and a location, and from there the conversion of an
    integer, the division of two positive numbers and the multiplication
    by 100. *)

Section Binary64.
Import Float64.

Lemma fexp_eq e : fexp prec emax e = Z.max (e - 53) (-1074).
Proof. reflexivity. Qed.

Lemma digits2_pos_bounds p :
  2 ^ (Zpos (digits2_pos p) - 1) <= Zpos p < 2 ^ Zpos (digits2_pos p).
Proof.
  induction p as [p IH|p IH|]; cbn [digits2_pos].
  - rewrite Pos2Z.inj_succ, Z.pow_succ_r by lia.
    replace (Z.succ (Zpos (digits2_pos p)) - 1) with (Z.succ (Zpos (digits2_pos p) - 1)) by lia.
    rewrite Z.pow_succ_r by lia. lia.
  - rewrite Pos2Z.inj_succ, Z.pow_succ_r by lia.
    replace (Z.succ (Zpos (digits2_pos p)) - 1) with (Z.succ (Zpos (digits2_pos p) - 1)) by lia.
    rewrite Z.pow_succ_r by lia. lia.
  - change (2 ^ (1 - 1)) with 1. change (2 ^ 1) with 2. lia.
Qed.

Lemma Zdigits2_bounds m :
  0 <= m ->
  0 <= Zdigits2 m /\ m < 2 ^ Zdigits2 m /\ (0 < m -> 2 ^ (Zdigits2 m - 1) <= m).
Proof.
  intros Hm. destruct m as [|p|p]; cbn [Zdigits2]; try lia.
  pose proof (digits2_pos_bounds p). lia.
Qed.

Lemma Zdigits2_le m k : 0 <= m -> 0 <= k -> m < 2 ^ k -> Zdigits2 m <= k.
Proof.
  intros Hm Hk Hlt.
  destruct (Zdigits2_bounds m Hm) as (Hd & _ & Hlo).
  destruct (Z.eq_dec m 0) as [->|]; [cbn; lia|].
  destruct (Z_le_gt_dec (Zdigits2 m) k) as [|Hgt]; [assumption|exfalso].
  assert (2 ^ k <= 2 ^ (Zdigits2 m - 1)) by (apply Z.pow_le_mono_r; lia).
  lia.
Qed.

Lemma Zdigits2_ge m k : 0 <= k -> 2 ^ k <= m -> k + 1 <= Zdigits2 m.
Proof.
  intros Hk Hle.
  assert (0 < 2 ^ k) by (apply Z.pow_pos_nonneg; lia).
  destruct (Zdigits2_bounds m ltac:(lia)) as (Hd & Hhi & _).
  destruct (Z_le_gt_dec (k + 1) (Zdigits2 m)) as [|Hgt]; [assumption|exfalso].
  assert (2 ^ Zdigits2 m <= 2 ^ k) by (apply Z.pow_le_mono_r; lia).
  lia.
Qed.

Lemma Zdigits2_mono a b : 0 <= a -> a <= b -> Zdigits2 a <= Zdigits2 b.
Proof.
  intros Ha Hab.
  destruct (Zdigits2_bounds b ltac:(lia)) as (Hd & Hhi & _).
  apply Zdigits2_le; lia.
Qed.

Lemma shr_1_spec X D r :
  0 <= shr_m r -> 0 < D ->
  inbetween X D (shr_m r) (loc_of_shr_record r) ->
  0 <= shr_m (shr_1 r) /\
  shr_m (shr_1 r) = shr_m r / 2 /\
  inbetween X (2 * D) (shr_m (shr_1 r)) (loc_of_shr_record (shr_1 r)).
Proof.
  destruct r as [m rb sb]. cbn [shr_m]. intros Hm HD Hin.
  destruct m as [|p|p]; [| |lia].
  - destruct rb, sb; cbn [inbetween shr_1 shr_m loc_of_shr_record orb] in *; change (0 / 2) with 0; lia.
  - destruct p as [p|p|]; destruct rb, sb;
      cbn [inbetween shr_1 shr_m loc_of_shr_record orb] in *;
      (split_and!;
       [lia
       |first [apply Z.div_unique with 1; lia
              |apply Z.div_unique with 0; lia]
       |try lia; try nia..]).
Qed.

Lemma iter_pos_shr_1_spec X p : forall D r,
  0 <= shr_m r -> 0 < D ->
  inbetween X D (shr_m r) (loc_of_shr_record r) ->
  0 <= shr_m (SpecFloat.iter_pos shr_1 p r) /\
  shr_m (SpecFloat.iter_pos shr_1 p r) = shr_m r / 2 ^ Zpos p /\
  inbetween X (D * 2 ^ Zpos p) (shr_m (SpecFloat.iter_pos shr_1 p r))
    (loc_of_shr_record (SpecFloat.iter_pos shr_1 p r)).
Proof.
  induction p as [p IH|p IH|]; intros D r Hm HD Hin; cbn [SpecFloat.iter_pos].
  - destruct (shr_1_spec X D r Hm HD Hin) as (H1 & E1 & I1).
    destruct (IH (2 * D) _ H1 ltac:(lia) I1) as (H2 & E2 & I2).
    assert (0 < 2 ^ Zpos p) by (apply Z.pow_pos_nonneg; lia).
    destruct (IH (2 * D * 2 ^ Zpos p) _ H2 ltac:(nia) I2) as (H3 & E3 & I3).
    change (Z.pos p~1) with (2 * Z.pos p + 1).
    replace (2 ^ (2 * Zpos p + 1)) with (2 * 2 ^ Zpos p * 2 ^ Zpos p)
      by (replace (2 * Zpos p + 1) with (Zpos p + Zpos p + 1) by lia;
          rewrite !Z.pow_add_r by lia; change (2 ^ 1) with 2; lia).
    split_and!; [assumption| |].
    + rewrite E3, E2, E1, !Z.div_div by lia. f_equal. lia.
    + replace (D * (2 * 2 ^ Zpos p * 2 ^ Zpos p)) with (2 * D * 2 ^ Zpos p * 2 ^ Zpos p) by lia.
      assumption.
  - destruct (IH D _ Hm HD Hin) as (H2 & E2 & I2).
    assert (0 < 2 ^ Zpos p) by (apply Z.pow_pos_nonneg; lia).
    destruct (IH (D * 2 ^ Zpos p) _ H2 ltac:(nia) I2) as (H3 & E3 & I3).
    change (Z.pos p~0) with (2 * Z.pos p).
    replace (2 ^ (2 * Zpos p)) with (2 ^ Zpos p * 2 ^ Zpos p)
      by (replace (2 * Zpos p) with (Zpos p + Zpos p) by lia;
          rewrite Z.pow_add_r by lia; lia).
    split_and!; [assumption| |].
    + rewrite E3, E2, !Z.div_div by lia. reflexivity.
    + replace (D * (2 ^ Zpos p * 2 ^ Zpos p)) with (D * 2 ^ Zpos p * 2 ^ Zpos p) by lia.
      assumption.
  - destruct (shr_1_spec X D r Hm HD Hin) as (H1 & E1 & I1).
    change (2 ^ 1) with 2. rewrite (Z.mul_comm D 2). auto.
Qed.

Lemma loc_of_shr_record_of_loc m l :
  loc_of_shr_record (shr_record_of_loc m l) = l /\ shr_m (shr_record_of_loc m l) = m.
Proof. destruct l as [|[]]; auto. Qed.

Lemma shr_fexp_spec X D mx ex lx :
  0 <= mx -> 0 < D -> inbetween X D mx lx ->
  let e1 := Z.max ex (fexp prec emax (Zdigits2 mx + ex)) in
  exists r,
    shr_fexp prec emax mx ex lx = (r, e1) /\
    0 <= shr_m r < 2 ^ 53 /\
    shr_m r = mx / 2 ^ (e1 - ex) /\
    inbetween X (D * 2 ^ (e1 - ex)) (shr_m r) (loc_of_shr_record r) /\
    -1074 <= e1.
Proof.
  intros Hm HD Hin e1. subst e1.
  destruct (Zdigits2_bounds mx Hm) as (Hd & Hhi & Hlo).
  destruct (loc_of_shr_record_of_loc mx lx) as (El & Em).
  unfold shr_fexp. rewrite fexp_eq.
  set (d := Zdigits2 mx) in *.
  destruct (Z.max (d + ex - 53) (-1074) - ex) as [|p|p] eqn:En; cbn [shr].
  - exists (shr_record_of_loc mx lx).
    replace (Z.max ex (Z.max (d + ex - 53) (-1074))) with ex by lia.
    rewrite Z.sub_diag, El, Em. change (2 ^ 0) with 1. rewrite Z.div_1_r, Z.mul_1_r.
    split_and!; try lia; auto.
    assert (2 ^ d <= 2 ^ 53) by (apply Z.pow_le_mono_r; lia). lia.
  - rewrite <- El in Hin. rewrite <- Em in Hin at 1.
    destruct (iter_pos_shr_1_spec X p D (shr_record_of_loc mx lx)) as (H1 & E1 & I1);
      [rewrite Em; lia|lia|assumption|].
    exists (SpecFloat.iter_pos shr_1 p (shr_record_of_loc mx lx)).
    replace (Z.max ex (Z.max (d + ex - 53) (-1074))) with (ex + Zpos p) by lia.
    replace (ex + Zpos p - ex) with (Zpos p) by lia.
    rewrite Em in E1.
    split_and!; try lia; auto.
    rewrite E1. apply Z.div_lt_upper_bound; [apply Z.pow_pos_nonneg; lia|].
    rewrite <- Z.pow_add_r by lia.
    assert (2 ^ d <= 2 ^ (Zpos p + 53)) by (apply Z.pow_le_mono_r; lia). lia.
  - exists (shr_record_of_loc mx lx).
    replace (Z.max ex (Z.max (d + ex - 53) (-1074))) with ex by lia.
    rewrite Z.sub_diag, El, Em. change (2 ^ 0) with 1. rewrite Z.div_1_r, Z.mul_1_r.
    split_and!; try lia; auto.
    assert (2 ^ d <= 2 ^ 53) by (apply Z.pow_le_mono_r; lia). lia.
Qed.


Lemma inbetween_bracket X D m l :
  0 < D -> inbetween X D m l -> m * D <= X < (m + 1) * D.
Proof. destruct l as [|[]]; cbn [inbetween]; nia. Qed.

Lemma inbetween_exact m D m' l :
  0 < D -> inbetween (m * D) D m' l -> m' = m /\ l = loc_Exact.
Proof.
  intros HD Hin. pose proof (inbetween_bracket _ _ _ _ HD Hin) as Hb.
  assert (m' = m) as -> by nia.
  split; [reflexivity|]. destruct l as [|[]]; cbn [inbetween] in Hin; [reflexivity|nia..].
Qed.

Lemma round_nearest_even_spec X D m l :
  0 < D -> inbetween X D m l ->
  (round_nearest_even m l = m /\ 2 * X <= (2 * m + 1) * D) \/
  (round_nearest_even m l = m + 1 /\ (2 * m + 1) * D <= 2 * X).
Proof.
  intros HD Hin.
  destruct l as [|[]]; cbn [inbetween round_nearest_even] in *;
    try destruct (Z.even m); try (left; split; [reflexivity|nia]);
    (right; split; [reflexivity|nia]).
Qed.

Lemma round_nearest_even_mono X X' D m l l' :
  0 < D -> inbetween X D m l -> inbetween X' D m l' -> X <= X' ->
  round_nearest_even m l <= round_nearest_even m l'.
Proof.
  intros HD Hin Hin' Hle.
  destruct l as [|[]], l' as [|[]]; cbn [inbetween round_nearest_even] in *;
    try destruct (Z.even m); try lia; nia.
Qed.

Lemma shr_fexp_rounded mr e1 :
  0 <= mr <= 2 ^ 53 -> -1074 <= e1 ->
  shr_fexp prec emax mr e1 loc_Exact =
    if mr =? 2 ^ 53
    then ({| shr_m := 2 ^ 52; shr_r := false; shr_s := false |}, e1 + 1)
    else ({| shr_m := mr; shr_r := false; shr_s := false |}, e1).
Proof.
  intros Hmr He. unfold shr_fexp. rewrite fexp_eq.
  destruct (Z.eqb_spec mr (2 ^ 53)) as [->|Hne].
  - change (Zdigits2 (2 ^ 53)) with 54.
    replace (Z.max (54 + e1 - 53) (-1074) - e1) with 1 by lia.
    reflexivity.
  - assert (Zdigits2 mr <= 53) by (apply Zdigits2_le; lia).
    cbn [shr_record_of_loc].
    destruct (Z.max (Zdigits2 mr + e1 - 53) (-1074) - e1) as [|p|p] eqn:En;
      [reflexivity|lia|reflexivity].
Qed.

Lemma binary_round_aux_spec sx X D mx ex lx :
  0 <= mx -> 0 < D -> inbetween X D mx lx ->
  let e1 := Z.max ex (fexp prec emax (Zdigits2 mx + ex)) in
  exists m1 l1,
    0 <= m1 < 2 ^ 53 /\ m1 = mx / 2 ^ (e1 - ex) /\ -1074 <= e1 /\
    inbetween X (D * 2 ^ (e1 - ex)) m1 l1 /\
    binary_round_aux prec emax sx mx ex lx =
      let mr := round_nearest_even m1 l1 in
      if mr =? 0 then S754_zero sx
      else if mr =? 2 ^ 53
      then (if e1 + 1 <=? 971 then S754_finite sx (Z.to_pos (2 ^ 52)) (e1 + 1)
            else S754_infinity sx)
      else (if e1 <=? 971 then S754_finite sx (Z.to_pos mr) e1
            else S754_infinity sx).
Proof.
  intros Hm HD Hin e1.
  destruct (shr_fexp_spec X D mx ex lx Hm HD Hin) as (r & Hr & Hb & Em & I1 & He).
  fold e1 in Hr, Em, I1, He.
  exists (shr_m r), (loc_of_shr_record r). split_and!; try lia; auto.
  assert (0 < D * 2 ^ (e1 - ex)) as HD1.
  { apply Z.mul_pos_pos; [lia|apply Z.pow_pos_nonneg; lia]. }
  destruct (round_nearest_even_spec _ _ _ _ HD1 I1) as [[Er _]|[Er _]].
  all: unfold binary_round_aux; rewrite Hr, shr_fexp_rounded by lia; cbv zeta.
  all: destruct (Z.eqb_spec (round_nearest_even (shr_m r) (loc_of_shr_record r)) (2 ^ 53)) as [E53|N53].
  all: try (rewrite E53; reflexivity).
  all: cbn [shr_m]; destruct (round_nearest_even (shr_m r) (loc_of_shr_record r)) as [|p|p];
    [reflexivity|reflexivity|lia].
Qed.


Lemma Qpow2_pos e : (0 < 2 ^ e)%Q.
Proof. apply Qpower_0_lt. reflexivity. Qed.

Lemma Qpow2_add a b : (2 ^ (a + b) == 2 ^ a * 2 ^ b)%Q.
Proof. apply Qpower_plus. discriminate. Qed.

Lemma Qpow2_Z k : 0 <= k -> (inject_Z (2 ^ k) == 2 ^ k)%Q.
Proof. intros Hk. apply (Zpower_Qpower 2 k Hk). Qed.

Lemma scaled_value m e c :
  c <= e -> (inject_Z m * 2 ^ e == inject_Z (m * 2 ^ (e - c)) * 2 ^ c)%Q.
Proof.
  intros Hc. rewrite inject_Z_mult, Qpow2_Z by lia.
  rewrite <- Qmult_assoc, <- Qpow2_add.
  replace (e - c + c) with e by lia. reflexivity.
Qed.

Lemma Qpow_le_Z m1 e1 m2 e2 c :
  c <= e1 -> c <= e2 ->
  (inject_Z m1 * 2 ^ e1 <= inject_Z m2 * 2 ^ e2)%Q <->
  m1 * 2 ^ (e1 - c) <= m2 * 2 ^ (e2 - c).
Proof.
  intros H1 H2.
  rewrite (scaled_value m1 e1 c H1), (scaled_value m2 e2 c H2).
  rewrite Qmult_le_r by apply Qpow2_pos.
  rewrite <- Zle_Qle. reflexivity.
Qed.

Lemma binary_round_aux_value X D mx ex lx :
  0 <= mx -> 0 < D -> inbetween X D mx lx ->
  let e1 := Z.max ex (fexp prec emax (Zdigits2 mx + ex)) in
  e1 <= 970 ->
  exists m1 l1,
    0 <= m1 < 2 ^ 53 /\ m1 = mx / 2 ^ (e1 - ex) /\ -1074 <= e1 /\
    inbetween X (D * 2 ^ (e1 - ex)) m1 l1 /\
    nonneg_finite (binary_round_aux prec emax false mx ex lx) /\
    (value (binary_round_aux prec emax false mx ex lx) ==
       inject_Z (round_nearest_even m1 l1) * 2 ^ e1)%Q.
Proof.
  intros Hm HD Hin e1 He1.
  destruct (binary_round_aux_spec false X D mx ex lx Hm HD Hin)
    as (m1 & l1 & Hb & Em & He & I1 & Hres).
  fold e1 in Hb, Em, He, I1, Hres.
  exists m1, l1. split_and!; try lia; auto.
  all: rewrite Hres; cbv zeta.
  all: assert (0 < D * 2 ^ (e1 - ex)) as HD1
    by (apply Z.mul_pos_pos; [lia|apply Z.pow_pos_nonneg; lia]).
  all: assert (0 <= round_nearest_even m1 l1 <= 2 ^ 53) as Hr
    by (destruct (round_nearest_even_spec _ _ _ _ HD1 I1) as [[-> _]|[-> _]]; lia).
  all: destruct (Z.eqb_spec (round_nearest_even m1 l1) 0) as [E0|N0].
  all: try (rewrite ?E0; first [left; reflexivity | cbn [value]; rewrite Qmult_0_l; reflexivity]).
  all: destruct (Z.eqb_spec (round_nearest_even m1 l1) (2 ^ 53)) as [E53|N53].
  all: destruct (Z.leb_spec (e1 + 1) 971); try lia.
  all: destruct (Z.leb_spec e1 971); try lia.
  - right. eauto.
  - right. eauto.
  - rewrite E53. cbn [value].
    rewrite (scaled_value (Z.pos (Z.to_pos (2 ^ 52))) (e1 + 1) e1) by lia.
    replace (e1 + 1 - e1) with 1 by lia. reflexivity.
  - cbn [value]. rewrite Z2Pos.id by lia. reflexivity.
Qed.


Lemma round_nearest_even_error X D m l :
  0 < D -> inbetween X D m l ->
  - D <= 2 * (round_nearest_even m l * D - X) <= D.
Proof.
  intros HD Hin. pose proof (inbetween_bracket _ _ _ _ HD Hin).
  destruct (round_nearest_even_spec _ _ _ _ HD Hin) as [[-> Hh]|[-> Hh]]; nia.
Qed.

Lemma Qpow2_le a b : a <= b -> (2 ^ a <= 2 ^ b)%Q.
Proof.
  intros Hab.
  assert (H : (inject_Z 1 * 2 ^ a <= inject_Z 1 * 2 ^ b)%Q).
  { apply (Qpow_le_Z _ _ _ _ a); [lia|lia|].
    rewrite Z.sub_diag. change (2 ^ 0) with 1.
    assert (0 < 2 ^ (b - a)) by (apply Z.pow_pos_nonneg; lia). lia. }
  rewrite !Qmult_1_l in H. exact H.
Qed.

Lemma rounded_error X D ex e1 m1 l1 (V : Q) :
  0 < D -> ex <= e1 ->
  inbetween X (D * 2 ^ (e1 - ex)) m1 l1 ->
  (V == inject_Z (round_nearest_even m1 l1) * 2 ^ e1)%Q ->
  (- (inject_Z D * 2 ^ e1) <= 2 * (V * inject_Z D - inject_Z X * 2 ^ ex)
   /\ 2 * (V * inject_Z D - inject_Z X * 2 ^ ex) <= inject_Z D * 2 ^ e1)%Q.
Proof.
  intros HD He Hin HV.
  assert (0 < D * 2 ^ (e1 - ex)) as HD1
    by (apply Z.mul_pos_pos; [lia|apply Z.pow_pos_nonneg; lia]).
  destruct (round_nearest_even_error _ _ _ _ HD1 Hin) as [Hlo Hhi].
  set (mr := round_nearest_even m1 l1) in *.
  set (K := 2 ^ (e1 - ex)) in *.
  assert (A1 : 2 * X <= 2 * (mr * (D * K)) + D * K) by lia.
  assert (A2 : 2 * (mr * (D * K)) <= 2 * X + D * K) by lia.
  rewrite Zle_Qle in A1, A2.
  rewrite !inject_Z_plus, !inject_Z_mult in A1, A2.
  assert (ER : (inject_Z K * 2 ^ ex == 2 ^ e1)%Q).
  { unfold K. rewrite Qpow2_Z by lia. rewrite <- Qpow2_add.
    replace (e1 - ex + ex) with e1 by lia. reflexivity. }
  pose proof (Qpow2_pos ex) as HP.
  rewrite HV, <- ER.
  set (R := inject_Z K) in *. set (P := (2 ^ ex)%Q) in *.
  set (d := inject_Z D) in *. set (x := inject_Z X) in *. set (r := inject_Z mr) in *.
  change (inject_Z 2) with 2%Q in *.
  split; nra.
Qed.

Lemma Pos_iter_xO p k : Zpos (Pos.iter xO p k) = Zpos p * 2 ^ Zpos k.
Proof.
  induction k as [|k IH] using Pos.peano_ind.
  - cbn [Pos.iter]. change (2 ^ 1) with 2. lia.
  - rewrite Pos.iter_succ, Pos2Z.inj_succ, Z.pow_succ_r by lia.
    change (Z.pos (Pos.iter xO p k)~0) with (2 * Z.pos (Pos.iter xO p k)). lia.
Qed.

Lemma shl_align_spec p ex f :
  exists mz, shl_align p ex f = (mz, Z.min ex f) /\
             Zpos mz = Zpos p * 2 ^ (ex - Z.min ex f).
Proof.
  unfold shl_align. destruct (f - ex) as [|k|k] eqn:E.
  - exists p. replace (Z.min ex f) with ex by lia.
    rewrite Z.sub_diag. change (2 ^ 0) with 1. split; [reflexivity|lia].
  - exists p. replace (Z.min ex f) with ex by lia.
    rewrite Z.sub_diag. change (2 ^ 0) with 1. split; [reflexivity|lia].
  - exists (Pos.iter xO p k). replace (Z.min ex f) with f by lia.
    replace (ex - f) with (Zpos k) by lia.
    split; [reflexivity|apply Pos_iter_xO].
Qed.

Lemma Zdigits2_unique m d : 0 < d -> 2 ^ (d - 1) <= m < 2 ^ d -> Zdigits2 m = d.
Proof.
  intros Hd [Hlo Hhi].
  assert (0 < 2 ^ (d - 1)) by (apply Z.pow_pos_nonneg; lia).
  pose proof (Zdigits2_le m d ltac:(lia) ltac:(lia) Hhi).
  pose proof (Zdigits2_ge m (d - 1) ltac:(lia) Hlo). lia.
Qed.

Lemma Zdigits2_shift m k :
  0 < m -> 0 <= k -> Zdigits2 (m * 2 ^ k) = Zdigits2 m + k.
Proof.
  intros Hm Hk.
  destruct (Zdigits2_bounds m ltac:(lia)) as (Hd & Hhi & Hlo).
  specialize (Hlo Hm).
  assert (0 < Zdigits2 m).
  { destruct (Z.eq_dec (Zdigits2 m) 0) as [E|]; [|lia].
    rewrite E in Hhi. change (2 ^ 0) with 1 in Hhi. lia. }
  assert (0 < 2 ^ k) by (apply Z.pow_pos_nonneg; lia).
  apply Zdigits2_unique; [lia|].
  replace (Zdigits2 m + k - 1) with (Zdigits2 m - 1 + k) by lia.
  rewrite !Z.pow_add_r by lia. nia.
Qed.

Lemma value_finite_pos m e : (0 < value (S754_finite false m e))%Q.
Proof.
  cbn [value]. apply Qmult_lt_0_compat; [|apply Qpow2_pos].
  change (inject_Z 0 < inject_Z (Z.pos m))%Q. rewrite <- Zlt_Qlt. lia.
Qed.

Lemma of_int_round t :
  0 < t ->
  let d := Zdigits2 t in
  let ez := Z.min 0 (d - 53) in
  exists mz,
    of_int t = binary_round_aux prec emax false (Zpos mz) ez loc_Exact /\
    Zpos mz = t * 2 ^ (- ez) /\
    Z.max ez (fexp prec emax (Zdigits2 (Zpos mz) + ez)) = d - 53 /\
    2 ^ 52 <= Zpos mz / 2 ^ (d - 53 - ez).
Proof.
  intros Ht d ez.
  destruct t as [|p|p]; try lia.
  destruct (Zdigits2_bounds (Zpos p) ltac:(lia)) as (_ & Hhi & Hlo).
  specialize (Hlo Ht). fold d in Hhi, Hlo.
  assert (0 < d) by (subst d; cbn; lia).
  unfold of_int, binary_normalize, binary_round.
  rewrite Z.add_0_r, fexp_eq.
  change (Z.pos (digits2_pos p)) with d.
  replace (Z.max (d - 53) (-1074)) with (d - 53) by lia.
  destruct (shl_align_spec p 0 (d - 53)) as (mz & -> & Emz).
  fold ez in Emz |- *. rewrite Z.sub_0_l in Emz.
  assert (0 <= - ez) by lia.
  assert (0 < 2 ^ (- ez)) by (apply Z.pow_pos_nonneg; lia).
  assert (Zdigits2 (Zpos mz) = d - ez) as Edz.
  { rewrite Emz, Zdigits2_shift by lia. fold d. lia. }
  exists mz. split_and!; [reflexivity|assumption|rewrite Edz, fexp_eq; lia|].
  rewrite Emz. apply Z.div_le_lower_bound; [apply Z.pow_pos_nonneg; lia|].
  assert (2 ^ (d - 53 - ez) * 2 ^ 52 = 2 ^ (d - 1) * 2 ^ (- ez)) as ->.
  { rewrite <- !Z.pow_add_r by lia. f_equal. lia. }
  nia.
Qed.

Lemma of_int_spec t :
  0 < t -> Zdigits2 t <= 1023 ->
  let d := Zdigits2 t in
  let ez := Z.min 0 (d - 53) in
  let e1 := d - 53 in
  exists m1 l1,
    2 ^ 52 <= m1 < 2 ^ 53 /\
    m1 = t * 2 ^ (- ez) / 2 ^ (e1 - ez) /\
    inbetween (t * 2 ^ (- ez)) (2 ^ (e1 - ez)) m1 l1 /\
    nonneg_finite (of_int t) /\
    (value (of_int t) == inject_Z (round_nearest_even m1 l1) * 2 ^ e1)%Q.
Proof.
  intros Ht Hd d ez e1.
  destruct (of_int_round t Ht) as (mz & -> & Emz & Ee1 & Hlo).
  fold d ez in Emz, Ee1, Hlo |- *.
  destruct (binary_round_aux_value (Zpos mz) 1 (Zpos mz) ez loc_Exact)
    as (m1 & l1 & Hb & Em & He & I1 & Hnn & Hv);
    [lia|lia|cbn [inbetween]; lia|rewrite Ee1; lia|].
  rewrite Ee1 in Em, I1, Hv. rewrite Z.mul_1_l in I1. rewrite Emz in Em, I1, Hlo.
  exists m1, l1. subst e1. split_and!; try lia; auto.
Qed.

Lemma of_int_positive t :
  0 < t ->
  (exists m e, of_int t = S754_finite false m e) \/ of_int t = S754_infinity false.
Proof.
  intros Ht.
  destruct (of_int_round t Ht) as (mz & -> & Emz & Ee1 & Hlo).
  destruct (binary_round_aux_spec false (Zpos mz) 1 (Zpos mz)
              (Z.min 0 (Zdigits2 t - 53)) loc_Exact)
    as (m1 & l1 & Hb & Em & He & I1 & ->); [lia|lia|cbn [inbetween]; lia|].
  rewrite Ee1 in Em, I1 |- *. rewrite <- Em in Hlo. cbv zeta.
  assert (0 < 1 * 2 ^ (Zdigits2 t - 53 - Z.min 0 (Zdigits2 t - 53))) as HD1
    by (rewrite Z.mul_1_l; apply Z.pow_pos_nonneg; lia).
  assert (2 ^ 52 <= round_nearest_even m1 l1) as Hr
    by (destruct (round_nearest_even_spec _ _ _ _ HD1 I1) as [[-> _]|[-> _]]; lia).
  destruct (Z.eqb_spec (round_nearest_even m1 l1) 0); [lia|].
  destruct (round_nearest_even m1 l1 =? 2 ^ 53);
    [destruct (Zdigits2 t - 53 + 1 <=? 971)|destruct (Zdigits2 t - 53 <=? 971)];
    eauto.
Qed.

Lemma of_int_finite t :
  0 < t < 2 ^ 63 ->
  exists m e, of_int t = S754_finite false m e /\
              (0 < value (S754_finite false m e))%Q.
Proof.
  intros Ht.
  assert (Zdigits2 t <= 63) as Hd by (apply Zdigits2_le; lia).
  destruct (of_int_positive t ltac:(lia)) as [(m & e & E)|E].
  - exists m, e. split; [exact E|apply value_finite_pos].
  - destruct (of_int_spec t ltac:(lia) ltac:(lia)) as (_ & _ & _ & _ & _ & Hnn & _).
    rewrite E in Hnn. destruct Hnn as [?|(? & ? & ?)]; discriminate.
Qed.

Lemma of_int_mono a t :
  0 < a -> a <= t -> Zdigits2 t <= 1023 ->
  (value (of_int a) <= value (of_int t))%Q.
Proof.
  intros Ha Hat Hdt.
  pose proof (Zdigits2_mono a t ltac:(lia) Hat) as Hd.
  destruct (of_int_spec a Ha ltac:(lia)) as (ma & la & Hba & Ema & Ia & _ & ->).
  destruct (of_int_spec t ltac:(lia) Hdt) as (mt & lt & Hbt & Emt & It & _ & ->).
  assert (0 < Zdigits2 a).
  { pose proof (Zdigits2_ge a 0 ltac:(lia) ltac:(change (2 ^ 0) with 1; lia)). lia. }
  set (da := Zdigits2 a) in *. set (dt := Zdigits2 t) in *.
  assert (0 < 2 ^ (da - 53 - Z.min 0 (da - 53))) as HDa by (apply Z.pow_pos_nonneg; lia).
  assert (0 < 2 ^ (dt - 53 - Z.min 0 (dt - 53))) as HDt by (apply Z.pow_pos_nonneg; lia).
  assert (0 <= round_nearest_even ma la <= 2 ^ 53) as Hra
    by (destruct (round_nearest_even_spec _ _ _ _ HDa Ia) as [[-> _]|[-> _]]; lia).
  assert (2 ^ 52 <= round_nearest_even mt lt) as Hrt
    by (destruct (round_nearest_even_spec _ _ _ _ HDt It) as [[-> _]|[-> _]]; lia).
  destruct (Z.eq_dec da dt) as [E|N].
  - rewrite E in *. apply Qmult_le_r; [apply Qpow2_pos|]. rewrite <- Zle_Qle.
    assert (0 < 2 ^ (- Z.min 0 (dt - 53))) by (apply Z.pow_pos_nonneg; lia).
    assert (ma <= mt) as Hm.
    { rewrite Ema, Emt. apply Z.div_le_mono; [assumption|nia]. }
    destruct (Z.eq_dec ma mt) as [Emm|Nmm].
    + rewrite Emm in *.
      apply (round_nearest_even_mono _ _ _ _ _ _ HDt Ia It). nia.
    + destruct (round_nearest_even_spec _ _ _ _ HDa Ia) as [[-> _]|[-> _]];
      destruct (round_nearest_even_spec _ _ _ _ HDt It) as [[-> _]|[-> _]]; lia.
  - apply (Qpow_le_Z _ _ _ _ (da - 53)); [lia|lia|].
    rewrite Z.sub_diag. change (2 ^ 0) with 1.
    assert (2 ^ 1 <= 2 ^ (dt - 53 - (da - 53))) by (apply Z.pow_le_mono_r; lia).
    change (2 ^ 1) with 2 in *. nia.
Qed.


Lemma new_location_spec X D :
  0 <= X -> 0 < D -> inbetween X D (X / D) (new_location D (X mod D)).
Proof.
  intros HX HD.
  pose proof (Z.div_mod X D ltac:(lia)) as Hdm.
  pose proof (Z.mod_pos_bound X D HD) as Hr.
  set (q := X / D) in *. set (r := X mod D) in *.
  unfold new_location, new_location_even, new_location_odd.
  destruct (Z.even D) eqn:Ev.
  - destruct (Z.eqb_spec r 0) as [E0|N0]; cbn [inbetween]; [nia|].
    destruct (Z.compare_spec (2 * r) D); cbn [inbetween]; nia.
  - assert (Z.odd D = true) as Hodd by (rewrite <- Z.negb_even, Ev; reflexivity).
    apply Z.odd_spec in Hodd. destruct Hodd as [k Hk].
    destruct (Z.eqb_spec r 0) as [E0|N0]; cbn [inbetween]; [nia|].
    destruct (Z.compare_spec (2 * r + 1) D); cbn [inbetween]; nia.
Qed.

Lemma div_le_one mx ex my ey :
  (value (S754_finite false mx ex) <= value (S754_finite false my ey))%Q ->
  nonneg_finite (div (S754_finite false mx ex) (S754_finite false my ey)) /\
  (0 <= value (div (S754_finite false mx ex) (S754_finite false my ey)) <= 1)%Q /\
  (- (value (S754_finite false my ey) * 2 ^ (-53))
   <= value (div (S754_finite false mx ex) (S754_finite false my ey))
      * value (S754_finite false my ey)
      - value (S754_finite false mx ex)
   <= value (S754_finite false my ey) * 2 ^ (-53))%Q.
Proof.
  cbn [value]. intros Hle.
  unfold div, SFdiv, SFdiv_core_binary. cbn [xorb].
  rewrite fexp_eq.
  destruct (Zdigits2_bounds (Zpos mx) ltac:(lia)) as (Hd1 & Hhi1 & Hlo1).
  destruct (Zdigits2_bounds (Zpos my) ltac:(lia)) as (Hd2 & Hhi2 & Hlo2).
  specialize (Hlo1 ltac:(lia)). specialize (Hlo2 ltac:(lia)).
  set (d1 := Zdigits2 (Zpos mx)) in *. set (d2 := Zdigits2 (Zpos my)) in *.
  assert (0 < d1) by (subst d1; cbn; lia).
  assert (0 < d2) by (subst d2; cbn; lia).
  assert (d1 + ex - (d2 + ey) <= 0) as Hdelta.
  { apply (Qpow_le_Z _ _ _ _ (Z.min ex ey)) in Hle; [|lia|lia].
    assert (0 < 2 ^ (ex - Z.min ex ey)) by (apply Z.pow_pos_nonneg; lia).
    assert (0 < 2 ^ (ey - Z.min ex ey)) by (apply Z.pow_pos_nonneg; lia).
    assert (2 ^ (d1 - 1 + (ex - Z.min ex ey)) < 2 ^ (d2 + (ey - Z.min ex ey))) as Hp
      by (rewrite !Z.pow_add_r by lia; nia).
    apply Z.pow_lt_mono_r_iff in Hp; lia. }
  set (e' := Z.min (Z.max (d1 + ex - (d2 + ey) - 53) (-1074)) (ex - ey)).
  assert (e' <= -53) as He' by (subst e'; lia).
  assert (0 <= ex - ey - e') as Hs by (subst e'; lia).
  set (m' := match ex - ey - e' with
             | 0 => Z.pos mx
             | Z.pos _ => Z.shiftl (Z.pos mx) (ex - ey - e')
             | Z.neg _ => 0
             end).
  assert (m' = Zpos mx * 2 ^ (ex - ey - e')) as Em'.
  { subst m'. destruct (ex - ey - e') as [|s|s] eqn:Es.
    - change (2 ^ 0) with 1. lia.
    - rewrite Z.shiftl_mul_pow2 by lia. reflexivity.
    - lia. }
  assert (0 < 2 ^ (ex - ey - e')) by (apply Z.pow_pos_nonneg; lia).
  assert (0 < 2 ^ (- e')) by (apply Z.pow_pos_nonneg; lia).
  assert (m' <= Zpos my * 2 ^ (- e')) as Hm'.
  { rewrite Em'.
    apply (Qpow_le_Z _ _ _ _ (ey + e')) in Hle; [|lia|lia].
    replace (ex - (ey + e')) with (ex - ey - e') in Hle by lia.
    replace (ey - (ey + e')) with (- e') in Hle by lia. exact Hle. }
  pose proof (new_location_spec m' (Zpos my) ltac:(nia) ltac:(lia)) as Hin.
  unfold Z.div, Z.modulo in Hin.
  pose proof (Z.div_mod m' (Zpos my) ltac:(lia)) as Hdm.
  pose proof (Z.mod_pos_bound m' (Zpos my) ltac:(lia)) as Hr.
  unfold Z.div, Z.modulo in Hdm, Hr.
  destruct (Z.div_eucl m' (Z.pos my)) as [q r].
  assert (0 <= q <= 2 ^ (- e')) as Hq by nia.
  assert (Zdigits2 q <= - e' + 1) as Hdq.
  { apply Zdigits2_le; [lia|lia|]. rewrite Z.pow_add_r by lia. change (2 ^ 1) with 2. lia. }
  set (e1 := Z.max e' (fexp prec emax (Zdigits2 q + e'))).
  assert (e' <= e1 <= -52) as He1 by (subst e1; rewrite fexp_eq; lia).
  destruct (binary_round_aux_value m' (Zpos my) q e' (new_location (Zpos my) r))
    as (m1 & l1 & Hb & Em & He & I1 & Hnn & Hv); [lia|lia|exact Hin|fold e1; lia|].
  fold e1 in Em, He, I1, Hv.
  split; [exact Hnn|].
  destruct (rounded_error m' (Zpos my) e' e1 m1 l1 _ ltac:(lia) ltac:(lia) I1 Hv)
    as [Elo Ehi].
  split; [rewrite Hv|].
  2:{ cbn [value].
      set (V := value _) in *.
      assert (EX : (inject_Z m' * 2 ^ e' * 2 ^ ey == inject_Z (Zpos mx) * 2 ^ ex)%Q).
      { rewrite Em', inject_Z_mult, Qpow2_Z by lia.
        rewrite <- !Qmult_assoc, <- !Qpow2_add.
        replace (ex - ey - e' + (e' + ey)) with ex by lia. reflexivity. }
      pose proof (Qpow2_le e1 (-52) ltac:(lia)) as Hp1.
      assert (E52 : (2 ^ (-52) == 2 * 2 ^ (-53))%Q) by (vm_compute; reflexivity).
      pose proof (Qpow2_pos ey) as Hpy. pose proof (Qpow2_pos e1) as Hpe1.
      assert (HM : (0 < inject_Z (Zpos my))%Q)
        by (change (inject_Z 0 < inject_Z (Zpos my))%Q; rewrite <- Zlt_Qlt; lia).
      rewrite <- EX.
      set (M := inject_Z (Zpos my)) in *. set (Y := inject_Z m') in *.
      set (Pe1 := (2 ^ e1)%Q) in *. set (Pey := (2 ^ ey)%Q) in *.
      set (Pe' := (2 ^ e')%Q) in *. set (u := (2 ^ (-53))%Q) in *.
      set (u2 := (2 ^ (-52))%Q) in *.
      assert (HW : (- (M * u) <= V * M - Y * Pe' /\ V * M - Y * Pe' <= M * u)%Q)
        by (split; nra).
      destruct HW as [HW1 HW2].
      split; nra. }
  assert (0 < 2 ^ (e1 - e')) by (apply Z.pow_pos_nonneg; lia).
  assert (0 < 2 ^ (- e1)) by (apply Z.pow_pos_nonneg; lia).
  assert (2 ^ (- e') = 2 ^ (- e1) * 2 ^ (e1 - e')) as Epow
    by (rewrite <- Z.pow_add_r by lia; f_equal; lia).
  assert (0 < Zpos my * 2 ^ (e1 - e')) as HD1 by nia.
  pose proof (inbetween_bracket _ _ _ _ HD1 I1) as Hbr.
  assert (0 <= round_nearest_even m1 l1 <= 2 ^ (- e1)) as Hr1.
  { destruct (round_nearest_even_spec _ _ _ _ HD1 I1) as [[-> Hh]|[-> Hh]]; nia. }
  split.
  - apply Qmult_le_0_compat; [|apply Qlt_le_weak, Qpow2_pos].
    change (inject_Z 0 <= inject_Z (round_nearest_even m1 l1))%Q.
    rewrite <- Zle_Qle. lia.
  - change 1%Q with (inject_Z 1 * 2 ^ 0)%Q.
    apply (Qpow_le_Z _ _ _ _ e1); [lia|lia|].
    rewrite Z.sub_diag. change (2 ^ 0) with 1.
    replace (0 - e1) with (- e1) by lia. lia.
Qed.


Lemma of_int_100 : of_int 100 = S754_finite false 7036874417766400 (-46).
Proof. reflexivity. Qed.

Lemma mul_100_le q :
  nonneg_finite q -> (value q <= 1)%Q ->
  nonneg_finite (mul q (of_int 100)) /\
  (0 <= value (mul q (of_int 100)) <= 100)%Q /\
  (- 2 ^ (-47) <= value (mul q (of_int 100)) - 100 * value q <= 2 ^ (-47))%Q.
Proof.
  intros Hq Hle. rewrite of_int_100.
  destruct Hq as [->|(mq & eq & ->)].
  - split; [left; reflexivity|]. cbn. repeat split; discriminate.
  - cbn [value] in Hle. change 1%Q with (inject_Z 1 * 2 ^ 0)%Q in Hle.
    assert (eq <= 0 /\ Zpos mq <= 2 ^ (- eq)) as [Heq Hmq].
    { destruct (Z_le_gt_dec eq 0) as [Hneg|Hpos].
      - apply (Qpow_le_Z _ _ _ _ eq) in Hle; [|lia|lia].
        rewrite Z.sub_diag in Hle. change (2 ^ 0) with 1 in Hle.
        replace (0 - eq) with (- eq) in Hle by lia. lia.
      - apply (Qpow_le_Z _ _ _ _ 0) in Hle; [|lia|lia].
        rewrite !Z.sub_0_r in Hle. change (2 ^ 0) with 1 in Hle.
        assert (2 ^ 1 <= 2 ^ eq) by (apply Z.pow_le_mono_r; lia).
        change (2 ^ 1) with 2 in *. nia. }
    unfold mul, SFmul. cbn [xorb].
    set (X := Z.pos (mq * 7036874417766400)).
    assert (X = Zpos mq * (100 * 2 ^ 46)) as EX by (subst X; rewrite Pos2Z.inj_mul; reflexivity).
    assert (0 < 2 ^ (- eq)) by (apply Z.pow_pos_nonneg; lia).
    assert (X <= 100 * 2 ^ (46 - eq)) as HX.
    { replace (46 - eq) with (46 + - eq) by lia. rewrite Z.pow_add_r by lia. nia. }
    assert (Zdigits2 X <= 53 - eq) as HdX.
    { apply Zdigits2_le; [lia|lia|].
      replace (53 - eq) with (7 + (46 - eq)) by lia. rewrite Z.pow_add_r by lia.
      assert (0 < 2 ^ (46 - eq)) by (apply Z.pow_pos_nonneg; lia).
      change (2 ^ 7) with 128. lia. }
    set (e1 := Z.max (eq + -46) (fexp prec emax (Zdigits2 X + (eq + -46)))).
    assert (eq + -46 <= e1 <= -46) as He1 by (subst e1; rewrite fexp_eq; lia).
    destruct (binary_round_aux_value X 1 X (eq + -46) loc_Exact)
      as (m1 & l1 & Hb & Em & He & I1 & Hnn & Hv);
      [lia|lia|cbn [inbetween]; lia|fold e1; lia|].
    fold e1 in Em, He, I1, Hv.
    destruct (rounded_error X 1 (eq + -46) e1 m1 l1 _ ltac:(lia) ltac:(lia) I1 Hv)
      as [Elo Ehi].
    rewrite Z.mul_1_l in I1.
    split; [exact Hnn|].
    split; [rewrite Hv|].
    2:{ cbn [value].
        set (V := value _) in *.
        assert (EXq : (inject_Z X * 2 ^ (eq + -46) == 100 * (inject_Z (Zpos mq) * 2 ^ eq))%Q).
        { rewrite EX, inject_Z_mult, Qpow2_add.
          assert (E100 : (inject_Z (100 * 2 ^ 46) * 2 ^ (-46) == 100)%Q)
            by (vm_compute; reflexivity).
          rewrite <- E100. ring. }
        pose proof (Qpow2_le e1 (-46) ltac:(lia)) as Hp1.
        assert (E46 : (2 ^ (-46) == 2 * 2 ^ (-47))%Q) by (vm_compute; reflexivity).
        pose proof (Qpow2_pos e1) as Hpe1.
        rewrite <- EXq.
        change (inject_Z 1) with 1%Q in *.
        set (Y := (inject_Z X * 2 ^ (eq + -46))%Q) in *.
        set (Pe1 := (2 ^ e1)%Q) in *. set (u := (2 ^ (-47))%Q) in *.
        set (u2 := (2 ^ (-46))%Q) in *.
        split; lra. }
    assert (0 < 2 ^ (e1 - (eq + -46))) as HD1 by (apply Z.pow_pos_nonneg; lia).
    assert (0 < 2 ^ (- e1)) by (apply Z.pow_pos_nonneg; lia).
    assert (2 ^ (46 - eq) = 2 ^ (- e1) * 2 ^ (e1 - (eq + -46))) as Epow
      by (rewrite <- Z.pow_add_r by lia; f_equal; lia).
    pose proof (inbetween_bracket _ _ _ _ HD1 I1) as Hbr.
    assert (0 <= round_nearest_even m1 l1 <= 100 * 2 ^ (- e1)) as Hr1.
    { destruct (round_nearest_even_spec _ _ _ _ HD1 I1) as [[-> Hh]|[-> Hh]]; nia. }
    split.
    + apply Qmult_le_0_compat; [|apply Qlt_le_weak, Qpow2_pos].
      change (inject_Z 0 <= inject_Z (round_nearest_even m1 l1))%Q.
      rewrite <- Zle_Qle. lia.
    + change 100%Q with (inject_Z 100 * 2 ^ 0)%Q.
      apply (Qpow_le_Z _ _ _ _ e1); [lia|lia|].
      rewrite Z.sub_diag. change (2 ^ 0) with 1.
      replace (0 - e1) with (- e1) by lia. lia.
Qed.

Lemma div_same m e :
  div (S754_finite false m e) (S754_finite false m e) =
  S754_finite false 4503599627370496 (-52).
Proof.
  unfold div, SFdiv, SFdiv_core_binary. cbn [xorb].
  rewrite !Z.sub_diag.
  change (Z.min (fexp prec emax 0) 0) with (-53).
  change (0 - -53) with 53.
  rewrite Z.shiftl_mul_pow2 by lia.
  rewrite (Z.mul_comm (Z.pos m)).
  pose proof (Z.div_mul (2 ^ 53) (Zpos m) ltac:(lia)) as Hq.
  pose proof (Z.mod_mul (2 ^ 53) (Zpos m) ltac:(lia)) as Hr.
  unfold Z.div, Z.modulo in Hq, Hr.
  destruct (Z.div_eucl (2 ^ 53 * Z.pos m) (Z.pos m)) as [q r].
  subst q r.
  assert (new_location (Z.pos m) 0 = loc_Exact) as ->.
  { unfold new_location. destruct (Z.even (Z.pos m)); reflexivity. }
  reflexivity.
Qed.

Lemma percentage_of_part a t :
  0 <= a <= t -> 0 < t < 2 ^ 63 ->
  let p := mul (div (of_int a) (of_int t)) (of_int 100) in
  nonneg_finite p /\ (0 <= value p <= 100)%Q.
Proof.
  intros Ha Ht p. subst p.
  destruct (of_int_finite t Ht) as (my & ey & Ey & _).
  destruct (Z.eq_dec a 0) as [->|Na].
  - rewrite Ey. change (of_int 0) with (S754_zero false).
    split; [left; reflexivity|]. cbn. split; discriminate.
  - assert (Zdigits2 t <= 63) as Hd by (apply Zdigits2_le; lia).
    pose proof (of_int_mono a t ltac:(lia) ltac:(lia) ltac:(lia)) as Hmono.
    destruct (of_int_finite a ltac:(lia)) as (mx & ex & Ex & _).
    rewrite Ex, Ey in *.
    destruct (div_le_one mx ex my ey Hmono) as (Hnn & (_ & Hle) & _).
    destruct (mul_100_le _ Hnn Hle) as (Hp & Hb & _). auto.
Qed.

Lemma nonneg_finite_is_finite x : nonneg_finite x -> is_finite x = true.
Proof. intros [->|(m & e & ->)]; reflexivity. Qed.

Lemma percentage_of_whole t :
  0 < t < 2 ^ 63 -> mul (div (of_int t) (of_int t)) (of_int 100) = of_int 100.
Proof.
  intros Ht. destruct (of_int_finite t Ht) as (m & e & -> & _).
  rewrite div_same. reflexivity.
Qed.

Lemma percentage_of_nothing t :
  0 < t -> mul (div (of_int 0) (of_int t)) (of_int 100) = S754_zero false.
Proof.
  intros Ht. change (of_int 0) with (S754_zero false).
  destruct (of_int_positive t Ht) as [(m & e & ->)| ->]; reflexivity.
Qed.



Lemma of_int_error t :
  0 < t < 2 ^ 63 ->
  (- (inject_Z t * 2 ^ (-53)) <= value (of_int t) - inject_Z t <= inject_Z t * 2 ^ (-53))%Q.
Proof.
  intros Ht.
  assert (Zdigits2 t <= 63) as Hd by (apply Zdigits2_le; lia).
  destruct (Zdigits2_bounds t ltac:(lia)) as (_ & _ & Hlo). specialize (Hlo ltac:(lia)).
  assert (1 <= Zdigits2 t)
    by (apply (Zdigits2_ge t 0); [lia|change (2 ^ 0) with 1; lia]).
  destruct (of_int_spec t ltac:(lia) ltac:(lia)) as (m1 & l1 & Hb & Em & I1 & _ & Hv).
  set (d := Zdigits2 t) in *. set (ez := Z.min 0 (d - 53)) in *.
  rewrite <- (Z.mul_1_l (2 ^ (d - 53 - ez))) in I1.
  destruct (rounded_error _ 1 ez (d - 53) m1 l1 _ ltac:(lia) ltac:(lia) I1 Hv) as [Elo Ehi].
  assert (EX : (inject_Z (t * 2 ^ (- ez)) * 2 ^ ez == inject_Z t)%Q).
  { rewrite inject_Z_mult, Qpow2_Z by lia.
    rewrite <- Qmult_assoc, <- Qpow2_add. replace (- ez + ez) with 0 by lia.
    change (2 ^ 0)%Q with 1%Q. ring. }
  rewrite EX in Elo, Ehi.
  assert (Hp : (inject_Z 1 * 2 ^ (d - 53) <= inject_Z t * 2 ^ (-52))%Q).
  { apply (Qpow_le_Z _ _ _ _ (-52)); [lia|lia|].
    rewrite Z.sub_diag. change (2 ^ 0) with 1.
    replace (d - 53 - -52) with (d - 1) by lia. lia. }
  assert (E52 : (2 ^ (-52) == 2 * 2 ^ (-53))%Q) by (vm_compute; reflexivity).
  change (inject_Z 1) with 1%Q in *.
  set (V := value (of_int t)) in *. set (T := inject_Z t) in *.
  set (Pe1 := (2 ^ (d - 53))%Q) in *. set (u := (2 ^ (-53))%Q) in *.
  set (u2 := (2 ^ (-52))%Q) in *.
  split; nra.
Qed.

Lemma percentage_error a t :
  0 <= a <= t -> 0 < t < 2 ^ 63 ->
  (Qabs (value (mul (div (of_int a) (of_int t)) (of_int 100))
         - 100 * inject_Z a / inject_Z t) <= 2 ^ (-44))%Q.
Proof.
  intros Ha Ht.
  assert (HT : (0 < inject_Z t)%Q)
    by (change (inject_Z 0 < inject_Z t)%Q; rewrite <- Zlt_Qlt; lia).
  destruct (of_int_finite t Ht) as (my & ey & Ey & HTy).
  destruct (Z.eq_dec a 0) as [->|Na].
  - rewrite Ey. change (of_int 0) with (S754_zero false). cbn [div SFdiv mul SFmul].
    change (value _) with 0%Q.
    assert (E : (0 - 100 * inject_Z 0 / inject_Z t == 0)%Q) by (field; lra).
    rewrite E. discriminate.
  - assert (Zdigits2 t <= 63) as Hd by (apply Zdigits2_le; lia).
    pose proof (of_int_mono a t ltac:(lia) ltac:(lia) ltac:(lia)) as Hmono.
    pose proof (of_int_error a ltac:(lia)) as [HA1 HA2].
    pose proof (of_int_error t ltac:(lia)) as [HT1 HT2].
    destruct (of_int_finite a ltac:(lia)) as (mx & ex & Ex & HAx).
    rewrite Ex, Ey in *.
    destruct (div_le_one mx ex my ey Hmono) as (Hnn & (Hq0 & Hq1) & Hq2 & Hq3).
    destruct (mul_100_le _ Hnn Hq1) as (_ & _ & Hp1 & Hp2).
    assert (Haq : (0 <= inject_Z a <= inject_Z t)%Q).
    { split; [change (inject_Z 0 <= inject_Z a)%Q|]; rewrite <- Zle_Qle; lia. }
    set (p := value (mul _ _)) in *.
    set (q := value (div _ _)) in *.
    set (A := value (S754_finite false mx ex)) in *.
    set (T := value (S754_finite false my ey)) in *.
    assert (Hu : (2 ^ (-53) == 1 # 9007199254740992)%Q) by (vm_compute; reflexivity).
    assert (Hc : (2 ^ (-47) == 1 # 140737488355328)%Q) by (vm_compute; reflexivity).
    assert (He : (2 ^ (-44) == 1 # 17592186044416)%Q) by (vm_compute; reflexivity).
    set (u := (2 ^ (-53))%Q) in *. set (c := (2 ^ (-47))%Q) in *.
    set (eps := (2 ^ (-44))%Q) in *.
    set (qa := inject_Z a) in *. set (qt := inject_Z t) in *.
    assert (Hw : (- (qt * u) <= q * (qt - T) /\ q * (qt - T) <= qt * u)%Q) by (split; nra).
    assert (Hz : (- (c * qt) <= (p - 100 * q) * qt /\ (p - 100 * q) * qt <= c * qt)%Q)
      by (split; nra).
    assert (Hfin : (- (eps * qt) <= p * qt - 100 * qa /\ p * qt - 100 * qa <= eps * qt)%Q)
      by (split; nra).
    assert (Ey' : (100 * qa / qt == 100 * (qa / qt))%Q) by (field; lra).
    assert (Eyt : (qa / qt * qt == qa)%Q) by (field; lra).
    rewrite Ey'. set (y := (qa / qt)%Q) in *.
    apply Qabs_Qle_condition. split; nra.
Qed.

End Binary64.

(** ** [CalculateAttribution] *)

Section AttributionFacts.
Import GoStrings Attribution AttributionSpec.

Variable dmpLineDiff : string -> string -> list Diff.
Variables baseTree checkpointTree committedTree : option (gmap string File).

#[local] Abbreviation attribute := (attributeFile dmpLineDiff baseTree checkpointTree committedTree).
#[local] Abbreviation contributionOf := (contributionOf dmpLineDiff baseTree checkpointTree committedTree).
#[local] Abbreviation changed := (changed baseTree committedTree).
#[local] Abbreviation aggregate := (aggregate dmpLineDiff baseTree checkpointTree committedTree).

(** Case analysis on the comparisons of the loop body, innermost first. *)
Ltac case_ltb :=
  repeat match goal with
         | |- context [?x <? ?y] =>
             lazymatch x with context [_ <? _] => fail | _ => idtac end;
             lazymatch y with context [_ <? _] => fail | _ => idtac end;
             destruct (Z.ltb_spec x y); cbv iota
         end.

Lemma attributeFile_unchanged acc f : changed f = false -> attribute acc f = acc.
Proof.
  unfold AttributionSpec.changed, attributeFile. intros H.
  apply negb_false_iff in H. now rewrite H.
Qed.

Lemma attributeFile_changed acc f :
  changed f = true -> attribute acc f = addContribution acc (contributionOf f).
Proof.
  unfold AttributionSpec.changed, attributeFile, AttributionSpec.contributionOf, contribution.
  intros H. apply negb_true_iff in H. rewrite H.
  destruct (diffLines dmpLineDiff (getFileContent baseTree f) (getFileContent committedTree f))
    as [[u1 cA] cR].
  destruct (diffLines dmpLineDiff (getFileContent checkpointTree f) (getFileContent committedTree f))
    as [[u2 hA] hR].
  unfold addContribution, clamp, linesIn. cbn [agentAdded pureHumanAdded humanModified
    actualHumanRemoved commitAdded].
  f_equal; try reflexivity; f_equal; case_ltb; lia.
Qed.

Lemma aggregate_nil component : aggregate component [] = 0.
Proof. reflexivity. Qed.

Lemma aggregate_cons component f files :
  aggregate component (f :: files)
  = (if changed f then component (contributionOf f) else 0) + aggregate component files.
Proof.
  unfold AttributionSpec.aggregate. destruct (changed f) eqn:E.
  - rewrite filter_cons_True by exact E. reflexivity.
  - rewrite filter_cons_False by congruence. reflexivity.
Qed.

(** The loop of [CalculateAttribution] adds up the contributions of
    the touched files that changed. *)
Lemma fold_attributeFile files : forall acc,
  fold_left attribute files acc
  = {| totalAgentAdded := totalAgentAdded acc + aggregate agentAdded files;
       totalHumanAdded := totalHumanAdded acc + aggregate pureHumanAdded files;
       totalHumanModified := totalHumanModified acc + aggregate humanModified files;
       totalHumanRemoved := totalHumanRemoved acc + aggregate actualHumanRemoved files;
       totalCommitAdded := totalCommitAdded acc + aggregate commitAdded files |}.
Proof.
  induction files as [|f files IH]; intros acc.
  - simpl. rewrite !aggregate_nil. destruct acc; simpl; f_equal; lia.
  - simpl fold_left. rewrite IH, !aggregate_cons. destruct (changed f) eqn:E.
    + rewrite attributeFile_changed by exact E. simpl. f_equal; lia.
    + rewrite attributeFile_unchanged by exact E. f_equal; lia.
Qed.

Lemma contribution_bounds f :
  0 <= agentAdded (contributionOf f) <= commitAdded (contributionOf f).
Proof.
  unfold AttributionSpec.contributionOf, contribution.
  destruct (diffLines_nonneg dmpLineDiff (getFileContent baseTree f) (getFileContent committedTree f))
    as (u1 & a1 & r1 & -> & _ & Ha1 & _).
  destruct (diffLines_nonneg dmpLineDiff (getFileContent checkpointTree f) (getFileContent committedTree f))
    as (u2 & a2 & r2 & -> & _ & Ha2 & _).
  simpl. lia.
Qed.

Lemma aggregate_bounds files :
  0 <= aggregate agentAdded files <= aggregate commitAdded files.
Proof.
  induction files as [|f files IH]; [rewrite !aggregate_nil; lia|].
  rewrite !aggregate_cons. pose proof (contribution_bounds f).
  destruct (changed f); lia.
Qed.

Lemma CalculateAttribution_some now files :
  files <> [] ->
  CalculateAttribution dmpLineDiff now baseTree checkpointTree committedTree files
  = Some {| CalculatedAt := now;
            AgentLines := aggregate agentAdded files;
            HumanAdded := aggregate pureHumanAdded files;
            HumanModified := aggregate humanModified files;
            HumanRemoved := aggregate actualHumanRemoved files;
            TotalCommitted := totalInCommit dmpLineDiff baseTree checkpointTree committedTree files;
            AgentPercentage :=
              if 0 <? totalInCommit dmpLineDiff baseTree checkpointTree committedTree files
              then Float64.mul
                     (Float64.div
                        (Float64.of_int (aggregate agentAdded files))
                        (Float64.of_int
                           (totalInCommit dmpLineDiff baseTree checkpointTree committedTree
                              files)))
                     (Float64.of_int 100)
              else Float64.zero |}.
Proof.
  intros Hne. unfold CalculateAttribution.
  destruct files as [|f files]; [congruence|].
  change (Nat.eqb (length (f :: files)) 0) with false. cbv iota.
  rewrite fold_attributeFile. unfold totalInCommit. simpl. reflexivity.
Qed.

End AttributionFacts.

Section AttributionClaims.
Import GoStrings Attribution AttributionSpec.

(** Claim C1. For every call of [CalculateAttribution] with non-empty
    [filesTouched]: a touched file whose base content differs from its
    committed content adds to the running totals the contribution of
    the specification (agentAdded = max(0, commitAdded - humanAdded),
    humanModified = min(humanAdded, humanRemoved), pureHumanAdded and
    pureHumanRemoved the remainders, and the human-removed share
    commitRemoved - max(0, linesIn(base) - linesIn(checkpoint)) clamped
    to [0, pureHumanRemoved]); a file whose base content equals its
    committed content leaves every total as it is; and the result holds
    the sums of these contributions. *)
Theorem CalculateAttribution_per_file
    (dmpLineDiff : string -> string -> list Diff) (now : Z)
    (baseTree checkpointTree committedTree : option (gmap string File))
    (filesTouched : list string) :
  filesTouched <> [] ->
  (forall acc f,
      getFileContent baseTree f <> getFileContent committedTree f ->
      attributeFile dmpLineDiff baseTree checkpointTree committedTree acc f
      = addContribution acc
          (contribution dmpLineDiff (getFileContent baseTree f)
             (getFileContent checkpointTree f) (getFileContent committedTree f)))
  /\ (forall acc f,
      getFileContent baseTree f = getFileContent committedTree f ->
      attributeFile dmpLineDiff baseTree checkpointTree committedTree acc f = acc)
  /\ exists r,
      CalculateAttribution dmpLineDiff now baseTree checkpointTree committedTree filesTouched
      = Some r
      /\ AgentLines r
         = aggregate dmpLineDiff baseTree checkpointTree committedTree agentAdded filesTouched
      /\ HumanAdded r
         = aggregate dmpLineDiff baseTree checkpointTree committedTree pureHumanAdded filesTouched
      /\ HumanModified r
         = aggregate dmpLineDiff baseTree checkpointTree committedTree humanModified filesTouched
      /\ HumanRemoved r
         = aggregate dmpLineDiff baseTree checkpointTree committedTree actualHumanRemoved
             filesTouched.
Proof.
  intros Hne. split; [|split].
  - intros acc f Hf. apply attributeFile_changed.
    unfold changed. apply negb_true_iff, eqs_false, Hf.
  - intros acc f Hf. apply attributeFile_unchanged.
    unfold changed. apply negb_false_iff, eqs_true, Hf.
  - eexists. split; [apply CalculateAttribution_some, Hne|]. simpl. auto.
Qed.

Lemma CalculateAttribution_per_file_witness :
  exists r,
    CalculateAttribution lcsLineDiff 0 sampleBaseTree sampleCheckpointTree
      sampleCommittedTree [sampleFile] = Some r
    /\ AgentLines r = 2 /\ HumanAdded r = 1 /\ HumanModified r = 0 /\ HumanRemoved r = 0.
Proof.
  destruct (CalculateAttribution_per_file lcsLineDiff 0 sampleBaseTree
              sampleCheckpointTree sampleCommittedTree [sampleFile] ltac:(discriminate))
    as (_ & _ & r & E & H1 & H2 & H3 & H4).
  exists r. split; [exact E|].
  rewrite H1, H2, H3, H4. vm_compute. repeat split; reflexivity.
Defined.

(** Claim C3. For every call of [CalculateAttribution] with non-empty
    [filesTouched], with [totalInCommit] the added lines of the commit,
    or the agent's lines when the commit adds none: [AgentPercentage] is
    the binary64 number that [float64(totalAgentAdded) /
    float64(totalInCommit) * 100] evaluates to, the quotient rounded and
    its product with 100 rounded again; it is [+0] when [totalInCommit]
    is 0; and when [totalInCommit] is within the range of [int] it is a
    number between 0 and 100, at most 2^-44 away from
    100 * totalAgentAdded / totalInCommit. *)
Theorem AgentPercentage_binary64
    (dmpLineDiff : string -> string -> list Diff) (now : Z)
    (baseTree checkpointTree committedTree : option (gmap string File))
    (filesTouched : list string) :
  filesTouched <> [] ->
  exists r,
    CalculateAttribution dmpLineDiff now baseTree checkpointTree committedTree filesTouched
    = Some r
    /\ let totalAgentAdded :=
         aggregate dmpLineDiff baseTree checkpointTree committedTree agentAdded filesTouched in
       let totalCommitAdded :=
         aggregate dmpLineDiff baseTree checkpointTree committedTree commitAdded filesTouched in
       let totalInCommit :=
         if totalCommitAdded =? 0 then totalAgentAdded else totalCommitAdded in
       AgentLines r = totalAgentAdded
       /\ TotalCommitted r = totalInCommit
       /\ (totalInCommit = 0 -> AgentPercentage r = Float64.zero)
       /\ (totalInCommit <> 0 ->
           AgentPercentage r
           = Float64.mul
               (Float64.div (Float64.of_int totalAgentAdded) (Float64.of_int totalInCommit))
               (Float64.of_int 100))
       /\ (totalInCommit < 2 ^ 63 ->
           Float64.is_finite (AgentPercentage r) = true
           /\ (0 <= Float64.value (AgentPercentage r) <= 100)%Q)
       /\ (0 < totalInCommit < 2 ^ 63 ->
           (Qabs (Float64.value (AgentPercentage r)
                  - 100 * inject_Z totalAgentAdded / inject_Z totalInCommit)
            <= 2 ^ (-44))%Q).
Proof.
  intros Hne. eexists. split; [apply CalculateAttribution_some, Hne|].
  cbv zeta. cbn [AgentLines TotalCommitted AgentPercentage].
  unfold totalInCommit.
  pose proof (aggregate_bounds dmpLineDiff baseTree checkpointTree committedTree filesTouched)
    as Hb.
  set (a := aggregate _ _ _ _ agentAdded filesTouched) in *.
  set (c := aggregate _ _ _ _ commitAdded filesTouched) in *.
  set (t := if c =? 0 then a else c).
  assert (Ht : 0 <= a <= t /\ 0 <= t).
  { unfold t. destruct (Z.eqb_spec c 0); lia. }
  split; [reflexivity|]. split; [reflexivity|].
  destruct (Z.ltb_spec 0 t) as [Hpos|Hzero].
  - split; [lia|]. split; [reflexivity|]. split.
    + intros Hint.
      destruct (percentage_of_part a t ltac:(lia) ltac:(lia)) as [Hnn Hv].
      split; [apply nonneg_finite_is_finite, Hnn|exact Hv].
    + intros Hint. apply percentage_error; lia.
  - assert (t = 0) by lia. split; [reflexivity|].
    split; [intros; lia|]. split; [|intros; lia].
    intros _. split; [reflexivity|]. cbn. split; discriminate.
Qed.

Lemma AgentPercentage_binary64_witness :
  exists r,
    CalculateAttribution lcsLineDiff 0 sampleBaseTree sampleCheckpointTree
      sampleCommittedTree [sampleFile] = Some r
    /\ AgentLines r = 2 /\ TotalCommitted r = 3
    /\ AgentPercentage r = S754_finite false 4691249611844266 (-46)
    /\ (0 <= Float64.value (AgentPercentage r) <= 100)%Q.
Proof.
  destruct (AgentPercentage_binary64 lcsLineDiff 0 sampleBaseTree
              sampleCheckpointTree sampleCommittedTree [sampleFile] ltac:(discriminate))
    as (r & E & H1 & H2 & _ & H3 & H4 & _).
  assert (E2 : aggregate lcsLineDiff sampleBaseTree sampleCheckpointTree sampleCommittedTree
                 agentAdded [sampleFile] = 2) by (vm_compute; reflexivity).
  assert (E3 : (if aggregate lcsLineDiff sampleBaseTree sampleCheckpointTree
                      sampleCommittedTree commitAdded [sampleFile] =? 0
                then aggregate lcsLineDiff sampleBaseTree sampleCheckpointTree
                       sampleCommittedTree agentAdded [sampleFile]
                else aggregate lcsLineDiff sampleBaseTree sampleCheckpointTree
                       sampleCommittedTree commitAdded [sampleFile]) = 3)
    by (vm_compute; reflexivity).
  rewrite E3 in H2, H3, H4. rewrite E2 in H1, H3.
  exists r. split; [exact E|]. split; [exact H1|]. split; [exact H2|].
  split; [rewrite H3 by discriminate; vm_compute; reflexivity|].
  apply H4. reflexivity.
Defined.

(** The agent wrote 11 of the 20 lines that the commit adds: the exact
    percentage is 55, a binary64 number, and the code returns the next
    one above it, 55.00000000000001. *)
Lemma AgentPercentage_not_the_ratio :
  exists r,
    CalculateAttribution lcsLineDiff 0 splitBaseTree splitCheckpointTree splitCommittedTree
      [agentFile; humanFile] = Some r
    /\ AgentLines r = 11 /\ TotalCommitted r = 20
    /\ AgentPercentage r = S754_finite false 7740561859543041 (-47)
    /\ Float64.of_int 55 = S754_finite false 7740561859543040 (-47)
    /\ ~ (Float64.value (AgentPercentage r) == 100 * inject_Z 11 / inject_Z 20)%Q.
Proof.
  eexists. split; [vm_compute; reflexivity|].
  cbn [AgentLines TotalCommitted AgentPercentage].
  split_and!; try reflexivity.
  vm_compute. discriminate.
Qed.

Lemma getFileContent_absent tree path : absent tree path -> getFileContent tree path = "".
Proof.
  unfold absent, getFileContent. destruct tree as [t|]; [|reflexivity].
  intros ->. reflexivity.
Qed.

Lemma aggregate_unchanged dmpLineDiff baseTree checkpointTree committedTree component files :
  (forall f, In f files -> getFileContent baseTree f = getFileContent committedTree f) ->
  aggregate dmpLineDiff baseTree checkpointTree committedTree component files = 0.
Proof.
  induction files as [|f files IH]; intros H; [reflexivity|].
  rewrite aggregate_cons. rewrite IH by (intros g Hg; apply H; now right).
  replace (changed baseTree committedTree f) with false; [reflexivity|].
  symmetry. unfold changed. apply negb_false_iff, eqs_true, H. now left.
Qed.

(** Claim C7. [CalculateAttribution] returns a result on every input
    and never an error: the result is [nil] if and only if
    [filesTouched] is empty; and when every touched file is without
    content in the three trees (the tree is [nil] or the file is
    missing from it) and [filesTouched] is not empty, the result is not
    [nil] and its [TotalCommitted] is 0. *)
Theorem CalculateAttribution_degenerate
    (dmpLineDiff : string -> string -> list Diff) (now : Z)
    (baseTree checkpointTree committedTree : option (gmap string File))
    (filesTouched : list string) :
  (CalculateAttribution dmpLineDiff now baseTree checkpointTree committedTree filesTouched
   = None <-> filesTouched = [])
  /\ (filesTouched <> [] ->
      (forall f, In f filesTouched ->
                 absent baseTree f /\ absent checkpointTree f /\ absent committedTree f) ->
      exists r,
        CalculateAttribution dmpLineDiff now baseTree checkpointTree committedTree filesTouched
        = Some r
        /\ TotalCommitted r = 0).
Proof.
  split.
  - split.
    + intros H. destruct filesTouched as [|f fs]; [reflexivity|].
      rewrite CalculateAttribution_some in H by discriminate. discriminate.
    + intros ->. reflexivity.
  - intros Hne Habs. eexists. split; [apply CalculateAttribution_some, Hne|].
    cbn [TotalCommitted]. unfold totalInCommit.
    rewrite !aggregate_unchanged; [reflexivity| |].
    all: intros f Hf; destruct (Habs f Hf) as (Hb & _ & Hc);
      now rewrite !getFileContent_absent.
Qed.

Lemma CalculateAttribution_degenerate_witness :
  exists r,
    CalculateAttribution lcsLineDiff 0 None None None [sampleFile] = Some r
    /\ TotalCommitted r = 0.
Proof.
  apply (CalculateAttribution_degenerate lcsLineDiff 0 None None None [sampleFile]).
  - discriminate.
  - intros f _. simpl. tauto.
Defined.

End AttributionClaims.

(** ** The self-modification estimate *)

Section AccumulatedFacts.
Import Accumulated AttributionSpec.

Lemma estimate_empty added : estimateUserSelfModifications added ∅ = 0.
Proof. reflexivity. Qed.

(** One more file with removed lines adds the minimum of these and of
    the lines the user added to that file, whatever the order in which
    the map is walked. *)
Lemma estimate_insert added (removed : gmap string Z) f r :
  removed !! f = None ->
  estimateUserSelfModifications added (<[f := r]> removed)
  = estimateUserSelfModifications added removed + Z.min r (at_key added f).
Proof.
  intros Hf. unfold estimateUserSelfModifications.
  rewrite map_fold_insert_L; [reflexivity| |exact Hf].
  intros. lia.
Qed.

Lemma estimate_sum added (removed : gmap string Z) :
  estimateUserSelfModifications added removed
  = sumZ (map (fun '(f, r) => Z.min r (at_key added f)) (map_to_list removed)).
Proof.
  unfold estimateUserSelfModifications. rewrite map_fold_foldr.
  induction (map_to_list removed) as [|[f r] l IH]; [reflexivity|].
  simpl. rewrite IH. unfold sumZ. lia.
Qed.

Lemma sumZ_Permutation l k : l ≡ₚ k -> sumZ l = sumZ k.
Proof. induction 1; simpl; unfold sumZ in *; simpl; lia. Qed.

(** Property X18. The estimate does not depend on the order in which
    the map of removed lines is walked, nor on which files have an
    entry: with no negative count of user additions, it is the sum of
    min(removed[file], added[file]) over any list of distinct files
    that covers the files with removed lines, a missing key counting
    as 0. *)
Lemma estimate_sum_over_files added (removed : gmap string Z) :
  (forall f, 0 <= at_key added f) ->
  forall files : list string,
    NoDup files ->
    (forall f, is_Some (removed !! f) -> f ∈ files) ->
    estimateUserSelfModifications added removed
    = sumZ (map (fun f => Z.min (at_key removed f) (at_key added f)) files).
Proof.
  intros Hadd.
  induction removed as [|f r removed Hf IH] using map_ind; intros files Hnd Hcov.
  - rewrite estimate_empty. induction files as [|g files IHf]; [reflexivity|].
    simpl. rewrite <- IHf.
    + unfold at_key at 1. rewrite lookup_empty. simpl. specialize (Hadd g). lia.
    + now inversion Hnd.
    + intros x [y Hx]. rewrite lookup_empty in Hx. discriminate.
  - rewrite estimate_insert by exact Hf.
    assert (Hin : f ∈ files) by (apply Hcov; rewrite lookup_insert_eq; eauto).
    apply elem_of_Permutation in Hin as [rest Hperm].
    rewrite (sumZ_Permutation _ _ (Permutation_map _ Hperm)).
    rewrite Hperm in Hnd. apply NoDup_cons in Hnd as [Hnotin Hnd].
    simpl. unfold at_key at 2. rewrite lookup_insert_eq. simpl.
    rewrite (IH rest Hnd).
    + assert (E : map (fun g => Z.min (at_key (<[f:=r]> removed) g) (at_key added g)) rest
                  = map (fun g => Z.min (at_key removed g) (at_key added g)) rest).
      { apply map_ext_in. intros g Hg. unfold at_key at 1 3.
        rewrite lookup_insert_ne; [reflexivity|].
        intros ->. apply Hnotin. now apply list_elem_of_In. }
      rewrite E. lia.
    + intros g Hg. assert (g <> f) by (intros ->; rewrite Hf in Hg; destruct Hg; discriminate).
      assert (Hg' : g ∈ files) by (apply Hcov; rewrite lookup_insert_ne by congruence; exact Hg).
      rewrite Hperm in Hg'. apply elem_of_cons in Hg' as [?|?]; [congruence|assumption].
Qed.

(** Claim C2. The estimate of the user's self-modifications is the sum
    over the files of min(postCheckpointUserRemovedPerFile[file],
    accumulatedUserAddedPerFile[file]); and in the scenario (the agent
    adds 10 lines to a file, the user adds 5 recorded in a
    [PromptAttribution], then removes 3 of their own lines and adds 3
    others) the self-modified lines are 3, no agent line counts as
    modified by the human, the agent has 10 lines in the commit out of
    15 committed, and the agent percentage is 66.7 up to rounding. *)
Theorem self_modification_estimate
    (accumulatedUserAddedPerFile postCheckpointUserRemovedPerFile : gmap string Z) :
  estimateUserSelfModifications accumulatedUserAddedPerFile postCheckpointUserRemovedPerFile
  = sumZ (map (fun '(file, removed) => Z.min removed (at_key accumulatedUserAddedPerFile file))
              (map_to_list postCheckpointUserRemovedPerFile))
  /\ selfModified scenario = Z.min 3 5
  /\ selfModified scenario = 3
  /\ humanModifiedAgentLines scenario = 0
  /\ agentLinesInCommit scenario = 10
  /\ totalCommitted scenario = 15
  /\ (Qabs (agentPercentage scenario - 66.7) <= 0.05)%Q.
Proof.
  split; [apply estimate_sum|].
  repeat split; try (vm_compute; reflexivity).
  vm_compute. discriminate.
Qed.

End AccumulatedFacts.

(** ** Shadow-branch migration *)

Section MigrationFacts.
Import GoStrings Session Migration.

Variable ShadowBranchNameForCommit : string -> string -> string.

#[local] Abbreviation migrate := (migrateShadowBranchIfNeeded ShadowBranchNameForCommit).

Lemma migrate_stable repo st :
  Head repo = Some (BaseCommit st) ->
  migrate repo (Some st) = mkOutcome false None repo (Some st) [].
Proof.
  intros H. unfold migrateShadowBranchIfNeeded. rewrite H.
  destruct (eqs (BaseCommit st) ""); [reflexivity|].
  now rewrite eqs_refl.
Qed.

(** The three ways out of a stale state. *)
Lemma migrate_stale repo st currentHead :
  Head repo = Some currentHead ->
  BaseCommit st <> "" ->
  BaseCommit st <> currentHead ->
  let oldShadowBranch := ShadowBranchNameForCommit (BaseCommit st) (WorktreeID st) in
  let newShadowBranch := ShadowBranchNameForCommit currentHead (WorktreeID st) in
  let oldRefName := NewBranchReferenceName oldShadowBranch in
  let newRefName := NewBranchReferenceName newShadowBranch in
  migrate repo (Some st)
  = match Reference repo oldRefName with
    | None =>
        mkOutcome true None repo (Some (withBaseCommit st currentHead))
                  [UpdatedBaseCommit (prefix 7 currentHead)]
    | Some oldHash =>
        if decide (newRefName ∈ setDenied repo) then
          mkOutcome false (Some (FailedToCreateShadowBranch newShadowBranch)) repo (Some st) []
        else if decide (oldRefName ∈ removeDenied repo) then
          mkOutcome true None (withRefs repo (<[newRefName := oldHash]> (refs repo)))
                    (Some (withBaseCommit st currentHead))
                    [WarnRemoveFailed oldShadowBranch;
                     MovedShadowBranch oldShadowBranch newShadowBranch]
        else
          mkOutcome true None
                    (withRefs repo (delete oldRefName (<[newRefName := oldHash]> (refs repo))))
                    (Some (withBaseCommit st currentHead))
                    [MovedShadowBranch oldShadowBranch newShadowBranch]
    end.
Proof.
  intros Hhead Hne Hstale. cbv zeta. unfold migrateShadowBranchIfNeeded.
  apply eqs_false in Hne. apply eqs_false in Hstale.
  rewrite Hne, Hhead, Hstale.
  destruct (Reference repo _) as [oldHash|]; [|reflexivity].
  unfold SetReference. destruct (decide (_ ∈ setDenied repo)); [reflexivity|].
  unfold RemoveReference. cbn [removeDenied withRefs refs].
  destruct (decide (_ ∈ removeDenied repo)); reflexivity.
Qed.

End MigrationFacts.

Section MigrationClaims.
Import GoStrings Session Migration.




(** Two commits whose shadow branches have the same name: the
    migration writes the reference and removes it again, and reports
    success; the checkpoints are no longer reachable by name. *)
Lemma migration_on_colliding_names :
  sampleName oldBase "wt" = sampleName lookalikeHead "wt"
  /\ let out := migrateShadowBranchIfNeeded sampleName lookalikeRepo (Some sampleState) in
     migrated out = true /\ err out = None
     /\ Reference lookalikeRepo (NewBranchReferenceName (sampleName oldBase "wt"))
        = Some checkpointCommit
     /\ Reference (repoAfter out) (NewBranchReferenceName (sampleName lookalikeHead "wt"))
        = None.
Proof. vm_compute. auto. Qed.

(** Claim C5, as the code has it. For every session state whose
    recorded [BaseCommit] is non-empty and differs from the live HEAD,
    when the first of two calls in a row returns no error and HEAD does
    not change between the calls: the first call returns [true], the
    second returns [false] without an error and changes nothing, and
    after the first call the shadow branch name of the state is the
    name derived from the live HEAD and the worktree. *)
Theorem migration_idempotent
    (ShadowBranchNameForCommit : string -> string -> string)
    (repo : Repository) (st : SessionState) (currentHead : string) :
  Head repo = Some currentHead ->
  BaseCommit st <> "" ->
  BaseCommit st <> currentHead ->
  let first := migrateShadowBranchIfNeeded ShadowBranchNameForCommit repo (Some st) in
  err first = None ->
  migrated first = true
  /\ Head (repoAfter first) = Some currentHead
  /\ (exists st',
        stateAfter first = Some st'
        /\ shadowBranchOf ShadowBranchNameForCommit st'
           = ShadowBranchNameForCommit currentHead (WorktreeID st))
  /\ (forall repo',
        Head repo' = Some currentHead ->
        let second :=
          migrateShadowBranchIfNeeded ShadowBranchNameForCommit repo' (stateAfter first) in
        migrated second = false /\ err second = None
        /\ stateAfter second = stateAfter first /\ repoAfter second = repo')
  /\ (let '(first', second) :=
        migrateTwice ShadowBranchNameForCommit repo (Some st) in
      migrated first' = true /\ migrated second = false).
Proof.
  intros Hhead Hne Hstale first Herr.
  pose proof (migrate_stale ShadowBranchNameForCommit repo st currentHead Hhead Hne Hstale)
    as E. cbv zeta in E. fold first in E.
  assert (Hfirst : migrated first = true
                   /\ Head (repoAfter first) = Some currentHead
                   /\ stateAfter first = Some (withBaseCommit st currentHead)).
  { destruct (Reference repo _) as [oldHash|].
    - destruct (decide (_ ∈ setDenied repo)).
      + rewrite E in Herr. discriminate.
      + destruct (decide (_ ∈ removeDenied repo)); rewrite E; auto.
    - rewrite E. auto. }
  destruct Hfirst as (Hm & Hh & Hs).
  assert (Hsecond : forall repo', Head repo' = Some currentHead ->
            migrateShadowBranchIfNeeded ShadowBranchNameForCommit repo' (stateAfter first)
            = mkOutcome false None repo' (stateAfter first) []).
  { intros repo' Hh'. rewrite Hs. apply migrate_stable. exact Hh'. }
  split_and!.
  - exact Hm.
  - exact Hh.
  - exists (withBaseCommit st currentHead). split; [exact Hs|reflexivity].
  - intros repo' Hh'. cbv zeta. rewrite (Hsecond repo' Hh'). auto.
  - unfold migrateTwice. fold first. rewrite (Hsecond _ Hh). auto.
Qed.

Lemma migration_idempotent_witness :
  let '(first, second) := migrateTwice sampleName stickyRepo (Some sampleState) in
  migrated first = true /\ migrated second = false.
Proof.
  apply (migration_idempotent sampleName stickyRepo sampleState newHead).
  - reflexivity.
  - discriminate.
  - discriminate.
  - vm_compute. reflexivity.
Defined.

(** Claim C5 as stated does not hold when the storer refuses to write
    the new shadow reference: both calls return [false], and the state
    keeps the old base. *)
Lemma migration_twice_refused_by_storer :
  Head readOnlyRepo = Some newHead
  /\ BaseCommit sampleState <> ""
  /\ BaseCommit sampleState <> newHead
  /\ let '(first, second) := migrateTwice sampleName readOnlyRepo (Some sampleState) in
     migrated first = false
     /\ Head (repoAfter first) = Some newHead
     /\ migrated second = false
     /\ stateAfter first = Some sampleState.
Proof.
  split; [reflexivity|]. split; [discriminate|]. split; [discriminate|].
  vm_compute. auto.
Qed.

End MigrationClaims.

(** ** The concurrency gate *)

Section GateFacts.
Import GoStrings Session SessionStore.

Lemma conflict_entry store sid wt (entry : string * SessionState) :
  In entry (List.filter hasCheckpoints
              (List.filter (sharesContext sid wt) (map_to_list store)))
  <-> fst entry <> sid /\ store !! fst entry = Some (snd entry)
      /\ WorktreeID (snd entry) = wt /\ 0 < CheckpointCount (snd entry).
Proof.
  rewrite !filter_In, <- list_elem_of_In. destruct entry as [k st]. simpl.
  rewrite elem_of_map_to_list. unfold sharesContext, hasCheckpoints. simpl.
  rewrite andb_true_iff, negb_true_iff, eqs_false, eqs_true, Z.ltb_lt. tauto.
Qed.

Lemma detect_conflict store sid wt :
  forall active,
    DetectConcurrentSession store sid wt = (active, true)
    -> conflicting store sid wt active.
Proof.
  intros active. unfold DetectConcurrentSession.
  destruct (List.filter hasCheckpoints _) as [|entry rest] eqn:E.
  - destruct (List.filter (sharesContext sid wt) _); intros [=].
  - intros [= <-]. assert (Hin : In entry (entry :: rest)) by now left.
    rewrite <- E in Hin. apply conflict_entry in Hin as (H1 & H2 & H3 & H4).
    exists (snd entry). auto.
Qed.

Lemma detect_no_conflict store sid wt :
  forall active,
    DetectConcurrentSession store sid wt = (active, false)
    -> forall other, ~ conflicting store sid wt other.
Proof.
  intros active. unfold DetectConcurrentSession.
  destruct (List.filter hasCheckpoints _) as [|entry rest] eqn:E; [|intros [=]].
  intros _ other (st & H1 & H2 & H3 & H4).
  assert (Hin : In (other, st) []); [|destruct Hin].
  rewrite <- E. apply conflict_entry. simpl. auto.
Qed.

Lemma warned_preserved store store' sid :
  store' !! sid = store !! sid -> warned store sid -> warned store' sid.
Proof. intros E (st & H1 & H2). exists st. now rewrite E. Qed.

(** A prompt of a session that has a record proceeds and leaves the
    store as it is. *)
Lemma prompt_of_known_session store sid wt base st :
  store !! sid = Some st ->
  UserPromptSubmit store sid wt base = (mkResponse true "", store).
Proof. intros H. unfold UserPromptSubmit. now rewrite H. Qed.

Lemma prompt_keeps_others store s wt base sid :
  s <> sid -> (UserPromptSubmit store s wt base).2 !! sid = store !! sid.
Proof.
  intros Hne. unfold UserPromptSubmit.
  destruct (store !! s); [reflexivity|].
  destruct (DetectConcurrentSession store s wt) as [active [|]]; simpl;
    now rewrite lookup_insert_ne.
Qed.

(** Once warned, a session stays warned as long as it is not torn
    down, and each of its prompts proceeds. *)
Lemma step_warned store sid e :
  warned store sid -> tearsDown sid e = false ->
  warned (step store e).2 sid
  /\ forall r, (step store e).1 = Some (sid, r) -> Continue r = true.
Proof.
  intros Hw Htd. destruct e as [s wt base|s|s]; simpl.
  - destruct (decide (s = sid)) as [->|Hne].
    + destruct Hw as (st & Hst & Hflag).
      rewrite (prompt_of_known_session _ _ _ _ _ Hst). simpl.
      split; [exists st; auto|]. intros r [= <-]. reflexivity.
    + pose proof (prompt_keeps_others store s wt base sid Hne) as Hk.
      destruct (UserPromptSubmit store s wt base) as [r store']. simpl in *.
      split; [now apply (warned_preserved store)|].
      intros r' [= E _]. congruence.
  - split; [|intros r [=]]. destruct Hw as (st & Hst & Hflag).
    destruct (decide (s = sid)) as [->|Hne].
    + exists (addCheckpoint st). rewrite lookup_alter_eq, Hst. auto.
    + exists st. rewrite lookup_alter_ne by exact Hne. auto.
  - split; [|intros r [=]]. simpl in Htd. apply eqs_false in Htd.
    apply (warned_preserved store); [|exact Hw]. now rewrite lookup_delete_ne.
Qed.

Lemma run_warned events : forall store sid,
  warned store sid ->
  forallb (fun e => negb (tearsDown sid e)) events = true ->
  warned (run store events).2 sid
  /\ forall r, In (sid, r) (run store events).1 -> Continue r = true.
Proof.
  induction events as [|e events IH]; intros store sid Hw Hno.
  - simpl. split; [exact Hw|intros r []].
  - simpl in Hno. apply andb_true_iff in Hno as [He Hrest].
    apply negb_true_iff in He.
    destruct (step_warned store sid e Hw He) as [Hw' Hr].
    simpl. destruct (step store e) as [resp store'] eqn:Es. simpl in *.
    destruct (IH store' sid Hw' Hrest) as [Hfinal Hrs].
    destruct (run store' events) as [rs final]. simpl in *.
    split; [exact Hfinal|]. intros r Hin.
    destruct resp as [[s r']|]; [|now apply Hrs].
    destruct Hin as [[= -> ->]|Hin]; [now apply Hr|now apply Hrs].
Qed.

End GateFacts.

Section GateClaims.
Import GoStrings Session SessionStore.

(** Claim C6. The first prompt of a new session is blocked (continue
    is false with a reason that names the other session, the agent is
    not invoked, and [ConcurrentWarningShown] is set on the state of the
    new session) exactly when another live session that shares the
    context has a positive [CheckpointCount]; a concurrent session with
    zero checkpoints never triggers the block; and once
    [ConcurrentWarningShown] is set, every later prompt of the session
    proceeds, whatever happens to the other sessions. *)
Theorem concurrency_gate
    (store : gmap string SessionState) (sessionID worktreeID baseCommit : string) :
  (store !! sessionID = None ->
   let '(r, store') := UserPromptSubmit store sessionID worktreeID baseCommit in
   (Continue r = false <-> exists other, conflicting store sessionID worktreeID other)
   /\ (Continue r = false ->
       agentInvoked r = false
       /\ warned store' sessionID
       /\ exists other,
            conflicting store sessionID worktreeID other
            /\ StopReason r = "Another session is active: " +:+ other)
   /\ (Continue r = true -> agentInvoked r = true /\ ~ warned store' sessionID)
   /\ ((forall other state, store !! other = Some state -> CheckpointCount state = 0) ->
       Continue r = true))
  /\ (warned store sessionID ->
      forall events : list Event,
        forallb (fun e => negb (tearsDown sessionID e)) events = true ->
        let '(responses, final) := run store events in
        warned final sessionID
        /\ forall r, In (sessionID, r) responses -> Continue r = true /\ agentInvoked r = true).
Proof.
  split.
  - intros Hnew. unfold UserPromptSubmit. rewrite Hnew.
    destruct (DetectConcurrentSession store sessionID worktreeID) as [active [|]] eqn:E.
    + pose proof (detect_conflict _ _ _ _ E) as Hc.
      cbn [Continue StopReason agentInvoked]. split_and!.
      * split; [intros _; now exists active|reflexivity].
      * intros _. split_and!; [reflexivity| |now exists active].
        eexists. rewrite lookup_insert_eq. split; reflexivity.
      * discriminate.
      * intros Hzero. destruct Hc as (st & _ & Hst & _ & Hpos).
        rewrite (Hzero _ _ Hst) in Hpos. lia.
    + pose proof (detect_no_conflict _ _ _ _ E) as Hn.
      cbn [Continue StopReason agentInvoked]. split_and!.
      * split; [discriminate|]. intros [other Hc]. destruct (Hn other Hc).
      * discriminate.
      * intros _. split; [reflexivity|]. intros (st & Hst & Hflag).
        rewrite lookup_insert_eq in Hst. injection Hst as <-. discriminate.
      * reflexivity.
  - intros Hw events Hno.
    destruct (run_warned events store sessionID Hw Hno) as [Hfinal Hrs].
    destruct (run store events) as [responses final]. simpl in *.
    split; [exact Hfinal|]. intros r Hin. unfold agentInvoked.
    now rewrite (Hrs r Hin).
Qed.

Lemma concurrency_gate_witness :
  let '(r, store') := UserPromptSubmit (storeA 1) "session-b" "wt" "base" in
  Continue r = false
  /\ agentInvoked r = false
  /\ StopReason r = "Another session is active: session-a"
  /\ warned store' "session-b"
  /\ let '(responses, final) :=
       run store' [Checkpoint "session-a"; Prompt "session-b" "wt" "base";
                   TearDown "session-a"; Prompt "session-b" "wt" "base"] in
     warned final "session-b"
     /\ forall r, In ("session-b", r) responses -> Continue r = true /\ agentInvoked r = true.
Proof.
  pose proof (concurrency_gate (storeA 1) "session-b" "wt" "base") as [Hfirst _].
  specialize (Hfirst ltac:(vm_compute; reflexivity)).
  destruct (UserPromptSubmit (storeA 1) "session-b" "wt" "base") as [r store'] eqn:E.
  assert (Hr : r = mkResponse false "Another session is active: session-a").
  { vm_compute in E. now injection E as <- _. }
  destruct Hfirst as (_ & Hblocked & _). subst r.
  destruct (Hblocked ltac:(reflexivity)) as (Hagent & Hwarned & _).
  split_and!; try reflexivity; try assumption.
  pose proof (concurrency_gate store' "session-b" "wt" "base") as [_ Hlater].
  apply (Hlater Hwarned). vm_compute. reflexivity.
Defined.

End GateClaims.

(** ** Checkpoint identifiers *)

Section IdentityFacts.
Import GoStrings CheckpointID.

Lemma hexByte_lower b : allLowerHex (hexByte b) = true.
Proof. destruct b as [[] [] [] [] [] [] [] []]; vm_compute; reflexivity. Qed.

Lemma allLowerHex_app s t :
  allLowerHex (s +:+ t) = allLowerHex s && allLowerHex t.
Proof.
  induction s as [|c s IH]; [reflexivity|].
  rewrite sapp_cons. simpl. rewrite IH. now rewrite andb_assoc.
Qed.

Lemma length_sapp s t : String.length (s +:+ t) = (String.length s + String.length t)%nat.
Proof. induction s as [|c s IH]; [reflexivity|]. rewrite sapp_cons. simpl. now rewrite IH. Qed.

Lemma hexEncode_lower bytes : allLowerHex (hexEncode bytes) = true.
Proof.
  induction bytes as [|b bytes IH]; [reflexivity|].
  change (hexEncode (b :: bytes)) with (hexByte b +:+ hexEncode bytes).
  now rewrite allLowerHex_app, hexByte_lower, IH.
Qed.

Lemma hexEncode_length bytes :
  String.length (hexEncode bytes) = (2 * length bytes)%nat.
Proof.
  induction bytes as [|b bytes IH]; [reflexivity|].
  change (hexEncode (b :: bytes)) with (hexByte b +:+ hexEncode bytes).
  rewrite length_sapp, IH. simpl. lia.
Qed.

Lemma prefix_drop n s : prefix n s +:+ drop n s = s.
Proof.
  revert s. induction n as [|n IH]; intros [|c s]; try reflexivity.
  unfold prefix in *. simpl. rewrite sapp_cons. now rewrite IH.
Qed.

Lemma prefix_length n s :
  (n <= String.length s)%nat -> String.length (prefix n s) = n.
Proof.
  revert s. induction n as [|n IH]; intros [|c s] H; simpl in *; try reflexivity; try lia.
  unfold prefix in *. simpl. rewrite IH; [reflexivity|lia].
Qed.

Lemma drop_length n s : String.length (drop n s) = (String.length s - n)%nat.
Proof. revert s. induction n as [|n IH]; intros [|c s]; simpl; auto. Qed.

(** The cases of the tests of the identifier package. *)
Example identifier_tests :
  Path "a1b2c3d4e5f6" = "a1/b2c3d4e5f6"
  /\ Path "abcdef123456" = "ab/cdef123456"
  /\ Path "" = "" /\ Path "a" = "a" /\ Path "ab" = "ab" /\ Path "abc" = "ab/c"
  /\ IsEmpty EmptyCheckpointID = true /\ IsEmpty "a1b2c3d4e5f6" = false
  /\ NewCheckpointID "a1b2c3d4e5f6" = inr "a1b2c3d4e5f6"
  /\ NewCheckpointID "a1b2c3" = inl InvalidFormatError
  /\ NewCheckpointID "a1b2c3d4e5f6789012" = inl InvalidFormatError
  /\ NewCheckpointID "a1b2c3d4e5gg" = inl InvalidFormatError
  /\ NewCheckpointID "" = inl InvalidFormatError.
Proof. vm_compute. repeat split. Qed.

End IdentityFacts.

Section IdentityClaims.
Import GoStrings CheckpointID.

(** Claim C10. Every generated identifier is a string of 12
    lower-case hexadecimal characters and parses back to itself
    ([Parse (String id) = id]), and the generator succeeds on 6 bytes
    of entropy; [Path] of a string of length at least 3 is
    [s[0:2] + "/" + s[2:]], for a 12-character identifier the first 2
    characters, a slash and the remaining 10; [Path] of a shorter
    string is the string unchanged. *)
Theorem checkpoint_identity :
  (forall entropy id,
      Generate entropy = inr id ->
      String.length (String_ id) = 12%nat
      /\ allLowerHex (String_ id) = true
      /\ Parse (String_ id) = inr id)
  /\ (forall bytes, length bytes = 6%nat -> exists id, Generate (Some bytes) = inr id)
  /\ (forall s, (3 <= String.length s)%nat -> Path s = prefix 2 s +:+ "/" +:+ drop 2 s)
  /\ (forall s, String.length s = 12%nat ->
                Path s = prefix 2 s +:+ "/" +:+ drop 2 s
                /\ String.length (prefix 2 s) = 2%nat
                /\ String.length (drop 2 s) = 10%nat
                /\ prefix 2 s +:+ drop 2 s = s)
  /\ (forall s, (String.length s < 3)%nat -> Path s = s).
Proof.
  assert (Hpath : forall s, (3 <= String.length s)%nat ->
                            Path s = prefix 2 s +:+ "/" +:+ drop 2 s).
  { intros s H. unfold Path. apply Nat.leb_le in H. now rewrite H. }
  split_and!.
  - intros entropy id. unfold Generate, String_.
    destruct entropy as [bytes|]; [|discriminate].
    destruct (Nat.eqb (length bytes) 6) eqn:E; [|discriminate].
    apply Nat.eqb_eq in E. intros [= <-].
    assert (Hlen : String.length (hexEncode bytes) = 12%nat)
      by (rewrite hexEncode_length, E; reflexivity).
    split_and!; [exact Hlen|apply hexEncode_lower|].
    unfold Parse, NewCheckpointID. now rewrite Hlen, hexEncode_lower.
  - intros bytes H. unfold Generate. rewrite H. eauto.
  - exact Hpath.
  - intros s H. split_and!.
    + apply Hpath. lia.
    + apply prefix_length. lia.
    + rewrite drop_length. lia.
    + apply prefix_drop.
  - intros s H. unfold Path. apply Nat.leb_gt in H. now rewrite H.
Qed.

Lemma checkpoint_identity_witness :
  exists id,
    Generate (Some ["161"; "178"; "195"; "212"; "229"; "246"]%char) = inr id
    /\ id = "a1b2c3d4e5f6"
    /\ Parse (String_ id) = inr id
    /\ Path id = "a1/b2c3d4e5f6".
Proof.
  destruct checkpoint_identity as (Hgen & Hsome & Hpath & _).
  destruct (Hsome ["161"; "178"; "195"; "212"; "229"; "246"]%char eq_refl) as [id Hid].
  exists id. destruct (Hgen _ _ Hid) as (Hlen & _ & Hparse).
  assert (E : id = "a1b2c3d4e5f6") by (vm_compute in Hid; now injection Hid).
  split_and!; [exact Hid|exact E|exact Hparse|].
  rewrite Hpath by (unfold String_ in Hlen; lia). subst id. reflexivity.
Defined.

End IdentityClaims.


(** * Further properties of the code *)

(** ** Line counting and file contents *)

Section LineCountingProperties.
Import GoStrings Attribution AttributionSpec.

Lemma splitLines_nil s : splitLines s = [] <-> s = "".
Proof.
  split; [|intros ->; reflexivity].
  destruct s as [|c s]; [reflexivity|]. simpl.
  destruct (Ascii.eqb c newline); [discriminate|].
  destruct (splitLines s); discriminate.
Qed.

Lemma splitLines_length_le s : (length (splitLines s) <= String.length s)%nat.
Proof.
  induction s as [|c s IH]; simpl; [lia|].
  destruct (Ascii.eqb c newline); simpl; [lia|].
  destruct (splitLines s) as [|l ls] eqn:E; simpl in *; lia.
Qed.

(** Property X1. The two line counters of the attribution code,
    [countLinesInText] for a segment of a diff and [countLinesStr] for a
    content, compute the same number on every string. *)
Theorem line_counters_agree (text : string) :
  countLinesInText text = countLinesStr text.
Proof. apply countLinesInText_countLinesStr. Qed.

(** Property X2. [countLinesStr] is 0 exactly on the empty string, and
    a content never has more lines than bytes. *)
Theorem countLinesStr_zero_and_bound (content : string) :
  (countLinesStr content = 0 <-> content = "")
  /\ 0 <= countLinesStr content <= Z.of_nat (String.length content).
Proof.
  rewrite countLinesStr_splitLines. split.
  - rewrite <- splitLines_nil. destruct (splitLines content); simpl; split;
      intros H; try reflexivity; try discriminate; lia.
  - pose proof (splitLines_length_le content). lia.
Qed.

(** Property X3. The lines of a concatenation of two non-empty
    contents: the counts add up when the first content ends with a
    newline, and otherwise its last line and the first line of the
    second content merge into one. *)
Theorem countLinesStr_app (a b : string) :
  a <> "" -> b <> "" ->
  countLinesStr (a +:+ b)
  = countLinesStr a + countLinesStr b - (if HasSuffix_nl a then 0 else 1).
Proof.
  intros Ha Hb. unfold countLinesStr.
  assert (Hab : a +:+ b <> "") by (intros E; apply sapp_eq_empty in E; tauto).
  apply eqs_false in Ha, Hb, Hab. rewrite Ha, Hb, Hab.
  rewrite Count_nl_app, HasSuffix_nl_app by (now apply eqs_false).
  destruct (HasSuffix_nl a), (HasSuffix_nl b); simpl; lia.
Qed.

Lemma countLinesStr_app_witness :
  countLinesStr (testThreeLines +:+ text_a_b) = 3 + 2 - 0
  /\ countLinesStr (text_a_b +:+ testThreeLines) = 2 + 3 - 1.
Proof.
  split.
  - apply (countLinesStr_app testThreeLines text_a_b); discriminate.
  - apply (countLinesStr_app text_a_b testThreeLines); discriminate.
Defined.

(** Property X4. [getFileContent] never hands out binary content: what
    it returns holds no NUL byte, and when it is not empty it is the
    content stored in the tree under that path. *)
Theorem getFileContent_text_only (tree : option (gmap string File)) (path : string) :
  Contains_nul (getFileContent tree path) = false
  /\ (getFileContent tree path <> "" ->
      exists t file,
        tree = Some t /\ t !! path = Some file
        /\ Contents file = Some (getFileContent tree path)).
Proof.
  unfold getFileContent.
  destruct tree as [t|]; [|split; [reflexivity|congruence]].
  destruct (t !! path) as [file|] eqn:Ef; [|split; [reflexivity|congruence]].
  destruct (Contents file) as [content|] eqn:Ec; [|split; [reflexivity|congruence]].
  destruct (Contains_nul content) eqn:En; [split; [reflexivity|congruence]|].
  split; [exact En|]. intros _. exists t, file. auto.
Qed.

Lemma getFileContent_text_only_witness :
  getFileContent sampleBaseTree sampleFile = testThreeLines
  /\ exists t file,
       sampleBaseTree = Some t /\ t !! sampleFile = Some file
       /\ Contents file = Some (getFileContent sampleBaseTree sampleFile).
Proof.
  split; [vm_compute; reflexivity|].
  apply (getFileContent_text_only sampleBaseTree sampleFile).
  vm_compute. discriminate.
Defined.

(** Property X5. Whatever segments the diff library answers, none of
    the three counts of [diffLines] is negative. *)
Theorem diffLines_counts_nonneg (dmpLineDiff : string -> string -> list Diff)
    (a b : string) :
  let '(unchanged, added, removed) := diffLines dmpLineDiff a b in
  0 <= unchanged /\ 0 <= added /\ 0 <= removed.
Proof.
  destruct (diffLines_nonneg dmpLineDiff a b) as (u & ad & r & -> & H). exact H.
Qed.

End LineCountingProperties.

(** ** Invariants of [CalculateAttribution] *)

Section AttributionProperties.
Import GoStrings Attribution AttributionSpec.

Variable dmpLineDiff : string -> string -> list Diff.
Variables baseTree checkpointTree committedTree : option (gmap string File).

#[local] Abbreviation contributionOf := (contributionOf dmpLineDiff baseTree checkpointTree committedTree).
#[local] Abbreviation changed := (changed baseTree committedTree).
#[local] Abbreviation aggregate := (aggregate dmpLineDiff baseTree checkpointTree committedTree).
#[local] Abbreviation Calculate := (CalculateAttribution dmpLineDiff).

Lemma contribution_nonneg f :
  0 <= pureHumanAdded (contributionOf f)
  /\ 0 <= humanModified (contributionOf f)
  /\ 0 <= actualHumanRemoved (contributionOf f)
  /\ 0 <= commitAdded (contributionOf f).
Proof.
  unfold AttributionSpec.contributionOf, contribution.
  destruct (diffLines_nonneg dmpLineDiff (getFileContent baseTree f) (getFileContent committedTree f))
    as (u1 & a1 & r1 & -> & _ & Ha1 & _).
  destruct (diffLines_nonneg dmpLineDiff (getFileContent checkpointTree f) (getFileContent committedTree f))
    as (u2 & a2 & r2 & -> & _ & Ha2 & Hr2).
  unfold clamp. simpl. lia.
Qed.

(** Two components that agree on the touched files that changed have
    the same sum, and a sum of ordered components is ordered. *)
Lemma aggregate_ext g h files :
  (forall f, In f files -> changed f = true -> g (contributionOf f) = h (contributionOf f)) ->
  aggregate g files = aggregate h files.
Proof.
  induction files as [|f files IH]; intros H; [reflexivity|].
  rewrite !aggregate_cons. rewrite IH by (intros; apply H; [now right|assumption]).
  destruct (changed f) eqn:E; [|reflexivity]. rewrite H; [reflexivity|now left|exact E].
Qed.

Lemma aggregate_le g h files :
  (forall f, g (contributionOf f) <= h (contributionOf f)) ->
  aggregate g files <= aggregate h files.
Proof.
  intros H. induction files as [|f files IH]; [rewrite !aggregate_nil; lia|].
  rewrite !aggregate_cons. specialize (H f). destruct (changed f); lia.
Qed.

Lemma aggregate_zero files : aggregate (fun _ => 0) files = 0.
Proof.
  induction files as [|f files IH]; [reflexivity|].
  rewrite aggregate_cons, IH. destruct (changed f); reflexivity.
Qed.

Lemma aggregate_add g h files :
  aggregate (fun c => g c + h c) files = aggregate g files + aggregate h files.
Proof.
  induction files as [|f files IH]; [reflexivity|].
  rewrite !aggregate_cons, IH. destruct (changed f); lia.
Qed.

Lemma aggregate_app g files files' :
  aggregate g (files ++ files') = aggregate g files + aggregate g files'.
Proof.
  induction files as [|f files IH]; [rewrite aggregate_nil; reflexivity|].
  change ((f :: files) ++ files')%list with (f :: (files ++ files'))%list.
  rewrite !aggregate_cons, IH. lia.
Qed.

Lemma aggregate_Permutation g files files' :
  files ≡ₚ files' -> aggregate g files = aggregate g files'.
Proof.
  induction 1 as [|f l l' _ IH|f f' l|l l' l'' _ IH1 _ IH2].
  - reflexivity.
  - rewrite !aggregate_cons, IH. reflexivity.
  - rewrite !aggregate_cons. lia.
  - congruence.
Qed.

(** The committed total is the sum of the added lines: when the commit
    adds none, the agent's lines are none either. *)
Lemma totalInCommit_commitAdded files :
  totalInCommit dmpLineDiff baseTree checkpointTree committedTree files
  = aggregate commitAdded files.
Proof.
  unfold totalInCommit.
  pose proof (aggregate_bounds dmpLineDiff baseTree checkpointTree committedTree files).
  destruct (Z.eqb_spec (aggregate commitAdded files) 0); lia.
Qed.

(** The result of a call on a non-empty list, by its totals. *)
Lemma Calculate_result now files :
  files <> [] ->
  exists r,
    Calculate now baseTree checkpointTree committedTree files = Some r
    /\ CalculatedAt r = now
    /\ AgentLines r = aggregate agentAdded files
    /\ HumanAdded r = aggregate pureHumanAdded files
    /\ HumanModified r = aggregate humanModified files
    /\ HumanRemoved r = aggregate actualHumanRemoved files
    /\ TotalCommitted r = aggregate commitAdded files
    /\ AgentPercentage r
       = if 0 <? aggregate commitAdded files
         then Float64.mul
                (Float64.div (Float64.of_int (aggregate agentAdded files))
                             (Float64.of_int (aggregate commitAdded files)))
                (Float64.of_int 100)
         else Float64.zero.
Proof.
  intros Hne. eexists. split; [apply CalculateAttribution_some, Hne|].
  cbn [CalculatedAt AgentLines HumanAdded HumanModified HumanRemoved TotalCommitted
       AgentPercentage].
  rewrite !totalInCommit_commitAdded. auto 10.
Qed.

End AttributionProperties.

Section AttributionExtras.
Import GoStrings Attribution AttributionSpec.

Lemma diffLines_same dmpLineDiff a : diffLines dmpLineDiff a a = (countLinesStr a, 0, 0).
Proof. unfold diffLines. now rewrite eqs_refl. Qed.

(** Property X6. On a non-empty list of touched files and whatever the
    diff library answers, no count of the result is negative, the
    agent's lines never exceed the committed total, and the committed
    total is the number of lines that the commit adds, so that the
    agent has no line, and the percentage is [+0], when the commit adds
    none. *)
Theorem attribution_counts_invariant
    (dmpLineDiff : string -> string -> list Diff) (now : Z)
    (baseTree checkpointTree committedTree : option (gmap string File))
    (filesTouched : list string) :
  filesTouched <> [] ->
  exists r,
    CalculateAttribution dmpLineDiff now baseTree checkpointTree committedTree filesTouched
    = Some r
    /\ CalculatedAt r = now
    /\ 0 <= AgentLines r <= TotalCommitted r
    /\ 0 <= HumanAdded r /\ 0 <= HumanModified r /\ 0 <= HumanRemoved r
    /\ TotalCommitted r
       = aggregate dmpLineDiff baseTree checkpointTree committedTree commitAdded filesTouched
    /\ (TotalCommitted r = 0 -> AgentLines r = 0 /\ AgentPercentage r = Float64.zero).
Proof.
  intros Hne.
  destruct (Calculate_result dmpLineDiff baseTree checkpointTree committedTree now
              filesTouched Hne) as (r & E & Hat & Ha & Hh & Hm & Hr & Ht & Hp).
  exists r. split; [exact E|]. split; [exact Hat|].
  pose proof (aggregate_bounds dmpLineDiff baseTree checkpointTree committedTree filesTouched).
  pose proof (fun g Hg =>
    aggregate_le dmpLineDiff baseTree checkpointTree committedTree (fun _ => 0) g
      filesTouched Hg) as Hpos.
  rewrite aggregate_zero in Hpos.
  rewrite Ha, Hh, Hm, Hr, Ht. split_and!; try lia.
  - apply Hpos. intros f. apply contribution_nonneg.
  - apply Hpos. intros f. apply contribution_nonneg.
  - apply Hpos. intros f. apply contribution_nonneg.
  - intros Hz. split; [lia|]. rewrite Hp, Hz. reflexivity.
Qed.

Lemma attribution_counts_invariant_witness :
  exists r,
    CalculateAttribution lcsLineDiff 7 sampleBaseTree sampleCheckpointTree
      sampleCommittedTree [sampleFile] = Some r
    /\ CalculatedAt r = 7 /\ 0 <= AgentLines r <= TotalCommitted r.
Proof.
  destruct (attribution_counts_invariant lcsLineDiff 7 sampleBaseTree sampleCheckpointTree
              sampleCommittedTree [sampleFile] ltac:(discriminate))
    as (r & E & H1 & H2 & _).
  exists r. auto.
Defined.

(** Property X7. When the user changed nothing after the last
    checkpoint (on every touched file the checkpoint content is the
    committed content), every added line goes to the agent: the human
    counts are 0, the agent's lines are the committed total, and the
    percentage is exactly 100 as soon as the commit adds a line (the
    total being within the range of [int]). *)
Theorem no_human_edit_all_agent
    (dmpLineDiff : string -> string -> list Diff) (now : Z)
    (baseTree checkpointTree committedTree : option (gmap string File))
    (filesTouched : list string) :
  filesTouched <> [] ->
  (forall f, In f filesTouched ->
             getFileContent checkpointTree f = getFileContent committedTree f) ->
  exists r,
    CalculateAttribution dmpLineDiff now baseTree checkpointTree committedTree filesTouched
    = Some r
    /\ HumanAdded r = 0 /\ HumanModified r = 0 /\ HumanRemoved r = 0
    /\ AgentLines r = TotalCommitted r
    /\ (0 < TotalCommitted r < 2 ^ 63 -> AgentPercentage r = Float64.of_int 100).
Proof.
  intros Hne Hsame.
  destruct (Calculate_result dmpLineDiff baseTree checkpointTree committedTree now
              filesTouched Hne) as (r & E & _ & Ha & Hh & Hm & Hr & Ht & Hp).
  assert (Hfile : forall f, In f filesTouched ->
            let c := contributionOf dmpLineDiff baseTree checkpointTree committedTree f in
            pureHumanAdded c = 0 /\ humanModified c = 0 /\ actualHumanRemoved c = 0
            /\ agentAdded c = commitAdded c).
  { intros f Hf. unfold contributionOf, contribution. rewrite (Hsame f Hf), diffLines_same.
    destruct (diffLines_nonneg dmpLineDiff (getFileContent baseTree f)
                (getFileContent committedTree f)) as (u & a & rm & -> & _ & Hnn & _).
    unfold clamp. simpl. lia. }
  exists r. split; [exact E|].
  assert (Ezero : forall g,
            (forall f, In f filesTouched ->
               g (contributionOf dmpLineDiff baseTree checkpointTree committedTree f) = 0) ->
            aggregate dmpLineDiff baseTree checkpointTree committedTree g filesTouched = 0).
  { intros g Hg. rewrite <- (aggregate_zero dmpLineDiff baseTree checkpointTree committedTree
                              filesTouched).
    apply aggregate_ext. intros f Hf _. now apply Hg. }
  assert (Eagent : aggregate dmpLineDiff baseTree checkpointTree committedTree agentAdded
                     filesTouched
                   = aggregate dmpLineDiff baseTree checkpointTree committedTree commitAdded
                       filesTouched).
  { apply aggregate_ext. intros f Hf _. apply (Hfile f Hf). }
  rewrite Hh, Hm, Hr, Ha, Ht. split_and!.
  - apply Ezero. intros f Hf. apply (Hfile f Hf).
  - apply Ezero. intros f Hf. apply (Hfile f Hf).
  - apply Ezero. intros f Hf. apply (Hfile f Hf).
  - exact Eagent.
  - intros Hpos. rewrite Hp, Eagent.
    destruct (Z.ltb_spec 0 (aggregate dmpLineDiff baseTree checkpointTree committedTree
                              commitAdded filesTouched)); [|lia].
    apply percentage_of_whole. exact Hpos.
Qed.

Lemma no_human_edit_all_agent_witness :
  exists r,
    CalculateAttribution lcsLineDiff 0 sampleBaseTree sampleCheckpointTree
      sampleCheckpointTree [sampleFile] = Some r
    /\ HumanAdded r = 0 /\ HumanModified r = 0 /\ HumanRemoved r = 0
    /\ AgentLines r = TotalCommitted r
    /\ AgentPercentage r = S754_finite false 7036874417766400 (-46).
Proof.
  destruct (no_human_edit_all_agent lcsLineDiff 0 sampleBaseTree sampleCheckpointTree
              sampleCheckpointTree [sampleFile] ltac:(discriminate) ltac:(reflexivity))
    as (r & E & H1 & H2 & H3 & H4 & H5).
  exists r. split_and!; try assumption.
  apply H5. rewrite <- H4.
  assert (Er : AgentLines <$> Some r = Some 2) by (rewrite <- E; vm_compute; reflexivity).
  injection Er as ->. lia.
Defined.

(** Property X8. When the agent changed nothing (on every touched file
    the checkpoint content is the base content), no line goes to the
    agent: its lines are 0 and its percentage is [+0], and the lines
    that the human added or modified make up the committed total. *)
Theorem no_agent_work_all_human
    (dmpLineDiff : string -> string -> list Diff) (now : Z)
    (baseTree checkpointTree committedTree : option (gmap string File))
    (filesTouched : list string) :
  filesTouched <> [] ->
  (forall f, In f filesTouched ->
             getFileContent checkpointTree f = getFileContent baseTree f) ->
  exists r,
    CalculateAttribution dmpLineDiff now baseTree checkpointTree committedTree filesTouched
    = Some r
    /\ AgentLines r = 0
    /\ AgentPercentage r = Float64.zero
    /\ HumanAdded r + HumanModified r = TotalCommitted r.
Proof.
  intros Hne Hsame.
  destruct (Calculate_result dmpLineDiff baseTree checkpointTree committedTree now
              filesTouched Hne) as (r & E & _ & Ha & Hh & Hm & Hr & Ht & Hp).
  assert (Hfile : forall f, In f filesTouched ->
            let c := contributionOf dmpLineDiff baseTree checkpointTree committedTree f in
            agentAdded c = 0 /\ pureHumanAdded c + humanModified c = commitAdded c).
  { intros f Hf. unfold contributionOf, contribution. rewrite (Hsame f Hf).
    destruct (diffLines dmpLineDiff (getFileContent baseTree f)
                (getFileContent committedTree f)) as [[u a] rm].
    simpl. lia. }
  assert (Ezero : aggregate dmpLineDiff baseTree checkpointTree committedTree agentAdded
                    filesTouched = 0).
  { rewrite <- (aggregate_zero dmpLineDiff baseTree checkpointTree committedTree filesTouched).
    apply aggregate_ext. intros f Hf _. apply (Hfile f Hf). }
  exists r. split; [exact E|]. rewrite Ha, Hh, Hm, Ht, Hp, Ezero. split_and!.
  - reflexivity.
  - destruct (Z.ltb_spec 0 (aggregate dmpLineDiff baseTree checkpointTree committedTree
                              commitAdded filesTouched)); [|reflexivity].
    apply percentage_of_nothing. assumption.
  - rewrite <- aggregate_add. apply aggregate_ext. intros f Hf _. apply (Hfile f Hf).
Qed.

Lemma no_agent_work_all_human_witness :
  exists r,
    CalculateAttribution lcsLineDiff 0 sampleBaseTree sampleBaseTree
      sampleCommittedTree [sampleFile] = Some r
    /\ AgentLines r = 0
    /\ AgentPercentage r = Float64.zero
    /\ HumanAdded r + HumanModified r = TotalCommitted r.
Proof.
  apply (no_agent_work_all_human lcsLineDiff 0 sampleBaseTree sampleBaseTree
           sampleCommittedTree [sampleFile]); [discriminate|reflexivity].
Defined.

(** Property X9. The result does not depend on the order in which the
    touched files are listed. *)
Theorem attribution_order_irrelevant
    (dmpLineDiff : string -> string -> list Diff) (now : Z)
    (baseTree checkpointTree committedTree : option (gmap string File))
    (filesTouched filesTouched' : list string) :
  filesTouched ≡ₚ filesTouched' ->
  CalculateAttribution dmpLineDiff now baseTree checkpointTree committedTree filesTouched
  = CalculateAttribution dmpLineDiff now baseTree checkpointTree committedTree filesTouched'.
Proof.
  intros Hp. destruct filesTouched as [|f fs].
  - apply Permutation_nil in Hp. now subst.
  - assert (Hne : filesTouched' <> []).
    { intros ->. symmetry in Hp. apply Permutation_nil in Hp. discriminate. }
    rewrite !CalculateAttribution_some by (assumption || discriminate).
    unfold totalInCommit.
    now rewrite !(aggregate_Permutation dmpLineDiff baseTree checkpointTree committedTree _
                    _ _ Hp).
Qed.

Lemma attribution_order_irrelevant_witness :
  CalculateAttribution lcsLineDiff 0 sampleBaseTree sampleCheckpointTree sampleCommittedTree
    [sampleFile; "README.md"]
  = CalculateAttribution lcsLineDiff 0 sampleBaseTree sampleCheckpointTree sampleCommittedTree
      ["README.md"; sampleFile].
Proof.
  apply (attribution_order_irrelevant lcsLineDiff 0 sampleBaseTree sampleCheckpointTree
           sampleCommittedTree [sampleFile; "README.md"] ["README.md"; sampleFile]).
  apply Permutation_swap.
Defined.

(** Property X10. The counts of two non-empty lists of touched files
    add up on their concatenation: a file is counted once for each time
    it is listed. *)
Theorem attribution_of_concatenation
    (dmpLineDiff : string -> string -> list Diff) (now : Z)
    (baseTree checkpointTree committedTree : option (gmap string File))
    (files files' : list string) :
  files <> [] -> files' <> [] ->
  exists r r' both,
    CalculateAttribution dmpLineDiff now baseTree checkpointTree committedTree files = Some r
    /\ CalculateAttribution dmpLineDiff now baseTree checkpointTree committedTree files'
       = Some r'
    /\ CalculateAttribution dmpLineDiff now baseTree checkpointTree committedTree
         (files ++ files') = Some both
    /\ AgentLines both = AgentLines r + AgentLines r'
    /\ HumanAdded both = HumanAdded r + HumanAdded r'
    /\ HumanModified both = HumanModified r + HumanModified r'
    /\ HumanRemoved both = HumanRemoved r + HumanRemoved r'
    /\ TotalCommitted both = TotalCommitted r + TotalCommitted r'.
Proof.
  intros Hne Hne'.
  assert (Hboth : (files ++ files')%list <> []) by (destruct files; [congruence|discriminate]).
  destruct (Calculate_result dmpLineDiff baseTree checkpointTree committedTree now
              files Hne) as (r & E & _ & Ha & Hh & Hm & Hr & Ht & _).
  destruct (Calculate_result dmpLineDiff baseTree checkpointTree committedTree now
              files' Hne') as (r' & E' & _ & Ha' & Hh' & Hm' & Hr' & Ht' & _).
  destruct (Calculate_result dmpLineDiff baseTree checkpointTree committedTree now
              _ Hboth) as (b & Eb & _ & Hab & Hhb & Hmb & Hrb & Htb & _).
  exists r, r', b. rewrite Ha, Hh, Hm, Hr, Ht, Ha', Hh', Hm', Hr', Ht', Hab, Hhb, Hmb, Hrb, Htb.
  rewrite !aggregate_app. auto 10.
Qed.

Lemma attribution_of_concatenation_witness :
  exists r both,
    CalculateAttribution lcsLineDiff 0 sampleBaseTree sampleCheckpointTree sampleCommittedTree
      [sampleFile] = Some r
    /\ CalculateAttribution lcsLineDiff 0 sampleBaseTree sampleCheckpointTree
         sampleCommittedTree [sampleFile; sampleFile] = Some both
    /\ AgentLines both = AgentLines r + AgentLines r
    /\ TotalCommitted both = TotalCommitted r + TotalCommitted r.
Proof.
  destruct (attribution_of_concatenation lcsLineDiff 0 sampleBaseTree sampleCheckpointTree
              sampleCommittedTree [sampleFile] [sampleFile]
              ltac:(discriminate) ltac:(discriminate))
    as (r & r' & both & E & E' & Eb & Ha & _ & _ & _ & Ht).
  assert (r' = r) by congruence. subst r'.
  exists r, both. auto.
Defined.

(** Property X11. A touched file whose base content is its committed
    content (unchanged, missing from both trees, or binary in both)
    does not count: listing it besides other files changes nothing. *)
Theorem unchanged_file_ignored
    (dmpLineDiff : string -> string -> list Diff) (now : Z)
    (baseTree checkpointTree committedTree : option (gmap string File))
    (f : string) (filesTouched : list string) :
  filesTouched <> [] ->
  getFileContent baseTree f = getFileContent committedTree f ->
  CalculateAttribution dmpLineDiff now baseTree checkpointTree committedTree
    (f :: filesTouched)
  = CalculateAttribution dmpLineDiff now baseTree checkpointTree committedTree filesTouched.
Proof.
  intros Hne Hsame.
  rewrite !CalculateAttribution_some by (assumption || discriminate).
  unfold totalInCommit. rewrite !aggregate_cons.
  replace (changed baseTree committedTree f) with false; [reflexivity|].
  symmetry. unfold changed. apply negb_false_iff, eqs_true, Hsame.
Qed.

Lemma unchanged_file_ignored_witness :
  CalculateAttribution lcsLineDiff 0 sampleBaseTree sampleCheckpointTree sampleCommittedTree
    ["README.md"; sampleFile]
  = CalculateAttribution lcsLineDiff 0 sampleBaseTree sampleCheckpointTree sampleCommittedTree
      [sampleFile].
Proof.
  apply (unchanged_file_ignored lcsLineDiff 0 sampleBaseTree sampleCheckpointTree
           sampleCommittedTree "README.md" [sampleFile]); [discriminate|reflexivity].
Defined.

(** Property X12. Removals that the agent made are not charged to the
    human: when, on every touched file that changed, the lines that the
    commit removes are no more than the lines by which the checkpoint
    is shorter than the base, [HumanRemoved] is 0. *)
Theorem agent_removals_not_charged
    (dmpLineDiff : string -> string -> list Diff) (now : Z)
    (baseTree checkpointTree committedTree : option (gmap string File))
    (filesTouched : list string) :
  filesTouched <> [] ->
  (forall f, In f filesTouched ->
     getFileContent baseTree f <> getFileContent committedTree f ->
     (diffLines dmpLineDiff (getFileContent baseTree f) (getFileContent committedTree f)).2
     <= countLinesStr (getFileContent baseTree f)
        - countLinesStr (getFileContent checkpointTree f)) ->
  exists r,
    CalculateAttribution dmpLineDiff now baseTree checkpointTree committedTree filesTouched
    = Some r
    /\ HumanRemoved r = 0.
Proof.
  intros Hne Hagent.
  destruct (Calculate_result dmpLineDiff baseTree checkpointTree committedTree now
              filesTouched Hne) as (r & E & _ & _ & _ & _ & Hr & _).
  exists r. split; [exact E|]. rewrite Hr.
  rewrite <- (aggregate_zero dmpLineDiff baseTree checkpointTree committedTree filesTouched).
  apply aggregate_ext. intros f Hf Hch.
  assert (Hdiff : getFileContent baseTree f <> getFileContent committedTree f).
  { unfold changed in Hch. apply negb_true_iff in Hch. now apply eqs_false. }
  specialize (Hagent f Hf Hdiff). revert Hagent.
  unfold contributionOf, contribution, linesIn, clamp.
  destruct (diffLines dmpLineDiff (getFileContent baseTree f)
              (getFileContent committedTree f)) as [[u a] rm].
  destruct (diffLines dmpLineDiff (getFileContent checkpointTree f)
              (getFileContent committedTree f)) as [[u' a'] rm'].
  simpl. lia.
Qed.

Lemma agent_removals_not_charged_witness :
  exists r,
    CalculateAttribution lcsLineDiff 0
      (Some {[ sampleFile := mkFile (Some testTenLines) ]})
      (Some {[ sampleFile := mkFile (Some testEightLines) ]})
      (Some {[ sampleFile := mkFile (Some testEightLines) ]})
      [sampleFile] = Some r
    /\ HumanRemoved r = 0.
Proof.
  apply (agent_removals_not_charged lcsLineDiff 0
           (Some {[ sampleFile := mkFile (Some testTenLines) ]})
           (Some {[ sampleFile := mkFile (Some testEightLines) ]})
           (Some {[ sampleFile := mkFile (Some testEightLines) ]})
           [sampleFile]); [discriminate|].
  intros f [<-|[]] _. vm_compute. discriminate.
Defined.

End AttributionExtras.

(** ** What the migration keeps *)

Section MigrationExtras.
Import GoStrings Session Migration.

(** The ways out of [migrateShadowBranchIfNeeded], one by one. *)
Ltac migration_cases :=
  unfold migrateShadowBranchIfNeeded, Head, SetReference, RemoveReference;
  repeat case_match; simplify_eq; cbn [migrated err repoAfter stateAfter stderr].

(** Property X13. A call that returns [false], and so every call that
    returns an error, leaves the references, the session state and the
    error stream as they were; this covers a [nil] state, an empty
    [BaseCommit], an unreadable HEAD and a refused write. *)
Theorem migration_failure_changes_nothing
    (ShadowBranchNameForCommit : string -> string -> string)
    (repo : Repository) (state : option SessionState) :
  let out := migrateShadowBranchIfNeeded ShadowBranchNameForCommit repo state in
  (err out <> None -> migrated out = false)
  /\ (migrated out = false ->
      repoAfter out = repo /\ stateAfter out = state /\ stderr out = []).
Proof.
  cbv zeta. split.
  - migration_cases; congruence.
  - migration_cases; intros; try discriminate; auto.
Qed.

Lemma migration_failure_changes_nothing_witness :
  let out := migrateShadowBranchIfNeeded sampleName readOnlyRepo (Some sampleState) in
  migrated out = false
  /\ repoAfter out = readOnlyRepo /\ stateAfter out = Some sampleState /\ stderr out = [].
Proof.
  pose proof (migration_failure_changes_nothing sampleName readOnlyRepo (Some sampleState))
    as [Herr Hfalse].
  cbv zeta in *.
  assert (Hm : migrated (migrateShadowBranchIfNeeded sampleName readOnlyRepo
                           (Some sampleState)) = false)
    by (apply Herr; vm_compute; discriminate).
  split; [exact Hm|]. apply Hfalse, Hm.
Defined.

(** Property X14. After a call without an error on a session with a
    recorded base and a readable HEAD, the recorded base is the live
    HEAD, whether a migration took place or not, and no other field of
    the session state has changed. *)
Theorem migration_syncs_base
    (ShadowBranchNameForCommit : string -> string -> string)
    (repo : Repository) (st : SessionState) (currentHead : string) :
  Head repo = Some currentHead ->
  BaseCommit st <> "" ->
  err (migrateShadowBranchIfNeeded ShadowBranchNameForCommit repo (Some st)) = None ->
  exists st',
    stateAfter (migrateShadowBranchIfNeeded ShadowBranchNameForCommit repo (Some st))
    = Some st'
    /\ BaseCommit st' = currentHead
    /\ SessionID st' = SessionID st
    /\ WorktreeID st' = WorktreeID st
    /\ CheckpointCount st' = CheckpointCount st
    /\ ConcurrentWarningShown st' = ConcurrentWarningShown st
    /\ PromptAttributions st' = PromptAttributions st.
Proof.
  intros Hhead Hne. unfold Head in Hhead.
  migration_cases; intros; try discriminate;
    try (eexists; split; [reflexivity|]; simpl; split_and!; try reflexivity).
  - match goal with H : eqs _ "" = true |- _ => apply eqs_true in H end. contradiction.
  - match goal with H : eqs _ _ = true |- _ => apply eqs_true in H end. congruence.
Qed.

Lemma migration_syncs_base_witness :
  exists st',
    stateAfter (migrateShadowBranchIfNeeded sampleName stickyRepo (Some sampleState))
    = Some st'
    /\ BaseCommit st' = newHead
    /\ SessionID st' = "session-a"
    /\ WorktreeID st' = "wt"
    /\ CheckpointCount st' = 1
    /\ ConcurrentWarningShown st' = false
    /\ PromptAttributions st' = [].
Proof.
  apply (migration_syncs_base sampleName stickyRepo sampleState newHead).
  - reflexivity.
  - discriminate.
  - vm_compute. reflexivity.
Defined.

(** Property X15. The migration writes no entry of the reference
    storer other than the new shadow reference of the session and
    removes none other than the old one: the entry stored under any
    other name is as it was. *)
Theorem migration_frame
    (ShadowBranchNameForCommit : string -> string -> string)
    (repo : Repository) (st : SessionState) (currentHead name : string) :
  Head repo = Some currentHead ->
  name <> NewBranchReferenceName (ShadowBranchNameForCommit (BaseCommit st) (WorktreeID st)) ->
  name <> NewBranchReferenceName (ShadowBranchNameForCommit currentHead (WorktreeID st)) ->
  let out := migrateShadowBranchIfNeeded ShadowBranchNameForCommit repo (Some st) in
  refs (repoAfter out) !! name = refs repo !! name.
Proof.
  intros Hhead Hold Hnew. cbv zeta. unfold Head in Hhead.
  migration_cases; cbn [refs withRefs]; try congruence;
    rewrite ?lookup_delete_ne by congruence; now rewrite lookup_insert_ne by congruence.
Qed.

Lemma migration_frame_witness :
  let repo := withRefs sampleRepo (<[ "refs/heads/main" := newHead ]> sampleRefs) in
  let out := migrateShadowBranchIfNeeded sampleName repo (Some sampleState) in
  refs (repoAfter out) !! "refs/heads/main" = Some newHead.
Proof.
  cbv zeta.
  rewrite (migration_frame sampleName
             (withRefs sampleRepo (<[ "refs/heads/main" := newHead ]> sampleRefs))
             sampleState newHead "refs/heads/main").
  - reflexivity.
  - reflexivity.
  - vm_compute. discriminate.
  - vm_compute. discriminate.
Defined.

(** Property X16. The migration invents no commit: every hash that a
    reference holds after the call was held by some reference before
    it. *)
Theorem migration_invents_no_hash
    (ShadowBranchNameForCommit : string -> string -> string)
    (repo : Repository) (state : option SessionState) (name hash : string) :
  Reference (repoAfter (migrateShadowBranchIfNeeded ShadowBranchNameForCommit repo state)) name
  = Some hash ->
  exists name', Reference repo name' = Some hash.
Proof.
  unfold Reference. migration_cases; cbn [refs withRefs]; intros Hlook; eauto.
  - apply lookup_delete_Some in Hlook as [_ Hlook].
    apply lookup_insert_Some in Hlook as [[_ <-]|[_ Hlook]]; eauto.
  - apply lookup_insert_Some in Hlook as [[_ <-]|[_ Hlook]]; eauto.
Qed.

Lemma migration_invents_no_hash_witness :
  exists name', Reference sampleRepo name' = Some checkpointCommit.
Proof.
  apply (migration_invents_no_hash sampleName sampleRepo (Some sampleState)
           (NewBranchReferenceName (sampleName newHead "wt")) checkpointCommit).
  vm_compute. reflexivity.
Defined.

(** Property X17. Every migration is reported on the error stream, and
    the old shadow reference is never left behind in silence: after a
    migration that found it, under a name other than the new one, it
    is still there exactly when the warning about its removal was
    written. *)
Theorem migration_reports
    (ShadowBranchNameForCommit : string -> string -> string)
    (repo : Repository) (st : SessionState) (currentHead oldHash : string) :
  Head repo = Some currentHead ->
  let oldShadowBranch := ShadowBranchNameForCommit (BaseCommit st) (WorktreeID st) in
  let oldRefName := NewBranchReferenceName oldShadowBranch in
  let newRefName :=
    NewBranchReferenceName (ShadowBranchNameForCommit currentHead (WorktreeID st)) in
  let out := migrateShadowBranchIfNeeded ShadowBranchNameForCommit repo (Some st) in
  migrated out = true ->
  stderr out <> []
  /\ (Reference repo oldRefName = Some oldHash ->
      oldRefName <> newRefName ->
      (In (WarnRemoveFailed oldShadowBranch) (stderr out)
       <-> Reference (repoAfter out) oldRefName = Some oldHash)).
Proof.
  intros Hhead. cbv zeta. unfold Head in Hhead. unfold Reference.
  migration_cases; intros Hm; try discriminate; (split; [discriminate|]);
    intros Hold Hdiff; cbn [refs withRefs app]; unfold Reference in *; try congruence;
    first
      [ rewrite lookup_delete_eq; split; [intros [?|[]]; discriminate|discriminate]
      | rewrite lookup_insert_ne by congruence; split; [intros _; congruence|];
        intros _; now left ].
Qed.

Lemma migration_reports_witness :
  let out := migrateShadowBranchIfNeeded sampleName stickyRepo (Some sampleState) in
  stderr out <> []
  /\ In (WarnRemoveFailed (sampleName oldBase "wt")) (stderr out)
  /\ Reference (repoAfter out) (NewBranchReferenceName (sampleName oldBase "wt"))
     = Some checkpointCommit.
Proof.
  destruct (migration_reports sampleName stickyRepo sampleState newHead checkpointCommit)
    as [Hlog Hwarn]; [reflexivity|vm_compute; reflexivity|].
  cbv zeta. split; [exact Hlog|].
  assert (Hin : In (WarnRemoveFailed (sampleName oldBase "wt"))
                  (stderr (migrateShadowBranchIfNeeded sampleName stickyRepo
                             (Some sampleState))))
    by (vm_compute; now left).
  split; [exact Hin|].
  apply Hwarn; [vm_compute; reflexivity|vm_compute; discriminate|exact Hin].
Defined.

End MigrationExtras.

(** ** Bounds of the self-modification estimate *)

Section AccumulatedExtras.
Import GoInt Accumulated AttributionSpec.

Lemma estimate_sum_over_files_witness :
  estimateUserSelfModifications {[ "a.go" := 5; "b.go" := 2 ]} {[ "b.go" := 4; "c.go" := 1 ]}
  = sumZ (map (fun f => Z.min (at_key {[ "b.go" := 4; "c.go" := 1 ]} f)
                              (at_key {[ "a.go" := 5; "b.go" := 2 ]} f))
             ["c.go"; "a.go"; "b.go"]).
Proof.
  apply (estimate_sum_over_files {[ "a.go" := 5; "b.go" := 2 ]} {[ "b.go" := 4; "c.go" := 1 ]}).
  - intros f. unfold at_key.
    destruct (decide (f = "a.go")) as [->|Ha]; [vm_compute; discriminate|].
    destruct (decide (f = "b.go")) as [->|Hb]; [vm_compute; discriminate|].
    rewrite lookup_insert_ne, lookup_singleton_ne by congruence. simpl. lia.
  - apply (bool_decide_unpack _). vm_compute. exact I.
  - intros f [r Hf].
    destruct (decide (f = "b.go")) as [->|Hb]; [set_solver|].
    rewrite lookup_insert_ne in Hf by congruence.
    apply lookup_singleton_Some in Hf as [<- _]. set_solver.
Defined.

Lemma totalOf_insert (m : gmap string Z) f v :
  m !! f = None -> totalOf (<[f := v]> m) = totalOf m + v.
Proof.
  intros Hf. unfold totalOf. rewrite map_fold_insert_L; [reflexivity| |exact Hf].
  intros. lia.
Qed.

Lemma totalOf_delete (m : gmap string Z) f :
  totalOf m = totalOf (delete f m) + at_key m f.
Proof.
  unfold at_key. destruct (m !! f) as [v|] eqn:E; simpl.
  - rewrite <- (insert_delete_id m f v E) at 1.
    apply totalOf_insert, lookup_delete_eq.
  - rewrite delete_id by exact E. lia.
Qed.

Lemma totalOf_nonneg (m : gmap string Z) :
  (forall f, 0 <= at_key m f) -> 0 <= totalOf m.
Proof.
  induction m as [|f v m Hf IH] using map_ind; intros H; [reflexivity|].
  rewrite totalOf_insert by exact Hf.
  assert (0 <= v) by (specialize (H f); unfold at_key in H;
                      now rewrite lookup_insert_eq in H).
  assert (0 <= totalOf m); [|lia].
  apply IH. intros g. destruct (decide (g = f)) as [->|Hne].
  - unfold at_key. rewrite Hf. simpl. lia.
  - specialize (H g). unfold at_key in *. now rewrite lookup_insert_ne in H.
Qed.

(** The estimate reads the user additions only at the files with
    removed lines. *)
Lemma estimate_ext added added' (removed : gmap string Z) :
  (forall f, is_Some (removed !! f) -> at_key added f = at_key added' f) ->
  estimateUserSelfModifications added removed = estimateUserSelfModifications added' removed.
Proof.
  induction removed as [|f r removed Hf IH] using map_ind; intros H; [reflexivity|].
  rewrite !estimate_insert by exact Hf.
  rewrite IH, (H f); [reflexivity|rewrite lookup_insert_eq; eauto|].
  intros g Hg. apply H. rewrite lookup_insert_ne; [exact Hg|].
  intros ->. rewrite Hf in Hg. destruct Hg; discriminate.
Qed.

Lemma estimate_le_added (removed : gmap string Z) : forall added,
  (forall f, 0 <= at_key added f) ->
  estimateUserSelfModifications added removed <= totalOf added.
Proof.
  induction removed as [|f r removed Hf IH] using map_ind; intros added Hadd.
  - rewrite estimate_empty. now apply totalOf_nonneg.
  - rewrite estimate_insert by exact Hf.
    rewrite (estimate_ext added (delete f added)).
    + rewrite (totalOf_delete added f).
      assert (estimateUserSelfModifications (delete f added) removed
              <= totalOf (delete f added)); [|lia].
      apply IH. intros g. unfold at_key. destruct (decide (g = f)) as [->|Hne].
      * rewrite lookup_delete_eq. simpl. lia.
      * rewrite lookup_delete_ne by congruence. apply Hadd.
    + intros g Hg. unfold at_key. rewrite lookup_delete_ne; [reflexivity|].
      intros ->. rewrite Hf in Hg. destruct Hg; discriminate.
Qed.

(** The bounds of the estimate on exact integers. *)
Lemma estimate_range (added removed : gmap string Z) :
  (forall f, 0 <= at_key added f) ->
  (forall f, 0 <= at_key removed f) ->
  0 <= estimateUserSelfModifications added removed
  /\ estimateUserSelfModifications added removed <= totalOf removed
  /\ estimateUserSelfModifications added removed <= totalOf added.
Proof.
  intros Hadd Hrem. split_and!; [| |now apply estimate_le_added].
  - induction removed as [|f r removed Hf IH] using map_ind; [reflexivity|].
    rewrite estimate_insert by exact Hf.
    assert (0 <= r) by (specialize (Hrem f); unfold at_key in Hrem;
                        now rewrite lookup_insert_eq in Hrem).
    specialize (Hadd f).
    assert (0 <= estimateUserSelfModifications added removed); [|lia].
    apply IH. intros g. destruct (decide (g = f)) as [->|Hne].
    + unfold at_key. rewrite Hf. simpl. lia.
    + specialize (Hrem g). unfold at_key in *. now rewrite lookup_insert_ne in Hrem.
  - clear Hrem.
    induction removed as [|f r removed Hf IH] using map_ind; [reflexivity|].
    rewrite estimate_insert, totalOf_insert by exact Hf. lia.
Qed.

Lemma wrap64_small z : - 2 ^ 63 <= z < 2 ^ 63 -> wrap64 z = z.
Proof. intros Hz. unfold wrap64. rewrite Z.mod_small; lia. Qed.

(** A sum that wrapped on the way wraps to the same value. *)
Lemma wrap64_add_l x y : wrap64 (wrap64 x + y) = wrap64 (x + y).
Proof.
  unfold wrap64. f_equal.
  replace ((x + 2 ^ 63) mod 2 ^ 64 - 2 ^ 63 + y + 2 ^ 63)
    with ((x + 2 ^ 63) mod 2 ^ 64 + y) by lia.
  rewrite Zplus_mod_idemp_l. f_equal. lia.
Qed.

Lemma estimateInt64_insert added (removed : gmap string Z) f r :
  removed !! f = None ->
  estimateUserSelfModificationsInt64 added (<[f := r]> removed)
  = wrap64 (estimateUserSelfModificationsInt64 added removed + Z.min r (at_key added f)).
Proof.
  intros Hf. unfold estimateUserSelfModificationsInt64.
  rewrite map_fold_insert_L; [reflexivity| |exact Hf].
  intros j1 j2 z1 z2 y _ _ _. cbv zeta.
  rewrite !wrap64_add_l. f_equal. lia.
Qed.

(** Property X19. On 64-bit integers, with no negative count in either
    map and removed lines that add up to less than 2^63: no addition of
    the loop wraps, and the estimate of self-modified lines is not
    negative and exceeds neither the lines removed after the checkpoint
    nor the lines that the user added. *)
Theorem estimate_bounds
    (accumulatedUserAddedPerFile postCheckpointUserRemovedPerFile : gmap string Z) :
  (forall f, 0 <= at_key accumulatedUserAddedPerFile f) ->
  (forall f, 0 <= at_key postCheckpointUserRemovedPerFile f) ->
  totalOf postCheckpointUserRemovedPerFile < 2 ^ 63 ->
  let selfModified :=
    estimateUserSelfModificationsInt64 accumulatedUserAddedPerFile
      postCheckpointUserRemovedPerFile in
  selfModified
  = estimateUserSelfModifications accumulatedUserAddedPerFile postCheckpointUserRemovedPerFile
  /\ 0 <= selfModified
  /\ selfModified <= totalOf postCheckpointUserRemovedPerFile
  /\ selfModified <= totalOf accumulatedUserAddedPerFile.
Proof.
  intros Hadd Hrem Hfit. cbv zeta.
  assert (E : estimateUserSelfModificationsInt64 accumulatedUserAddedPerFile
                postCheckpointUserRemovedPerFile
              = estimateUserSelfModifications accumulatedUserAddedPerFile
                  postCheckpointUserRemovedPerFile).
  { induction postCheckpointUserRemovedPerFile as [|f r removed Hf IH] using map_ind;
      [reflexivity|].
    assert (0 <= r) by (specialize (Hrem f); unfold at_key in Hrem;
                        now rewrite lookup_insert_eq in Hrem).
    assert (Hrem' : forall g, 0 <= at_key removed g).
    { intros g. destruct (decide (g = f)) as [->|Hne].
      - unfold at_key. rewrite Hf. simpl. lia.
      - specialize (Hrem g). unfold at_key in *. now rewrite lookup_insert_ne in Hrem. }
    rewrite totalOf_insert in Hfit by exact Hf.
    rewrite estimateInt64_insert, estimate_insert by exact Hf.
    rewrite IH by (assumption || lia).
    destruct (estimate_range accumulatedUserAddedPerFile removed Hadd Hrem')
      as (H0 & Hle & _).
    specialize (Hadd f). apply wrap64_small. lia. }
  rewrite E. split; [reflexivity|]. now apply estimate_range.
Qed.

Lemma estimate_bounds_witness :
  estimateUserSelfModificationsInt64 {[ scenarioFile := 5 ]} {[ scenarioFile := 3 ]} = 3
  /\ totalOf {[ scenarioFile := 3 ]} = 3 /\ totalOf {[ scenarioFile := 5 ]} = 5
  /\ 0 <= estimateUserSelfModificationsInt64 {[ scenarioFile := 5 ]} {[ scenarioFile := 3 ]}
  /\ estimateUserSelfModificationsInt64 {[ scenarioFile := 5 ]} {[ scenarioFile := 3 ]}
     <= totalOf {[ scenarioFile := 3 ]}
  /\ estimateUserSelfModificationsInt64 {[ scenarioFile := 5 ]} {[ scenarioFile := 3 ]}
     <= totalOf {[ scenarioFile := 5 ]}.
Proof.
  split; [vm_compute; reflexivity|].
  split; [vm_compute; reflexivity|]. split; [vm_compute; reflexivity|].
  apply (estimate_bounds {[ scenarioFile := 5 ]} {[ scenarioFile := 3 ]}).
  - intros f. unfold at_key. destruct (decide (f = scenarioFile)) as [->|Hne].
    + rewrite lookup_singleton_eq. simpl. lia.
    + rewrite lookup_singleton_ne by congruence. simpl. lia.
  - intros f. unfold at_key. destruct (decide (f = scenarioFile)) as [->|Hne].
    + rewrite lookup_singleton_eq. simpl. lia.
    + rewrite lookup_singleton_ne by congruence. simpl. lia.
  - vm_compute. reflexivity.
Defined.

(** Without the bound the loop wraps: two files with 2^62 removed lines
    each, all of them added by the user, give a negative estimate. *)
Lemma estimate_wraps :
  estimateUserSelfModificationsInt64
    {[ "a.go" := 2 ^ 62; "b.go" := 2 ^ 62 ]} {[ "a.go" := 2 ^ 62; "b.go" := 2 ^ 62 ]}
  = - 2 ^ 63.
Proof. vm_compute. reflexivity. Qed.

(** Property X20. A file to which the user added no line (a missing
    key counts as 0) adds nothing to the estimate, however many of its
    lines were removed after the checkpoint. *)
Theorem estimate_ignores_files_without_additions
    (accumulatedUserAddedPerFile postCheckpointUserRemovedPerFile : gmap string Z)
    (file : string) (removed : Z) :
  postCheckpointUserRemovedPerFile !! file = None ->
  at_key accumulatedUserAddedPerFile file = 0 ->
  0 <= removed ->
  estimateUserSelfModifications accumulatedUserAddedPerFile
    (<[file := removed]> postCheckpointUserRemovedPerFile)
  = estimateUserSelfModifications accumulatedUserAddedPerFile
      postCheckpointUserRemovedPerFile.
Proof.
  intros Hf Hzero Hr. rewrite estimate_insert by exact Hf. rewrite Hzero. lia.
Qed.

Lemma estimate_ignores_files_without_additions_witness :
  estimateUserSelfModifications {[ scenarioFile := 5 ]}
    (<[ "agent.go" := 7 ]> {[ scenarioFile := 3 ]})
  = estimateUserSelfModifications {[ scenarioFile := 5 ]} {[ scenarioFile := 3 ]}.
Proof.
  apply (estimate_ignores_files_without_additions {[ scenarioFile := 5 ]}
           {[ scenarioFile := 3 ]} "agent.go" 7).
  - vm_compute. reflexivity.
  - vm_compute. reflexivity.
  - lia.
Defined.

End AccumulatedExtras.

(** ** Transcripts *)

Section TranscriptFacts.
Import GoStrings Attribution Transcript.

(** A read takes the first line off a non-empty input: the other lines
    are those of what is left, and the input is over when the read
    reports its end. *)
Lemma ReadBytes_splitLines reader :
  reader <> "" ->
  exists line err rest,
    ReadBytes reader = (line, err, rest)
    /\ splitLines reader = line :: splitLines rest
    /\ line <> ""
    /\ err <> Some ReadFailure
    /\ (err = Some EOF -> rest = "")
    /\ (String.length rest < String.length reader)%nat.
Proof.
  induction reader as [|c s IH]; intros Hne; [congruence|]. simpl.
  destruct (Ascii.eqb c newline) eqn:Ec.
  - eexists _, _, _. split; [reflexivity|]. split_and!; try discriminate; auto.
  - destruct s as [|c' s'].
    + eexists _, _, _. split; [reflexivity|]. split_and!; try discriminate; auto.
    + destruct (IH ltac:(discriminate)) as (l & e & rest & E & Hs & Hl & He & Heof & Hlen).
      rewrite E, Hs. eexists _, _, _. split; [reflexivity|].
      split_and!; try discriminate; auto; simpl in *; lia.
Qed.

(** With fuel for one pass per byte and one more, the loop ends on the
    lines that decode, after those it was given. *)
Lemma parseLoop_lines {Line : Type} (UnmarshalLine : string -> option Line) fuel :
  forall reader lines,
    (String.length reader < fuel)%nat ->
    parseLoop Line UnmarshalLine fuel reader lines
    = Some (inr (lines ++ omap UnmarshalLine (splitLines reader))%list).
Proof.
  induction fuel as [|fuel IH]; intros reader lines Hfuel; [lia|].
  destruct (decide (reader = "")) as [->|Hne].
  - simpl. now rewrite app_nil_r.
  - destruct (ReadBytes_splitLines reader Hne)
      as (l & e & rest & E & Hs & Hl & He & Heof & Hlen).
    simpl parseLoop. rewrite E, Hs.
    assert (Hlen0 : Nat.eqb (String.length l) 0 = false)
      by (destruct l; [congruence|reflexivity]).
    change (omap UnmarshalLine (l :: splitLines rest))
      with (match UnmarshalLine l with
            | Some y => y :: omap UnmarshalLine (splitLines rest)
            | None => omap UnmarshalLine (splitLines rest)
            end).
    destruct e as [[|]|]; [| congruence |].
    + rewrite Hlen0. rewrite (Heof eq_refl). simpl.
      destruct (UnmarshalLine l); [reflexivity|now rewrite app_nil_r].
    + rewrite Hlen0. rewrite IH by lia.
      destruct (UnmarshalLine l); [now rewrite <- app_assoc|reflexivity].
Qed.

Lemma ParseFromBytes_lines {Line : Type} (UnmarshalLine : string -> option Line) content :
  ParseFromBytes Line UnmarshalLine content
  = Some (inr (omap UnmarshalLine (splitLines content))).
Proof. unfold ParseFromBytes. rewrite parseLoop_lines by lia. reflexivity. Qed.

Lemma splitLines_cons_nonempty c s : splitLines (String c s) <> [].
Proof. intros E. apply splitLines_nil in E. discriminate. Qed.

(** The lines of a content that ends with a newline, followed by
    another content. *)
Lemma splitLines_app a b :
  HasSuffix_nl a = true ->
  splitLines (a +:+ b) = (splitLines a ++ splitLines b)%list.
Proof.
  induction a as [|c a IH]; intros Hs; [discriminate|].
  rewrite sapp_cons. simpl splitLines.
  destruct a as [|c' a'].
  - simpl in Hs. rewrite Hs, sapp_nil. reflexivity.
  - rewrite HasSuffix_nl_cons in Hs by discriminate. rewrite (IH Hs).
    destruct (Ascii.eqb c newline); [reflexivity|].
    destruct (splitLines (String c' a')) as [|l ls] eqn:E; [|reflexivity].
    exfalso. exact (splitLines_cons_nonempty _ _ E).
Qed.

Lemma splitLines_terminated l : terminated l -> splitLines l = [l].
Proof.
  intros (Hne & Hc & Hs). induction l as [|c l IH]; [congruence|].
  simpl in *. destruct (Ascii.eqb c newline) eqn:Ec.
  - assert (Count_nl l = 0) by lia.
    destruct l as [|c' l']; [apply Ascii.eqb_eq in Ec; now subst|].
    exfalso. clear IH Hne.
    assert (Hgen : forall s, HasSuffix_nl s = true -> 0 < Count_nl s).
    { induction s as [|x s IHs]; [discriminate|]. intros Hx. simpl.
      destruct s as [|y s'].
      - simpl in Hx. rewrite Hx. simpl. lia.
      - specialize (IHs Hx).
        pose proof (Count_nl_nonneg (String y s')).
        destruct (Ascii.eqb x newline); lia. }
    specialize (Hgen _ Hs). lia.
  - destruct l as [|c' l']; [simpl in Hs; congruence|].
    rewrite IH; [reflexivity|discriminate|lia|exact Hs].
Qed.

End TranscriptFacts.

Section TranscriptExtras.
Import GoStrings Attribution Transcript.

(** Property X21. [ParseFromBytes] ends on every content and never
    returns an error: its result holds, in order, the decoded form of
    each line of the content that decodes, a last line without a
    newline included, and the lines that do not decode are skipped. *)
Theorem ParseFromBytes_decodable_lines {Line : Type}
    (UnmarshalLine : string -> option Line) (content : string) :
  ParseFromBytes Line UnmarshalLine content
  = Some (inr (omap UnmarshalLine (splitLines content))).
Proof. apply ParseFromBytes_lines. Qed.

(** Property X22. Parsing a content that ends with a newline, followed
    by more content, gives the entries of the first and then those of
    the second: a transcript can be parsed piece by piece. *)
Theorem ParseFromBytes_app {Line : Type}
    (UnmarshalLine : string -> option Line) (a b : string) :
  HasSuffix_nl a = true ->
  exists la lb,
    ParseFromBytes Line UnmarshalLine a = Some (inr la)
    /\ ParseFromBytes Line UnmarshalLine b = Some (inr lb)
    /\ ParseFromBytes Line UnmarshalLine (a +:+ b) = Some (inr (la ++ lb)%list).
Proof.
  intros Hs. rewrite !ParseFromBytes_lines. eexists _, _.
  split; [reflexivity|]. split; [reflexivity|].
  rewrite splitLines_app by exact Hs. now rewrite omap_app.
Qed.

Lemma ParseFromBytes_app_witness :
  ParseFromBytes nat sampleUnmarshalLine (sampleEntry +:+ "{22}") = Some (inr [4; 4]%nat).
Proof.
  destruct (ParseFromBytes_app sampleUnmarshalLine sampleEntry "{22}")
    as (la & lb & Ea & Eb & E); [reflexivity|].
  rewrite E. vm_compute in Ea, Eb. injection Ea as <-. injection Eb as <-. reflexivity.
Defined.

(** Property X23. A line that does not decode (a blank line, a
    truncated entry) is never fatal and never hides another entry:
    with or without it between two pieces of a transcript, the result
    is the same. *)
Theorem ParseFromBytes_skips_undecodable {Line : Type}
    (UnmarshalLine : string -> option Line) (a line b : string) :
  HasSuffix_nl a = true ->
  terminated line ->
  UnmarshalLine line = None ->
  ParseFromBytes Line UnmarshalLine (a +:+ line +:+ b)
  = ParseFromBytes Line UnmarshalLine (a +:+ b).
Proof.
  intros Hs Hl Hnone. rewrite !ParseFromBytes_lines.
  rewrite !splitLines_app by (exact Hs || apply Hl).
  rewrite (splitLines_terminated line Hl). rewrite !omap_app. simpl.
  now rewrite Hnone.
Qed.

Lemma ParseFromBytes_skips_undecodable_witness :
  ParseFromBytes nat sampleUnmarshalLine (sampleEntry +:+ sampleNoise +:+ sampleEntry)
  = ParseFromBytes nat sampleUnmarshalLine (sampleEntry +:+ sampleEntry).
Proof.
  apply (ParseFromBytes_skips_undecodable sampleUnmarshalLine sampleEntry sampleNoise
           sampleEntry).
  - reflexivity.
  - repeat split; discriminate.
  - reflexivity.
Defined.

Section WithContentDecoders.

Variable UnmarshalUserMessage : string -> option UserMessage.
Variable ContentTypeText : string.
Variable StripIDEContextTags : string -> string.

Lemma collectText_other texts item :
  ~ isTextBlock ContentTypeText item -> collectText ContentTypeText texts item = texts.
Proof.
  intros Hnot. unfold collectText.
  destruct item as [| | | |items|m]; try reflexivity.
  destruct (m !! "type") as [[| | |t| |]|] eqn:Et; try reflexivity.
  destruct (eqs t ContentTypeText) eqn:E; [|reflexivity].
  apply eqs_true in E. subst t.
  destruct (m !! "text") as [[| | |text| |]|] eqn:Ex; try reflexivity.
  exfalso. apply Hnot. exists m, text. auto.
Qed.

Lemma collectText_textBlock texts text :
  collectText ContentTypeText texts (textBlock ContentTypeText text)
  = (texts ++ [text])%list.
Proof.
  unfold collectText, textBlock.
  rewrite lookup_insert_eq, eqs_refl.
  rewrite lookup_insert_ne by discriminate. now rewrite lookup_singleton_eq.
Qed.

Lemma collect_without item before after : forall texts,
  ~ isTextBlock ContentTypeText item ->
  fold_left (collectText ContentTypeText) (before ++ item :: after) texts
  = fold_left (collectText ContentTypeText) (before ++ after) texts.
Proof.
  intros texts Hnot. rewrite !fold_left_app. simpl.
  now rewrite collectText_other.
Qed.

Lemma collect_textBlocks blocks : forall texts,
  fold_left (collectText ContentTypeText) (map (textBlock ContentTypeText) blocks) texts
  = (texts ++ blocks)%list.
Proof.
  induction blocks as [|t blocks IH]; intros texts; cbn [map fold_left];
    [now rewrite app_nil_r|].
  rewrite collectText_textBlock, IH. now rewrite <- app_assoc.
Qed.

Lemma collect_no_textBlock items : forall texts,
  (forall item, In item items -> ~ isTextBlock ContentTypeText item) ->
  fold_left (collectText ContentTypeText) items texts = texts.
Proof.
  induction items as [|item items IH]; intros texts Hnone; [reflexivity|].
  cbn [fold_left]. rewrite collectText_other by (apply Hnone; now left).
  apply IH. intros item' Hin. apply Hnone. now right.
Qed.

End WithContentDecoders.

(** Property X24. Only the text blocks of an array content count: an
    item that is not an object with the text type and a string text (a
    tool use, a tool result, an image, a bare value) can be taken out
    of the array without changing what [ExtractUserContent] returns. *)
Theorem ExtractUserContent_ignores_other_items
    (UnmarshalUserMessage : string -> option UserMessage)
    (ContentTypeText : string) (StripIDEContextTags : string -> string)
    (message message' : string) (before after : list Value) (item : Value) :
  UnmarshalUserMessage message = Some (mkUserMessage (VArray (before ++ item :: after))) ->
  UnmarshalUserMessage message' = Some (mkUserMessage (VArray (before ++ after))) ->
  ~ isTextBlock ContentTypeText item ->
  ExtractUserContent UnmarshalUserMessage ContentTypeText StripIDEContextTags message
  = ExtractUserContent UnmarshalUserMessage ContentTypeText StripIDEContextTags message'.
Proof.
  intros E E' Hnot. unfold ExtractUserContent. rewrite E, E'. cbn [Content].
  now rewrite collect_without.
Qed.

Lemma ExtractUserContent_ignores_other_items_witness :
  ExtractUserContent sampleUnmarshalUserMessage "text" (fun s => s) "array"
  = ExtractUserContent sampleUnmarshalUserMessage "text" (fun s => s) "texts".
Proof.
  apply (ExtractUserContent_ignores_other_items sampleUnmarshalUserMessage "text"
           (fun s => s) "array" "texts" [textBlock "text" "first"]
           [textBlock "text" "second"] (toolUseBlock "Write")).
  - reflexivity.
  - reflexivity.
  - intros (m & text & Hm & Ht & _). injection Hm as <-. vm_compute in Ht. discriminate.
Defined.

(** Property X25. The two formats of a user message agree: an array of
    one or more text blocks reads as a string content holding their
    texts joined by blank lines; and an array without any text block,
    whatever else it holds, reads as the empty string. *)
Theorem ExtractUserContent_array_as_string
    (UnmarshalUserMessage : string -> option UserMessage)
    (ContentTypeText : string) (StripIDEContextTags : string -> string) :
  (forall (message message' : string) (texts : list string),
     UnmarshalUserMessage message
     = Some (mkUserMessage (VArray (map (textBlock ContentTypeText) texts))) ->
     UnmarshalUserMessage message'
     = Some (mkUserMessage (VString (Join texts blankLines))) ->
     texts <> [] ->
     ExtractUserContent UnmarshalUserMessage ContentTypeText StripIDEContextTags message
     = ExtractUserContent UnmarshalUserMessage ContentTypeText StripIDEContextTags message')
  /\ (forall (message : string) (items : list Value),
       UnmarshalUserMessage message = Some (mkUserMessage (VArray items)) ->
       (forall item, In item items -> ~ isTextBlock ContentTypeText item) ->
       ExtractUserContent UnmarshalUserMessage ContentTypeText StripIDEContextTags message
       = "").
Proof.
  split.
  - intros message message' texts E E' Hne.
    unfold ExtractUserContent. rewrite E, E'. cbn [Content].
    rewrite collect_textBlocks. simpl app.
    destruct texts as [|t ts]; [congruence|]. reflexivity.
  - intros message items E Hnone.
    unfold ExtractUserContent. rewrite E. cbn [Content].
    rewrite collect_no_textBlock by exact Hnone. reflexivity.
Qed.

Lemma ExtractUserContent_array_as_string_witness :
  ExtractUserContent sampleUnmarshalUserMessage "text" (fun s => s) "texts"
  = ExtractUserContent sampleUnmarshalUserMessage "text" (fun s => s) "string"
  /\ ExtractUserContent sampleUnmarshalUserMessage "text" (fun s => s) "tools" = "".
Proof.
  destruct (ExtractUserContent_array_as_string sampleUnmarshalUserMessage "text"
              (fun s => s)) as [Htexts Hnone].
  split.
  - apply (Htexts "texts" "string" ["first"; "second"]);
      [reflexivity|reflexivity|discriminate].
  - apply (Hnone "tools" [toolUseBlock "Write"; VString "bare"]); [reflexivity|].
    intros item [<-|[<-|[]]] (m & text & Hm & Ht & _); [|discriminate].
    injection Hm as <-. vm_compute in Ht. discriminate.
Defined.

End TranscriptExtras.
